(** * EagerForm: a shallow embedding of the validation orchestration engine

    The development follows the JavaScript sources of the library (the
    [EagerForm] class of version 1.0.5, the [remote] rule, the English
    catalog).

    The model:
    - [Unicode]  : [EagerForm.unicodeStrLen] and the regular expression it runs;
    - [Text]     : the ASCII part of the string methods the code calls, and
                   [decodeURIComponent];
    - [Dom]      : a form control, as far as the library reads and writes it,
                   with its place: inside the form, a member of
                   [form.elements], or both;
    - [Message]  : [translate], [translateNumbers], [strtpl], [getMessage];
    - [Form]     : the options, the constructor, [getFirstError], [isValid];
    - [Loop]     : [handleInput], [validateField], the settlement callbacks
                   and the [remote] rule, run by an explicit event loop with
                   the platform pieces they drive: timers, the debounce
                   helper, promises, XMLHttpRequest; a call returns or
                   throws, and an exception that leaves a listener or a
                   timer callback is reported;
    - [Claimed], [Samples], [LoopSpec] : the vocabulary of the statements and
                   the pages they are tried on;
    - [Registry] : [addLocale], [addMessage], [setMessages], [rule];
    - [Lifecycle]: [detachEvents], [handleSubmit], [hightlightErrors],
                   [restoreState], [handleReset], [destroy];
    - [Views]    : the vocabulary of the further properties.

    The properties:
    - [UnicodeFacts], [MessageFacts], [FormFacts] for the pure functions;
    - [LoopFacts], [TimerFacts], [NetFacts], [PassFacts], [LoopClaims] for
      the loop;
    - [UnicodeMore], [MessageMore], [FormMore], [LoopMore], [LifecycleMore],
      [RegistryMore], [ConstructionMore], [RenderMore] for further
      properties of the same functions and of the handlers around them.

    Strings that the code only compares or concatenates are [string];
    the value of a field, whose length is counted in UTF-16 code units or in
    code points, is a list of code units. *)

From Stdlib Require Import ZArith Lia Bool Ascii.
From Stdlib Require String.
From stdpp Require Import gmap strings list fin_maps pretty.

Open Scope Z_scope.

(** ** Code units and the length of a value *)

Module Unicode.

(** A JavaScript string is a sequence of 16-bit code units. *)
Definition DOMString := list Z.

Definition validUnit (c : Z) : Prop := 0 <= c < 65536.

Definition between (lo hi c : Z) : bool := (lo <=? c) && (c <=? hi).

(** The character classes of the regular expression. *)
(* [\0-\uD7FF\uE000-\uFFFF] *)
Definition isPlain (c : Z) : bool := between 0 0xD7FF c || between 0xE000 0xFFFF c.
(* [\uD800-\uDBFF] *)
Definition isHigh (c : Z) : bool := between 0xD800 0xDBFF c.
(* [\uDC00-\uDFFF] *)
Definition isLow (c : Z) : bool := between 0xDC00 0xDFFF c.

(** The four alternatives, each tried at the head of the remaining input;
    the result is the number of code units the alternative consumes.
    [atStart] tells whether the position is the beginning of the input,
    which is what [^] tests (the expression has no [m] flag). *)

(* [\0-\uD7FF\uE000-\uFFFF] *)
Definition alt_plain (s : DOMString) : option nat :=
  match s with
  | c :: _ => if isPlain c then Some 1%nat else None
  | [] => None
  end.

(* [\uD800-\uDBFF][\uDC00-\uDFFF] *)
Definition alt_pair (s : DOMString) : option nat :=
  match s with
  | c :: d :: _ => if isHigh c && isLow d then Some 2%nat else None
  | _ => None
  end.

(* [\uD800-\uDBFF](?![\uDC00-\uDFFF]) *)
Definition alt_lone_high (s : DOMString) : option nat :=
  match s with
  | c :: rest =>
      let followed := match rest with d :: _ => isLow d | [] => false end in
      if isHigh c && negb followed then Some 1%nat else None
  | [] => None
  end.

(* (?:[^\uD800-\uDBFF]|^)[\uDC00-\uDFFF] : the group first tries to
   consume one unit that is not a high surrogate, then falls back on the
   empty match at the beginning of the input. *)
Definition alt_lone_low (atStart : bool) (s : DOMString) : option nat :=
  let consuming :=
    match s with
    | c :: d :: _ => negb (isHigh c) && isLow d
    | _ => false
    end in
  let anchored :=
    match s with
    | c :: _ => atStart && isLow c
    | [] => false
    end in
  if consuming then Some 2%nat
  else if anchored then Some 1%nat
  else None.

(** One attempt of the whole expression at a position: ordered choice. *)
Definition execAt (atStart : bool) (s : DOMString) : option nat :=
  match alt_plain s with
  | Some n => Some n
  | None =>
      match alt_pair s with
      | Some n => Some n
      | None =>
          match alt_lone_high s with
          | Some n => Some n
          | None => alt_lone_low atStart s
          end
      end
  end.

(** [str.match(re)] with the [g] flag: every match, left to right; after a
    match the search resumes behind it, after a failure one unit further. *)
Fixpoint matchAll (fuel : nat) (atStart : bool) (s : DOMString) : list DOMString :=
  match fuel with
  | O => []
  | S fuel' =>
      match s with
      | [] => []
      | _ :: rest =>
          match execAt atStart s with
          | Some n => take n s :: matchAll fuel' false (drop n s)
          | None => matchAll fuel' false rest
          end
      end
  end.

Definition matches (str : DOMString) : list DOMString :=
  matchAll (length str) true str.

(** [static unicodeStrLen(str)].  The empty string is falsy and gives 0;
    otherwise the number of matches ([matches_nonempty] below shows that
    [match] never returns [null] on a non-empty string). *)
Definition unicodeStrLen (str : DOMString) : nat :=
  match str with
  | [] => 0%nat
  | _ => length (matches str)
  end.

(** [str.length]: the number of code units. *)
Definition codeUnitLength (str : DOMString) : nat := length str.

(** The number of code points of a string, as string iteration
    ([[...str].length]) counts them: a high surrogate followed by a low
    one is one code point, every other code unit is one code point. *)
Fixpoint codePointCount (str : DOMString) : nat :=
  match str with
  | [] => 0%nat
  | c :: rest =>
      match rest with
      | d :: rest' =>
          if isHigh c && isLow d then S (codePointCount rest')
          else S (codePointCount rest)
      | [] => 1%nat
      end
  end.

(** No low surrogate stands alone: every low surrogate follows a high one
    that it pairs with.  (Unpaired high surrogates are allowed.) *)
Fixpoint noLoneLow (str : DOMString) : bool :=
  match str with
  | [] => true
  | c :: rest =>
      if isLow c then false
      else
        match rest with
        | d :: rest' =>
            if isHigh c && isLow d then noLoneLow rest' else noLoneLow rest
        | [] => true
        end
  end.

End Unicode.

(** ** Text helpers

    Attribute names, catalog keys and templates are [string]s; the helpers
    below are the ASCII parts of the JavaScript string methods the code
    calls on them. *)

Module Text.

Definition code (a : ascii) : N := N_of_ascii a.

Definition isUpper (a : ascii) : bool := ((65 <=? code a) && (code a <=? 90))%N.
Definition isLower (a : ascii) : bool := ((97 <=? code a) && (code a <=? 122))%N.
Definition isDigit (a : ascii) : bool := ((48 <=? code a) && (code a <=? 57))%N.

(* \s, restricted to ASCII: tab, line feed, vertical tab, form feed,
   carriage return, space *)
Definition isSpace (a : ascii) : bool :=
  ((9 <=? code a) && (code a <=? 13))%N || (code a =? 32)%N.

(* \w *)
Definition isWord (a : ascii) : bool :=
  isUpper a || isLower a || isDigit a || (code a =? 95)%N.

(* [\w.] *)
Definition isNameChar (a : ascii) : bool := isWord a || (code a =? 46)%N.

Definition lowerChar (a : ascii) : ascii :=
  if isUpper a then ascii_of_N (code a + 32) else a.
Definition upperChar (a : ascii) : ascii :=
  if isLower a then ascii_of_N (code a - 32) else a.

Fixpoint toLowerCase (s : string) : string :=
  match s with
  | EmptyString => EmptyString
  | String a r => String (lowerChar a) (toLowerCase r)
  end.

(** [type.charAt(0).toUpperCase() + type.slice(1)] *)
Definition capitalize (s : string) : string :=
  match s with
  | EmptyString => EmptyString
  | String a r => String (upperChar a) r
  end.

(** [validityType.replace(/[A-Z]/g, '-$&').toLowerCase()] *)
Fixpoint dashUpper (s : string) : string :=
  match s with
  | EmptyString => EmptyString
  | String a r =>
      if isUpper a then String "-"%char (String a (dashUpper r))
      else String a (dashUpper r)
  end.
Definition kebab (s : string) : string := toLowerCase (dashUpper s).

(** Longest prefix whose characters satisfy [p], and the rest. *)
Fixpoint span (p : ascii -> bool) (s : string) : string * string :=
  match s with
  | EmptyString => (EmptyString, EmptyString)
  | String a r =>
      if p a then let '(h, t) := span p r in (String a h, t)
      else (EmptyString, s)
  end.

(** [s] without the prefix [p], when [s] starts with [p]. *)
Fixpoint stripPrefix (p s : string) : option string :=
  match p with
  | EmptyString => Some s
  | String a p' =>
      match s with
      | String b s' => if Ascii.eqb a b then stripPrefix p' s' else None
      | EmptyString => None
      end
  end.

(** Every occurrence of the non-empty literal [pat] replaced by [rep],
    scanning left to right and resuming behind each occurrence. *)
Fixpoint replaceAllFrom (fuel : nat) (pat rep s : string) : string :=
  match fuel with
  | O => s
  | S fuel' =>
      match s with
      | EmptyString => EmptyString
      | String a r =>
          match stripPrefix pat s with
          | Some rest => rep +:+ replaceAllFrom fuel' pat rep rest
          | None => String a (replaceAllFrom fuel' pat rep r)
          end
      end
  end.

Definition replaceAll (pat rep s : string) : string :=
  match pat with
  | EmptyString => s
  | _ => replaceAllFrom (String.length s) pat rep s
  end.

(** *** [decodeURIComponent]

    A text outside ASCII is kept as its UTF-8 bytes, so that an escape
    sequence decodes to the bytes it names. *)

Definition hexValue (a : ascii) : option N :=
  if isDigit a then Some (code a - 48)%N
  else if ((97 <=? code a) && (code a <=? 102))%N then Some (code a - 87)%N
  else if ((65 <=? code a) && (code a <=? 70))%N then Some (code a - 55)%N
  else None.

(** The byte that an escape [%XY] at the head of the text stands for,
    and the text behind it. *)
Definition escapedByte (s : string) : option (N * string) :=
  match s with
  | String "%"%char (String x (String y r)) =>
      match hexValue x, hexValue y with
      | Some h, Some l => Some (16 * h + l, r)%N
      | _, _ => None
      end
  | _ => None
  end.

(** The [n] escapes that follow the first byte of a sequence. *)
Fixpoint escapedBytes (n : nat) (s : string) : option (list N * string) :=
  match n with
  | O => Some ([], s)
  | S n' =>
      match escapedByte s with
      | Some (b, r) =>
          match escapedBytes n' r with
          | Some (bs, r') => Some (b :: bs, r')
          | None => None
          end
      | None => None
      end
  end.

Definition inRange (lo hi b : N) : bool := ((lo <=? b) && (b <=? hi))%N.

(** The bytes that can follow the first byte [b] of a well-formed UTF-8
    sequence: how many there are, and the range of the first of them (the
    others range over 80..BF).  [None] for a byte that starts no sequence:
    80..C1 and F5..FF. *)
Definition followers (b : N) : option (nat * N * N) :=
  if inRange 0xC2 0xDF b then Some (1%nat, 0x80, 0xBF)%N
  else if (b =? 0xE0)%N then Some (2%nat, 0xA0, 0xBF)%N
  else if inRange 0xE1 0xEC b then Some (2%nat, 0x80, 0xBF)%N
  else if (b =? 0xED)%N then Some (2%nat, 0x80, 0x9F)%N
  else if inRange 0xEE 0xEF b then Some (2%nat, 0x80, 0xBF)%N
  else if (b =? 0xF0)%N then Some (3%nat, 0x90, 0xBF)%N
  else if inRange 0xF1 0xF3 b then Some (3%nat, 0x80, 0xBF)%N
  else if (b =? 0xF4)%N then Some (3%nat, 0x80, 0x8F)%N
  else None.

Definition wellFormedTail (lo hi : N) (bs : list N) : bool :=
  match bs with
  | [] => true
  | b :: rest => inRange lo hi b && forallb (inRange 0x80 0xBF) rest
  end.

Definition bytesToString (bs : list N) : string :=
  fold_right (λ b r, String (ascii_of_N b) r) EmptyString bs.

Fixpoint decodeFrom (fuel : nat) (s : string) : option string :=
  match fuel with
  | O => Some s
  | S fuel' =>
      match s with
      | EmptyString => Some EmptyString
      | String "%"%char _ =>
          match escapedByte s with
          | None => None
          | Some (b, r) =>
              if (b <? 0x80)%N
              then String (ascii_of_N b) <$> decodeFrom fuel' r
              else
                match followers b with
                | None => None
                | Some (n, lo, hi) =>
                    match escapedBytes n r with
                    | None => None
                    | Some (bs, r') =>
                        if wellFormedTail lo hi bs
                        then String.append (bytesToString (b :: bs)) <$> decodeFrom fuel' r'
                        else None
                    end
                end
          end
      | String a r => String a <$> decodeFrom fuel' r
      end
  end.

(** [decodeURIComponent(s)]: every escape sequence replaced by what it
    encodes; [None] when the call throws a [URIError], which it does for
    a percent sign that two hexadecimal digits do not follow and for
    escapes that are not the UTF-8 encoding of a code point. *)
Definition decodeURIComponent (s : string) : option string :=
  decodeFrom (String.length s) s.

End Text.

(** ** Form controls *)

Module Dom.

Import Text.

(** An element of the page, with the properties the library reads and
    writes, and its place with respect to the form.  Decorating the parent
    node and same-named siblings is left to the rendering side; the
    element keeps its own class list and the text of the feedback node
    shown for it. *)
Record element := Element {
  tagName : string;                 (* upper case, as the DOM reports it *)
  id : string;                      (* element.id, empty when there is none *)
  type : string;                    (* element.type *)
  attributes : gmap string string;  (* hasAttribute / getAttribute *)
  value : Unicode.DOMString;        (* element.value *)
  constrained : bool;               (* the element has a checkValidity method *)
  willValidate : bool;              (* candidate for constraint validation *)
  violated : list string;           (* native ValidityState flags that are true,
                                       in the order [for ... in] visits them *)
  nativeMessage : string;           (* the platform's text for those violations *)
  customValidity : string;          (* last argument of setCustomValidity *)
  classList : list string;
  feedback : string;                (* textContent of the feedback node *)
  inside : bool;                    (* a descendant of the form element: what
                                       form.querySelector searches, and where
                                       events come from *)
  listed : bool                     (* a member of form.elements: a listed
                                       control whose form owner is the form *)
}.

(** [hasAttribute] and [getAttribute] of an HTML element: the name asked
    for is put in lower case, which is how the element keeps the names of
    its attributes; [null] is [None]. *)
Definition hasAttribute (el : element) (name : string) : bool :=
  bool_decide (is_Some (attributes el !! toLowerCase name)).

Definition getAttribute (el : element) (name : string) : option string :=
  attributes el !! toLowerCase name.

Definition isEmpty (s : string) : bool :=
  match s with EmptyString => true | _ => false end.

(** [element.validity.valid] *)
Definition valid (el : element) : bool :=
  match violated el with [] => isEmpty (customValidity el) | _ => false end.

(** [element.checkValidity()] : controls barred from constraint validation
    always pass. *)
Definition checkValidity (el : element) : bool :=
  negb (willValidate el) || valid el.

(** The [:invalid] pseudo-class. *)
Definition matchesInvalid (el : element) : bool :=
  willValidate el && negb (valid el).

(** [element.validationMessage]: empty when the control passes; the
    custom message when one is set; otherwise the platform's text. *)
Definition validationMessage (el : element) : string :=
  if checkValidity el then ""
  else if isEmpty (customValidity el) then nativeMessage el
  else customValidity el.

Definition setCustomValidity (msg : string) (el : element) : element :=
  Element (tagName el) (id el) (type el) (attributes el) (value el)
    (constrained el) (willValidate el) (violated el) (nativeMessage el)
    msg (classList el) (feedback el) (inside el) (listed el).

Definition setClassList (cl : list string) (el : element) : element :=
  Element (tagName el) (id el) (type el) (attributes el) (value el)
    (constrained el) (willValidate el) (violated el) (nativeMessage el)
    (customValidity el) cl (feedback el) (inside el) (listed el).

Definition setFeedback (txt : string) (el : element) : element :=
  Element (tagName el) (id el) (type el) (attributes el) (value el)
    (constrained el) (willValidate el) (violated el) (nativeMessage el)
    (customValidity el) (classList el) txt (inside el) (listed el).

Definition hasClass (c : string) (el : element) : bool :=
  bool_decide (c ∈ classList el).

(** [classList.add] and [classList.remove] *)
Definition classAdd (c : string) (el : element) : element :=
  if hasClass c el then el else setClassList (classList el ++ [c]) el.

Definition classRemove (c : string) (el : element) : element :=
  setClassList (filter (λ x, x ≠ c) (classList el)) el.

End Dom.

(** ** Message resolution *)

Module Message.

Import Text Dom.

(** The values a replacement map can hold. *)
Inductive jsval :=
| JUndefined
| JNull
| JNumber (n : nat)
| JString (s : string).

(** [String(v)], which is what [String.prototype.replace] applies to the
    result of a replacer function. *)
Definition toString (v : jsval) : string :=
  match v with
  | JUndefined => "undefined"
  | JNull => "null"
  | JNumber n => pretty n
  | JString s => s
  end.

Definition ofAttribute (o : option string) : jsval :=
  match o with Some s => JString s | None => JNull end.

(** A locale: the templates by key and the optional [numbers] table, in
    the order [for ... in] visits its keys.  The keys of the table are
    taken literally (digits, in the tables the library is used with). *)
Record catalog := Catalog {
  templates : gmap string string;
  numbers : list (string * string)
}.

(** locales/en.js *)
Definition enLocale : catalog :=
  Catalog
    (list_to_map
       [ ("badInput", "Please provide the correct input");
         ("valueMissing", "Please fill out this field.");
         ("valueMissingCheckbox", "Please check this box if you want to proceed.");
         ("valueMissingRadio", "Please select one of these options.");
         ("valueMissingSelect", "Please select one of these options.");
         ("patternMismatch", "Please match the requested format");
         ("typeMismatch", "Please match the requested type");
         ("typeMismatchEmail", "Please enter an email address");
         ("typeMismatchUrl", "Please enter an URL");
         ("tooLong", "Please shorten this text to {maxlength} characters or less (you are currently using {count} characters).");
         ("tooShort", "Please lengthen this text to {minlength} characters or more (you are currently using {count} characters).");
         ("rangeOverflow", "Please enter a value that is no more than {max}.");
         ("rangeUnderflow", "Please enter a value that is no less than {min}.");
         ("stepMismatch", "Please provide a valid value");
         ("remoteInvalid", "The field doesn't pass remote validation.");
         ("valueNotEqual", "The values don't match") ])
    [].

Definition RULE_PREFIX : string := "eager".

(** [translate(key)] with the default fallback [null]: the entry when it
    is truthy. *)
Definition translate (cat : catalog) (key : string) : option string :=
  match templates cat !! key with
  | Some t => if isEmpty t then None else Some t
  | None => None
  end.

(** [translateNumbers(string)] *)
Definition translateNumbers (cat : catalog) (v : jsval) : jsval :=
  match v with
  | JUndefined => JUndefined
  | JNull => JNull
  | _ =>
      JString
        (fold_left (λ str '(x, y), replaceAll x y str) (numbers cat) (toString v))
  end.

(** *** [strtpl] *)

(** One match of [/\{(\s*?[\w.]+\s*?)}/] at the head of [s]: the captured
    contents and what follows the closing brace.  The three classes are
    disjoint and exclude the brace, so the match, when there is one, is
    the only way to read the text. *)
Definition placeholderAt (s : string) : option (string * string) :=
  match s with
  | String "{"%char s1 =>
      let '(ws1, s2) := span isSpace s1 in
      let '(name, s3) := span isNameChar s2 in
      let '(ws2, s4) := span isSpace s3 in
      match name, s4 with
      | String _ _, String "}"%char s5 => Some (ws1 +:+ name +:+ ws2, s5)
      | _, _ => None
      end
  | _ => None
  end.

Section Templating.

(** [contents in replacements] also finds what a plain object inherits
    ([toString], [constructor], ...); [inherited name] is the text such
    a member turns into, when [name] is one. *)
Variable inherited : string -> option string.

(** The replacer function of [strtpl]. *)
Definition replacer (replacements : gmap string jsval) (contents : string) : string :=
  match replacements !! contents with
  | Some v => toString v
  | None =>
      match inherited contents with
      | Some txt => txt
      | None => ""
      end
  end.

Fixpoint strtplFrom (fuel : nat) (text : string) (replacements : gmap string jsval) : string :=
  match fuel with
  | O => text
  | S fuel' =>
      match text with
      | EmptyString => EmptyString
      | String a r =>
          match placeholderAt text with
          | Some (contents, rest) =>
              replacer replacements contents +:+ strtplFrom fuel' rest replacements
          | None => String a (strtplFrom fuel' r replacements)
          end
      end
  end.

(** [static strtpl(text, replacements)] *)
Definition strtpl (text : string) (replacements : gmap string jsval) : string :=
  strtplFrom (String.length text) text replacements.

(** *** [getMessage] *)

(** The kinds for which the type-specific catalog key is tried. *)
Definition typedKinds : list string :=
  ["valueMissing"; "typeMismatch"; "rangeOverflow"; "rangeUnderflow"; "badInput"].

Definition inlineAttribute (validityType : string) : string :=
  "data-" +:+ RULE_PREFIX +:+ "-" +:+ kebab validityType +:+ "-error".

Definition inlineGlobalAttribute : string := "data-" +:+ RULE_PREFIX +:+ "-error".

Definition specificKey (validityType type : string) : string :=
  validityType +:+ capitalize type.

(** The variable [msg] when the lookups are over: [None] is [null]. *)
Definition selectTemplate (cat : catalog) (el : element) (validityType : string)
  : option string :=
  let type := toLowerCase (Dom.type el) in
  let msg :=
    match getAttribute el (inlineAttribute validityType) with
    | Some v => Some v
    | None => getAttribute el inlineGlobalAttribute
    end in
  match msg with
  | Some (String a r) => Some (String a r)
  | _ =>
      if bool_decide (validityType ∈ typedKinds) then
        match translate cat (specificKey validityType type) with
        | Some t => Some t
        | None => translate cat validityType
        end
      else translate cat validityType
  end.

(** The object [data], as [getMessage] leaves it before templating.
    [min] and [max] are never read from the field: for number and
    range inputs [translateNumbers] gets the missing property, for date
    inputs [new Date(undefined)] is the invalid date. *)
Definition templateData (cat : catalog) (el : element) : gmap string jsval :=
  let type := toLowerCase (Dom.type el) in
  let data : gmap string jsval :=
    <["step" := translateNumbers cat (ofAttribute (getAttribute el "step"))]>
    (<["minlength" := translateNumbers cat (ofAttribute (getAttribute el "minlength"))]>
    (<["maxlength" := translateNumbers cat (ofAttribute (getAttribute el "maxlength"))]>
    (<["count" := translateNumbers cat (JNumber (Unicode.unicodeStrLen (value el)))]> ∅))) in
  if bool_decide (type = "number" ∨ type = "range") then
    <["max" := translateNumbers cat (default JUndefined (data !! "max"))]>
    (<["min" := translateNumbers cat (default JUndefined (data !! "min"))]> data)
  else if bool_decide (type = "date" ∨ type = "datetime-local") then
    <["max" := JString "Invalid Date"]> (<["min" := JString "Invalid Date"]> data)
  else data.

(** [getMessage(element, validityType)] *)
Definition getMessage (cat : catalog) (el : element) (validityType : string) : string :=
  if bool_decide (validityType = "customError") then validationMessage el
  else
    match selectTemplate cat el validityType with
    | None => validationMessage el
    | Some msg => strtpl msg (templateData cat el)
    end.

End Templating.

(** The replacement map of the 1.0.2 sources, which read [min] and [max]
    from the field.  [Number(x).toLocaleString(locale)] and
    [new Date(x).toLocaleString(locale)] belong to the platform. *)
Module Legacy.
Section Legacy.
Variable numberToLocaleString : jsval -> string.
Variable dateToLocaleString : jsval -> string.

Definition templateData (el : element) : gmap string jsval :=
  let type := toLowerCase (Dom.type el) in
  let attr name := ofAttribute (getAttribute el name) in
  let data : gmap string jsval :=
    <["step" := JString (numberToLocaleString (attr "step"))]>
    (<["max" := attr "max"]>
    (<["min" := attr "min"]>
    (<["minlength" := JString (numberToLocaleString (attr "minlength"))]>
    (<["maxlength" := JString (numberToLocaleString (attr "maxlength"))]>
    (<["count" := JString (numberToLocaleString
                             (JNumber (Unicode.unicodeStrLen (value el))))]> ∅))))) in
  if bool_decide (type = "number" ∨ type = "range") then
    <["max" := JString (numberToLocaleString (attr "max"))]>
    (<["min" := JString (numberToLocaleString (attr "min"))]> data)
  else if bool_decide (type = "date" ∨ type = "datetime-local") then
    <["max" := JString (dateToLocaleString (attr "max"))]>
    (<["min" := JString (dateToLocaleString (attr "min"))]> data)
  else data.
End Legacy.
End Legacy.

End Message.

(** ** The form, the options and the constructor *)

Module Form.

Import Text Dom Message.

(** The options the engine reads, after the merge with [defaultOptions]. *)
Record options := Options {
  locale : string;
  showSuccessState : bool;
  revalidate : list string;
  noTriggerOnTab : bool;
  delay : gmap string Z;            (* per event type, milliseconds *)
  debounce : gmap string Z;         (* per event type, milliseconds *)
  validateWithoutName : bool;
  captureSubmit : bool;
  disableSubmit : bool;
  captureReset : bool;
  inputValidClass : string;
  inputInvalidClass : string
}.

Definition defaultOptions : options :=
  Options "en" true ["blur"; "change"; "input"] true ∅ {[ "blur" := 100 ]}
    false true true true "is-valid" "is-invalid".

(** The three bound handlers of an instance. *)
Inductive handlerKind := InputHandler | SubmitHandler | ResetHandler.

#[export] Instance handlerKind_eq_dec : EqDecision handlerKind.
Proof. solve_decision. Defined.

(** An instance is known by the identity of the object [this]; a bound
    handler by the instance it is bound to. *)
Record instance := Inst {
  self : nat;
  instOptions : options
}.

Record listener := Listener {
  onEvent : string;
  boundTo : nat;
  handler : handlerKind;
  useCapture : bool
}.

#[export] Instance listener_eq_dec : EqDecision listener.
Proof. solve_decision. Defined.

(** [controls] are the elements of the page that the form has to do
    with, in document order: its descendants ([inside]) and the members of
    [form.elements] ([listed]).  A control that names another form in its
    [form] attribute is inside without being listed; a control elsewhere
    in the page that names this form is listed without being inside. *)
Record form := Form_ {
  controls : list element;
  EagerForm : option instance;          (* the property form.EagerForm *)
  listeners : list listener;
  formAttributes : gmap string string
}.

(** [addEventListener] ignores a listener that is already registered with
    the same type, callback and capture flag. *)
Definition addEventListener (l : listener) (f : form) : form :=
  if bool_decide (l ∈ listeners f) then f
  else Form_ (controls f) (EagerForm f) (listeners f ++ [l]) (formAttributes f).

Definition unBubbledEvents : list string := ["blur"; "focus"].

(** [attachEvents()] *)
Definition attachEvents (this : instance) (f : form) : form :=
  let o := instOptions this in
  let f1 :=
    fold_left
      (λ acc event,
         addEventListener
           (Listener event (self this) InputHandler
              (bool_decide (event ∈ unBubbledEvents))) acc)
      (revalidate o) f in
  let f2 :=
    if captureSubmit o
    then addEventListener (Listener "submit" (self this) SubmitHandler false) f1
    else f1 in
  if captureReset o
  then addEventListener (Listener "reset" (self this) ResetHandler false) f2
  else f2.

(** [start()] *)
Definition start (this : instance) (f : form) : form :=
  let f1 := attachEvents this f in
  Form_ (controls f1) (EagerForm f1) (listeners f1)
    (<["novalidate" := "true"]> (formAttributes f1)).

Inductive result (A : Type) :=
| Return (a : A)
| Throw (msg : string).
Arguments Return {A} a.
Arguments Throw {A} msg.

(** [new EagerForm(element, options)], for an [element] that is the form
    itself: the value of the [new] expression and the form afterwards.
    [messages] is the static locale registry, [fresh] the identity of the
    object under construction. *)
Definition constructor (messages : gmap string catalog) (fresh : nat)
    (f : form) (opts : options) : result (instance * form) :=
  let this := Inst fresh opts in
  match messages !! locale opts with
  | None => Throw ("The locale " +:+ locale opts +:+ " is not loaded.")
  | Some _ =>
      match EagerForm f with
      | None =>
          let f1 := start this f in
          Return (this,
                  Form_ (controls f1) (Some this) (listeners f1) (formAttributes f1))
      | Some existing => Return (existing, f)
      end
  end.

(** The registry after [EagerForm.addLocale('en', enLocale)]. *)
Definition defaultMessages : gmap string catalog := {[ "en" := enLocale ]}.

(** *** [getFirstError] *)

(** The suppress marker: a [novalidate] attribute whose value is not the
    string "false". *)
Definition suppressed (el : element) : bool :=
  hasAttribute el "novalidate"
  && negb (bool_decide (getAttribute el "novalidate" = Some "false")).

(** [!element.getAttribute('name')] *)
Definition unnamed (el : element) : bool :=
  match getAttribute el "name" with
  | Some n => isEmpty n
  | None => true
  end.

(** The selector [input:invalid,select:invalid,textarea:invalid]. *)
Definition selected (el : element) : bool :=
  bool_decide (tagName el ∈ ["INPUT"; "SELECT"; "TEXTAREA"]) && matchesInvalid el.

(** The first element of the list that satisfies [p], with its index. *)
Fixpoint querySelector (p : element -> bool) (i : nat) (l : list element)
  : option (nat * element) :=
  match l with
  | [] => None
  | el :: rest => if p el then Some (i, el) else querySelector p (S i) rest
  end.

(** [this.form.querySelector(selector)]: the first descendant of the form,
    in document order, that the selector matches. *)
Definition formQuerySelector (p : element -> bool) (f : form) : option (nat * element) :=
  querySelector (λ el, inside el && p el) 0 (controls f).

(** [getFirstError()]: the index of the control it returns, [None] for
    [null]. *)
Definition getFirstError (o : options) (f : form) : option nat :=
  match formQuerySelector selected f with
  | None => None
  | Some (i, el) =>
      if suppressed el then None
      else if negb (validateWithoutName o) && unnamed el then None
      else Some i
  end.

(** [isValid()] *)
Definition isValid (o : options) (f : form) : bool :=
  match getFirstError o f with None => true | Some _ => false end.

(** The first control, in document order, that fails validation and is
    neither suppressed nor (unless [validateWithoutName]) unnamed: the
    controls that do not count are left out of the search. *)
Definition eligible (o : options) (el : element) : bool :=
  selected el && negb (suppressed el)
  && (validateWithoutName o || negb (unnamed el)).

Definition firstEligibleError (o : options) (f : form) : option nat :=
  fst <$> formQuerySelector (eligible o) f.

End Form.


(** ** The event loop: scheduling, validation passes, the remote rule *)

Module Loop.

Import Text Dom Message Form.

(** *** Reading a number from an attribute *)

Definition digitValue (radix : N) (a : ascii) : option N :=
  let v :=
    if isDigit a then Some (code a - 48)%N
    else if isLower a then Some (code a - 87)%N
    else if isUpper a then Some (code a - 55)%N
    else None in
  match v with
  | Some d => if (d <? radix)%N then Some d else None
  | None => None
  end.

(** The value of the longest prefix of digits, [None] when it is empty. *)
Fixpoint digitsValue (radix : N) (s : string) (acc : option N) : option N :=
  match s with
  | String a r =>
      match digitValue radix a with
      | Some d => digitsValue radix r (Some (default 0%N acc * radix + d)%N)
      | None => acc
      end
  | EmptyString => acc
  end.

(** [parseInt(string)] without a radix; [None] is [NaN]. *)
Definition parseInt (s : string) : option Z :=
  let s1 := snd (span isSpace s) in
  let '(neg, s2) :=
    match s1 with
    | String "-"%char r => (true, r)
    | String "+"%char r => (false, r)
    | _ => (false, s1)
    end in
  let '(radix, s3) :=
    match s2 with
    | String "0"%char (String x r) =>
        if bool_decide (x = "x"%char ∨ x = "X"%char) then (16%N, r) else (10%N, s2)
    | _ => (10%N, s2)
    end in
  match digitsValue radix s3 None with
  | Some n => Some (if neg : bool then - Z.of_N n else Z.of_N n)
  | None => None
  end.

(** *** Configuration *)

(** A registered rule is either the bundled [remote] rule or a predicate
    whose promise the environment settles ([match], [reference] and the
    rules an application registers). *)
Inductive rule := CustomRule | RemoteRule.

(** What the platform answers to the calls that the remote rule makes on
    its XMLHttpRequest object before it sends the request.  Both calls
    throw when they dislike their arguments.  The method and the headers
    are read from the JSON text of the options attribute of the control
    ([None] when it has no such attribute); the endpoint is the decoded
    text of the rule's attribute with the value of the control in the
    place of [{value}]. *)
Record platform := Platform {
  (* [xhr.open(options.method, endpoint)] returns *)
  opens : option string -> string -> Unicode.DOMString -> bool;
  (* every [xhr.setRequestHeader(key, options.headers[key])] returns *)
  takesHeaders : option string -> bool
}.

Record config := Config {
  opts : options;
  cat : catalog;                            (* EagerForm.messages[options.locale] *)
  rules : list (string * rule);             (* EagerForm.rules, [for ... in] order *)
  inheritedText : string -> option string;
  env : platform
}.

(** The registry after the three [EagerForm.rule] calls of the module. *)
Definition defaultRules : list (string * rule) :=
  [("match", CustomRule); ("reference", CustomRule); ("remote", RemoteRule)].

(** *** Events, timers, closures, promises, requests *)

(** A DOM event that reaches [handleInput]: its target (an index into the
    form's controls), its type and [event.key]. *)
Record event := Event {
  target : nat;
  etype : string;
  key : option string
}.

(** What the variable [callback] of [handleInput] can hold. *)
Inductive callback :=
| ValidateField                 (* this.validateField.bind(this) *)
| Debounced (d : nat).          (* debounce(callback, bounce), the d-th closure made *)

(** What a timer runs. *)
Inductive task :=
| Call (cb : callback) (ev : event)   (* () => { callback(event.target) } *)
| TimerExpired (d : nat).             (* the timer of a debounce closure *)

Record timer := Timer {
  timerId : nat;
  due : nat;
  job : task
}.

(** The private state of a closure returned by the debounce helper
    (trailing edge only, no [maxWait]): the wait, the time and argument of
    the last call not yet served, the pending timer. *)
Record debounced := Closure {
  wait : nat;
  lastCall : option (nat * nat);
  timerOf : option nat
}.

Inductive outcome :=
| Resolved
| Rejected (reason : option string).

(** A promise returned by a rule, with what the [then] and [catch]
    callbacks of [validateField] captured.  [pass] is bookkeeping of the
    model: the number of the validation pass of the field that launched
    the rule; the code keeps no such number. *)
Record promise := Promise {
  onField : nat;
  forAttribute : string;
  ofRule : rule;
  pass : nat;
  settled : bool
}.

(** An XMLHttpRequest object: its [readyState] and what its [onload]
    handler captured (the promise, [reverse], [msg]). *)
Record xhr := Xhr {
  readyState : nat;
  onload : option (nat * bool * option string)
}.

(** An exchange in flight: the handle it was sent through and, as
    bookkeeping, the promise whose executor sent it. *)
Record request := Request {
  via : string;
  answers : nat
}.

Inductive render :=
| SetError (field : nat) (validityType : string)
| ClearError (field : nat).

(** *** State *)

Record state := State {
  clock : nat;                        (* milliseconds *)
  fields : list element;              (* the elements of the page, see [Form.controls] *)
  submitBtn : bool;                   (* this.submitBtn is an element, not null *)
  submitDisabled : bool;              (* the disabled attribute of the submit button *)
  timers : list timer;                (* pending setTimeout calls, oldest first *)
  nextTimer : nat;
  intervals : gmap string nat;        (* this.intervals *)
  closures : gmap nat debounced;
  nextClosure : nat;
  promises : gmap nat promise;
  nextPromise : nat;
  handles : gmap string xhr;          (* this['__remote_request_' + id] *)
  network : list request;
  console : list string;
  uncaught : list string;             (* exceptions that left a listener, a timer callback or validate() *)
  busy : gmap nat string;             (* the busy attribute on the field's parent *)
  (* bookkeeping of the model *)
  calls : list (nat * nat);           (* calls of validateField: time, field *)
  generation : gmap nat nat;          (* passes started so far, per field *)
  renders : list render;              (* calls of setError and clearError *)
  applied : list (nat * outcome)      (* settlements whose callbacks ran *)
}.

(** The assignments to one component of the state. *)

Definition set_clock (v : nat) (s : state) : state :=
  State v (fields s) (submitBtn s) (submitDisabled s) (timers s) (nextTimer s)
    (intervals s) (closures s) (nextClosure s) (promises s) (nextPromise s) (handles
    s) (network s) (console s) (uncaught s) (busy s) (calls s) (generation s) (renders
    s) (applied s).
Definition set_fields (v : list element) (s : state) : state :=
  State (clock s) v (submitBtn s) (submitDisabled s) (timers s) (nextTimer s)
    (intervals s) (closures s) (nextClosure s) (promises s) (nextPromise s) (handles
    s) (network s) (console s) (uncaught s) (busy s) (calls s) (generation s) (renders
    s) (applied s).
Definition set_submitBtn (v : bool) (s : state) : state :=
  State (clock s) (fields s) v (submitDisabled s) (timers s) (nextTimer s) (intervals
    s) (closures s) (nextClosure s) (promises s) (nextPromise s) (handles s) (network
    s) (console s) (uncaught s) (busy s) (calls s) (generation s) (renders s) (applied
    s).
Definition set_submitDisabled (v : bool) (s : state) : state :=
  State (clock s) (fields s) (submitBtn s) v (timers s) (nextTimer s) (intervals s)
    (closures s) (nextClosure s) (promises s) (nextPromise s) (handles s) (network s)
    (console s) (uncaught s) (busy s) (calls s) (generation s) (renders s) (applied s).
Definition set_timers (v : list timer) (s : state) : state :=
  State (clock s) (fields s) (submitBtn s) (submitDisabled s) v (nextTimer s)
    (intervals s) (closures s) (nextClosure s) (promises s) (nextPromise s) (handles
    s) (network s) (console s) (uncaught s) (busy s) (calls s) (generation s) (renders
    s) (applied s).
Definition set_nextTimer (v : nat) (s : state) : state :=
  State (clock s) (fields s) (submitBtn s) (submitDisabled s) (timers s) v (intervals
    s) (closures s) (nextClosure s) (promises s) (nextPromise s) (handles s) (network
    s) (console s) (uncaught s) (busy s) (calls s) (generation s) (renders s) (applied
    s).
Definition set_intervals (v : gmap string nat) (s : state) : state :=
  State (clock s) (fields s) (submitBtn s) (submitDisabled s) (timers s) (nextTimer s)
    v (closures s) (nextClosure s) (promises s) (nextPromise s) (handles s) (network
    s) (console s) (uncaught s) (busy s) (calls s) (generation s) (renders s) (applied
    s).
Definition set_closures (v : gmap nat debounced) (s : state) : state :=
  State (clock s) (fields s) (submitBtn s) (submitDisabled s) (timers s) (nextTimer s)
    (intervals s) v (nextClosure s) (promises s) (nextPromise s) (handles s) (network
    s) (console s) (uncaught s) (busy s) (calls s) (generation s) (renders s) (applied
    s).
Definition set_nextClosure (v : nat) (s : state) : state :=
  State (clock s) (fields s) (submitBtn s) (submitDisabled s) (timers s) (nextTimer s)
    (intervals s) (closures s) v (promises s) (nextPromise s) (handles s) (network s)
    (console s) (uncaught s) (busy s) (calls s) (generation s) (renders s) (applied s).
Definition set_promises (v : gmap nat promise) (s : state) : state :=
  State (clock s) (fields s) (submitBtn s) (submitDisabled s) (timers s) (nextTimer s)
    (intervals s) (closures s) (nextClosure s) v (nextPromise s) (handles s) (network
    s) (console s) (uncaught s) (busy s) (calls s) (generation s) (renders s) (applied
    s).
Definition set_nextPromise (v : nat) (s : state) : state :=
  State (clock s) (fields s) (submitBtn s) (submitDisabled s) (timers s) (nextTimer s)
    (intervals s) (closures s) (nextClosure s) (promises s) v (handles s) (network s)
    (console s) (uncaught s) (busy s) (calls s) (generation s) (renders s) (applied s).
Definition set_handles (v : gmap string xhr) (s : state) : state :=
  State (clock s) (fields s) (submitBtn s) (submitDisabled s) (timers s) (nextTimer s)
    (intervals s) (closures s) (nextClosure s) (promises s) (nextPromise s) v (network
    s) (console s) (uncaught s) (busy s) (calls s) (generation s) (renders s) (applied
    s).
Definition set_network (v : list request) (s : state) : state :=
  State (clock s) (fields s) (submitBtn s) (submitDisabled s) (timers s) (nextTimer s)
    (intervals s) (closures s) (nextClosure s) (promises s) (nextPromise s) (handles
    s) v (console s) (uncaught s) (busy s) (calls s) (generation s) (renders s)
    (applied s).
Definition set_console (v : list string) (s : state) : state :=
  State (clock s) (fields s) (submitBtn s) (submitDisabled s) (timers s) (nextTimer s)
    (intervals s) (closures s) (nextClosure s) (promises s) (nextPromise s) (handles
    s) (network s) v (uncaught s) (busy s) (calls s) (generation s) (renders s)
    (applied s).
Definition set_uncaught (v : list string) (s : state) : state :=
  State (clock s) (fields s) (submitBtn s) (submitDisabled s) (timers s) (nextTimer s)
    (intervals s) (closures s) (nextClosure s) (promises s) (nextPromise s) (handles
    s) (network s) (console s) v (busy s) (calls s) (generation s) (renders s)
    (applied s).
Definition set_busy (v : gmap nat string) (s : state) : state :=
  State (clock s) (fields s) (submitBtn s) (submitDisabled s) (timers s) (nextTimer s)
    (intervals s) (closures s) (nextClosure s) (promises s) (nextPromise s) (handles
    s) (network s) (console s) (uncaught s) v (calls s) (generation s) (renders s)
    (applied s).
Definition set_calls (v : list (nat * nat)) (s : state) : state :=
  State (clock s) (fields s) (submitBtn s) (submitDisabled s) (timers s) (nextTimer s)
    (intervals s) (closures s) (nextClosure s) (promises s) (nextPromise s) (handles
    s) (network s) (console s) (uncaught s) (busy s) v (generation s) (renders s)
    (applied s).
Definition set_generation (v : gmap nat nat) (s : state) : state :=
  State (clock s) (fields s) (submitBtn s) (submitDisabled s) (timers s) (nextTimer s)
    (intervals s) (closures s) (nextClosure s) (promises s) (nextPromise s) (handles
    s) (network s) (console s) (uncaught s) (busy s) (calls s) v (renders s) (applied
    s).
Definition set_renders (v : list render) (s : state) : state :=
  State (clock s) (fields s) (submitBtn s) (submitDisabled s) (timers s) (nextTimer s)
    (intervals s) (closures s) (nextClosure s) (promises s) (nextPromise s) (handles
    s) (network s) (console s) (uncaught s) (busy s) (calls s) (generation s) v
    (applied s).
Definition set_applied (v : list (nat * outcome)) (s : state) : state :=
  State (clock s) (fields s) (submitBtn s) (submitDisabled s) (timers s) (nextTimer s)
    (intervals s) (closures s) (nextClosure s) (promises s) (nextPromise s) (handles
    s) (network s) (console s) (uncaught s) (busy s) (calls s) (generation s) (renders
    s) v.

(** *** Calls that return or throw *)

(** A call returns, or throws after what it did so far. *)
Inductive completion (A : Type) :=
| Normal (a : A)
| Abrupt (error : string) (a : A).
Arguments Normal {A} a.
Arguments Abrupt {A} error a.

Definition andThen {A : Type} (m : completion A) (k : A -> completion A) : completion A :=
  match m with
  | Normal a => k a
  | Abrupt e a => Abrupt e a
  end.

Notation "m >>= k" := (andThen m k) (at level 50, left associativity).

(** What a call leaves, whether it returned or threw. *)
Definition after {A : Type} (m : completion A) : A :=
  match m with
  | Normal a => a
  | Abrupt _ a => a
  end.

Definition threw {A : Type} (m : completion A) : bool :=
  match m with
  | Normal _ => false
  | Abrupt _ _ => true
  end.

(** A loop whose body can throw: the first exception ends it. *)
Fixpoint forEach {A X : Type} (body : A -> X -> completion A) (l : list X) (a : A)
  : completion A :=
  match l with
  | [] => Normal a
  | x :: rest =>
      match body a x with
      | Normal a' => forEach body rest a'
      | Abrupt e a' => Abrupt e a'
      end
  end.

(** An exception that leaves a listener or a timer callback is reported
    and goes no further. *)
Definition report (m : completion state) : state :=
  match m with
  | Normal s => s
  | Abrupt e s => set_uncaught (uncaught s ++ [e]) s
  end.

(** *** The submit button *)

(** [enableSubmit()] and [disableSubmit()]: a call on [this.submitBtn]
    when it is [null] is a [TypeError]. *)
Definition enableSubmit (s : state) : completion state :=
  if submitBtn s then Normal (set_submitDisabled false s) else Abrupt "TypeError" s.

Definition disableSubmit (s : state) : completion state :=
  if submitBtn s then Normal (set_submitDisabled true s) else Abrupt "TypeError" s.

(** *** Rendering *)

(** [setError(element, validityType)], on the field itself. *)
Definition setError (c : config) (validityType : string) (el : element) : element :=
  let el1 := classAdd (inputInvalidClass (opts c)) el in
  let el2 := classRemove (inputValidClass (opts c)) el1 in
  (* displayError *)
  setFeedback (getMessage (inheritedText c) (cat c) el2 validityType) el2.

(** [clearError(element)], on the field itself. *)
Definition clearError (c : config) (el : element) : element :=
  let el1 := classRemove (inputInvalidClass (opts c)) el in
  let el2 := setFeedback "" el1 in
  if showSuccessState (opts c) then classAdd (inputValidClass (opts c)) el2 else el2.

Definition doSetError (c : config) (i : nat) (validityType : string) (s : state) : state :=
  set_renders (renders s ++ [SetError i validityType])
    (set_fields (alter (setError c validityType) i (fields s)) s).

Definition doClearError (c : config) (i : nat) (s : state) : state :=
  set_renders (renders s ++ [ClearError i])
    (set_fields (alter (clearError c) i (fields s)) s).

(** *** Timers *)

(** The delay as [setTimeout] reads it: the number is converted to a
    signed integer of 32 bits, and a negative one counts as zero.  A delay
    of 2^31 milliseconds or more is not waited for. *)
Definition timeoutOf (ms : nat) : nat :=
  Z.to_nat ((Z.of_nat ms + 2 ^ 31) mod 2 ^ 32 - 2 ^ 31).

(** [setTimeout(job, ms)]: the new state and the timer's id. *)
Definition setTimeout (j : task) (ms : nat) (s : state) : state * nat :=
  let tid := nextTimer s in
  (set_nextTimer (S tid)
     (set_timers (timers s ++ [Timer tid (clock s + timeoutOf ms) j]) s), tid).

(** [clearTimeout(id)]; [undefined] and ids of timers that already ran
    change nothing. *)
Definition clearTimeout (tid : option nat) (s : state) : state :=
  match tid with
  | Some t => set_timers (filter (λ x, timerId x ≠ t) (timers s)) s
  | None => s
  end.

(** *** XMLHttpRequest *)

Definition handleState (h : string) (s : state) : nat :=
  match handles s !! h with Some x => readyState x | None => 0%nat end.

Definition setReadyState (h : string) (rs : nat) (s : state) : state :=
  set_handles (alter (λ x, Xhr rs (onload x)) h (handles s)) s.

Definition inFlight (h : string) (s : state) : list request :=
  filter (λ r, via r = h) (network s).

(** [xhr.abort()]: the exchange is cancelled and the object ends up
    unsent; neither [onload] nor [onerror] runs. *)
Definition xhrAbort (h : string) (s : state) : state :=
  setReadyState h 0 (set_network (filter (λ r, via r ≠ h) (network s)) s).

(** [xhr.open(method, url)] when it returns, at its weakest: the object
    becomes opened; nothing is cancelled on its behalf. *)
Definition xhrOpen (h : string) (s : state) : state := setReadyState h 1 s.

(** [xhr.send(data)] from the executor of promise [p]. *)
Definition xhrSend (h : string) (p : nat) (s : state) : state :=
  set_network (network s ++ [Request h p]) s.

(** *** Settlement callbacks of [validateField] *)

(** [.then(() => { element.setCustomValidity(''); this.clearError(element) })] *)
Definition onFulfilled (c : config) (i : nat) (s : state) : state :=
  doClearError c i (set_fields (alter (setCustomValidity "") i (fields s)) s).

(** The message the [catch] callback gives to [setCustomValidity]. *)
Definition rejectionMessage (el : element) (attribute : string) (err : option string) : string :=
  match getAttribute el (attribute +:+ "-error") with
  | Some m => m
  | None =>
      match getAttribute el ("data-" +:+ RULE_PREFIX +:+ "-error") with
      | Some m => m
      | None => default "" err
      end
  end.

(** [.catch((err) => { ... element.setCustomValidity(msg); this.setError(element, 'customError') })] *)
Definition onRejected (c : config) (i : nat) (attribute : string) (err : option string)
    (s : state) : state :=
  doSetError c i "customError"
    (set_fields
       (alter (λ el, setCustomValidity (rejectionMessage el attribute err) el) i (fields s)) s).

(** A pending promise settles: its callbacks run. *)
Definition settle (c : config) (p : nat) (o : outcome) (s : state) : state :=
  match promises s !! p with
  | Some pr =>
      if settled pr then s
      else
        let s1 :=
          set_applied (applied s ++ [(p, o)])
            (set_promises
               (<[p := Promise (onField pr) (forAttribute pr) (ofRule pr) (pass pr) true]>
                  (promises s)) s) in
        match o with
        | Resolved => onFulfilled c (onField pr) s1
        | Rejected err => onRejected c (onField pr) (forAttribute pr) err s1
        end
  | None => s
  end.

(** [new Promise(...)] by a rule launched from pass [g] of field [i]. *)
Definition newPromise (i : nat) (attribute : string) (r : rule) (g : nat) (s : state)
  : state * nat :=
  let p := nextPromise s in
  (set_nextPromise (S p)
     (set_promises (<[p := Promise i attribute r g false]> (promises s)) s), p).

(** *** The remote rule *)

Definition handleName (el : element) : string := "__remote_request_" +:+ id el.

(** The text [decodeURIComponent] is given: [String(null)] for an
    attribute that is not there. *)
Definition endpointTemplate (el : element) (attribute : string) : string :=
  default "null" (getAttribute el attribute).

Definition requestOptions (el : element) (attribute : string) : option string :=
  getAttribute el (attribute +:+ "-options").

(** [remoteRule(element, attribute)], called from pass [g] of field [i].
    What the request carries (endpoint, method, headers, body) matters
    only as far as it makes [xhr.open] or [xhr.setRequestHeader] throw. *)
Definition remoteRule (c : config) (i : nat) (attribute : string) (g : nat) (s : state)
  : completion state :=
  match fields s !! i with
  | None => Normal s
  | Some el =>
      match decodeURIComponent (endpointTemplate el attribute) with
      | None => Abrupt "URIError" s
      | Some template =>
          let reverse :=
            bool_decide (getAttribute el (attribute +:+ "-reverse") = Some "true") in
          let s1 := set_busy (<[i := "true"]> (busy s)) s in
          let name := handleName el in
          let s2 :=
            match handles s1 !! name with
            | None => set_handles (<[name := Xhr 0 None]> (handles s1)) s1
            | Some _ => s1
            end in
          let options := requestOptions el attribute in
          (* Abort pending requests before starting new ones *)
          let s3 :=
            if bool_decide (0 < handleState name s2 ∧ handleState name s2 < 4)%nat
            then xhrAbort name s2 else s2 in
          if negb (opens (env c) options template (value el))
          then Abrupt "DOMException" s3
          else
            let s4 := xhrOpen name s3 in
            if negb (takesHeaders (env c) options) then Abrupt "DOMException" s4
            else
              let msg := translate (cat c) "remoteInvalid" in
              let '(s5, p) := newPromise i attribute RemoteRule g s4 in
              let s6 :=
                set_handles (alter (λ x, Xhr (readyState x) (Some (p, reverse, msg))) name
                               (handles s5)) s5 in
              Normal (xhrSend name p s6)
      end
  end.

(** [xhr.onload], for a response with the given status. *)
Definition onLoad (c : config) (h : string) (status : Z) (s : state) : state :=
  match handles s !! h with
  | Some (Xhr _ (Some (p, reverse, msg))) =>
      let success := if reverse : bool then negb (status =? 200) else (status =? 200) in
      let s1 :=
        match promises s !! p with
        | Some pr => set_busy (<[onField pr := "false"]> (busy s)) s
        | None => s
        end in
      if success then settle c p Resolved s1 else settle c p (Rejected msg) s1
  | _ => s
  end.

(** [xhr.onerror]: [console.log(`${this.status} ${this.statusText}`)],
    with the status 0 and the empty status text of a failed exchange. *)
Definition onError (h : string) (s : state) : state :=
  set_console (console s ++ ["0 "]) s.

(** *** [validateField] *)

Definition ruleAttribute (key : string) : string :=
  "data-" +:+ RULE_PREFIX +:+ "-" +:+ key.

(** One turn of the loop over [EagerForm.rules]. *)
Definition launch (c : config) (i g : nat) (s : state) (r : string * rule)
  : completion state :=
  let attribute := ruleAttribute r.1 in
  match fields s !! i with
  | None => Normal s
  | Some el =>
      if hasAttribute el attribute then
        match r.2 with
        | CustomRule => Normal (newPromise i attribute CustomRule g s).1
        | RemoteRule => remoteRule c i attribute g s
        end
      else Normal s
  end.

(** [validateField(element)] for the control at index [i]. *)
Definition validateField (c : config) (i : nat) (s : state) : completion state :=
  let s := set_calls (calls s ++ [(clock s, i)]) s in
  match fields s !! i with
  | None => Normal s
  | Some el =>
      if negb (constrained el)
         || bool_decide (Dom.type el ∈ ["button"; "submit"; "reset"]) then Normal s
      else if suppressed el then Normal s
      else if negb (validateWithoutName (opts c)) && unnamed el then Normal s
      else
        let g := S (default 0%nat (generation s !! i)) in
        let s := set_generation (<[i := g]> (generation s)) s in
        (* run HTML5 validation first: when checkValidity() fails, the loop
           over element.validity meets the key customError, and reports
           every other flag that is true *)
        let failed := negb (checkValidity el) in
        let hasCustomError := failed in
        let reported := if failed then violated el else [] in
        let s := fold_left (λ acc k, doSetError c i k acc) reported s in
        let hasDefaultError := bool_decide (reported ≠ []) in
        if hasDefaultError then Normal s
        else
          let s := if negb hasCustomError then doClearError c i s else s in
          forEach (launch c i g) (rules c) s
  end.

(** [validate()]: the walk over [form.elements]. *)
Definition validate (c : config) (s : state) : completion state :=
  forEach
    (λ acc i,
       match fields acc !! i with
       | Some el =>
           if listed el && bool_decide (tagName el ≠ "FIELDSET")
           then validateField c i acc else Normal acc
       | None => Normal acc
       end)
    (seq 0 (length (fields s))) s.

(** *** The debounce helper *)

(** [debounce(func, wait)] with [func = validateField]: a new closure. *)
Definition makeDebounced (w : nat) (s : state) : state * nat :=
  let d := nextClosure s in
  (set_nextClosure (S d) (set_closures (<[d := Closure w None None]> (closures s)) s), d).

(** A call of the closure [d] with argument [arg]: the call is recorded
    and, unless the closure's timer is already running, the timer starts. *)
Definition callDebounced (d : nat) (arg : nat) (s : state) : state :=
  match closures s !! d with
  | None => s
  | Some cl =>
      match timerOf cl with
      | Some t =>
          set_closures (<[d := Closure (wait cl) (Some (clock s, arg)) (Some t)]> (closures s)) s
      | None =>
          let '(s1, t) := setTimeout (TimerExpired d) (wait cl) s in
          set_closures (<[d := Closure (wait cl) (Some (clock s, arg)) (Some t)]> (closures s1)) s1
      end
  end.

(** The closure's timer runs out: the function is invoked if the wait has
    passed since the last call, otherwise the timer restarts for what is
    left of it. *)
Definition timerExpired (c : config) (d : nat) (s : state) : completion state :=
  match closures s !! d with
  | None => Normal s
  | Some cl =>
      match lastCall cl with
      | None => Normal (set_closures (<[d := Closure (wait cl) None None]> (closures s)) s)
      | Some (t0, arg) =>
          if bool_decide (wait cl ≤ clock s - t0)%nat then
            validateField c arg
              (set_closures (<[d := Closure (wait cl) None None]> (closures s)) s)
          else
            let '(s1, t) := setTimeout (TimerExpired d) (wait cl - (clock s - t0)) s in
            Normal
              (set_closures (<[d := Closure (wait cl) (lastCall cl) (Some t)]> (closures s1))
                 s1)
      end
  end.

(** [callback(event.target)] *)
Definition invoke (c : config) (cb : callback) (arg : nat) (s : state) : completion state :=
  match cb with
  | ValidateField => validateField c arg s
  | Debounced d => Normal (callDebounced d arg s)
  end.

(** *** [handleInput] *)

(** The resolution shared by [bounce] and [delay]: the event-specific
    attribute, then the generic attribute, then the option for the event
    type when it is truthy, then zero.  [None] is [NaN]. *)
Definition resolveTiming (el : element) (specific generic : string)
    (table : gmap string Z) (ty : string) : option Z :=
  match getAttribute el specific with
  | Some v => parseInt v
  | None =>
      match getAttribute el generic with
      | Some v => parseInt v
      | None =>
          Some (default 0%Z (table !! ty))
      end
  end.

Definition bounceOf (c : config) (el : element) (ty : string) : option Z :=
  resolveTiming el ("data-" +:+ RULE_PREFIX +:+ "-" +:+ ty +:+ "-debounce")
    ("data-" +:+ RULE_PREFIX +:+ "-debounce") (debounce (opts c)) ty.

Definition delayOf (c : config) (el : element) (ty : string) : option Z :=
  resolveTiming el ("data-" +:+ RULE_PREFIX +:+ "-" +:+ ty +:+ "-delay")
    ("data-" +:+ RULE_PREFIX +:+ "-delay") (delay (opts c)) ty.

(** [x > 0], false for [NaN]. *)
Definition positive (x : option Z) : option nat :=
  match x with
  | Some n => if (0 <? n)%Z then Some (Z.to_nat n) else None
  | None => None
  end.

(** The form as [getFirstError] sees it. *)
Definition formOf (s : state) : form := Form_ (fields s) None [] ∅.

(** The first statements of [handleInput] for an event that gets past
    the Tab test: on a form change, enable the submit button back. *)
Definition enableOnChange (c : config) (ev : event) (s : state) : completion state :=
  if bool_decide (etype ev = "change") && Form.disableSubmit (opts c)
  then (if isValid (opts c) (formOf s) then enableSubmit s else Normal s)
  else Normal s.

(** [handleInput(event)].  The [eager:before-validate] event is created
    without [cancelable], so [dispatchEvent] returns [true] and [cancelled]
    is [false]. *)
Definition handleInput (c : config) (ev : event) (s : state) : completion state :=
  match fields s !! target ev with
  | None => Normal s
  | Some el =>
      if noTriggerOnTab (opts c) && bool_decide (key ev = Some "Tab") then Normal s
      else
        enableOnChange c ev s >>= (λ s,
          let '(s, cb) :=
            match positive (bounceOf c el (etype ev)) with
            | Some bounce =>
                let '(s1, d) := makeDebounced bounce s in (s1, Debounced d)
            | None => (s, ValidateField)
            end in
          match positive (delayOf c el (etype ev)) with
          | Some ms =>
              (* clear any old delays first *)
              let s1 := clearTimeout (intervals s !! etype ev) s in
              let '(s2, t) := setTimeout (Call cb ev) ms s1 in
              Normal (set_intervals (<[etype ev := t]> (intervals s2)) s2)
          | None => invoke c cb (target ev) s
          end)
  end.

(** *** The loop *)

(** A timer that is still pending runs its job. *)
Definition fire (c : config) (s : state) (t : timer) : state :=
  if bool_decide (timerId t ∈ (timerId <$> timers s)) then
    let s1 := set_timers (filter (λ x, timerId x ≠ timerId t) (timers s)) s in
    report
      match job t with
      | Call cb ev => invoke c cb (target ev) s1
      | TimerExpired d => timerExpired c d s1
      end
  else s.

(** One millisecond passes; the timers that are due run, oldest first. *)
Definition tick (c : config) (s : state) : state :=
  let s1 := set_clock (S (clock s)) s in
  fold_left (fire c) (filter (λ t, (due t ≤ clock s1)%nat) (timers s1)) s1.

(** What the environment can do to the page. *)
Inductive action :=
| Dispatch (ev : event)               (* an event is dispatched on an element *)
| Wait (ms : nat)                     (* time passes *)
| Settle (p : nat) (o : outcome)      (* the promise of a custom rule settles *)
| Progress (h : string) (rs : nat)    (* headers or data arrive on a handle *)
| Load (h : string) (status : Z)      (* a response is complete *)
| NetError (h : string)               (* the exchange fails *)
| ValidateAll.                        (* validate() *)

(** The event reaches the listeners of the form: its target is a
    descendant of the form. *)
Definition reaches (ev : event) (s : state) : bool :=
  match fields s !! target ev with
  | Some el => inside el
  | None => false
  end.

Definition step (c : config) (s : state) (a : action) : state :=
  match a with
  | Dispatch ev =>
      if bool_decide (etype ev ∈ revalidate (opts c)) && reaches ev s
      then report (handleInput c ev s) else s
  | Wait ms => Nat.iter ms (tick c) s
  | Settle p o =>
      match promises s !! p with
      | Some pr =>
          match ofRule pr with
          | CustomRule => settle c p o s
          | RemoteRule => s
          end
      | None => s
      end
  | Progress h rs =>
      if bool_decide (inFlight h s ≠ [] ∧ (rs = 2 ∨ rs = 3)%nat)
      then setReadyState h rs s else s
  | Load h status =>
      if bool_decide (inFlight h s ≠ [])
      then onLoad c h status
             (setReadyState h 4 (set_network (filter (λ r, via r ≠ h) (network s)) s))
      else s
  | NetError h =>
      if bool_decide (inFlight h s ≠ [])
      then onError h
             (setReadyState h 4 (set_network (filter (λ r, via r ≠ h) (network s)) s))
      else s
  | ValidateAll => report (validate c s)
  end.

Definition run (c : config) (s : state) (tr : list action) : state :=
  fold_left (step c) tr s.

(** The selector [[type="submit"]], which compares the value of the
    attribute without regard to case. *)
Definition typeSubmit (el : element) : bool :=
  bool_decide (toLowerCase <$> getAttribute el "type" = Some "submit").

(** The page once the instance is constructed: the constructor looked
    for the submit button among the descendants of the form, and nothing
    is pending. *)
Definition initial (els : list element) : state :=
  State 0 els (bool_decide (is_Some (formQuerySelector typeSubmit (Form_ els None [] ∅))))
    false [] 0 ∅ ∅ 0 ∅ 0 ∅ [] [] [] ∅ [] ∅ [] [].

Definition reachable (c : config) (els : list element) (s : state) : Prop :=
  ∃ tr, s = run c (initial els) tr.

End Loop.

(** ** The order of lookups as the specification words it *)

Module Claimed.

Import Text Dom Message.

(** Inline attribute for the kind, then the inline global attribute, then
    the catalog key for kind and type, then the catalog key for the kind;
    [None] stands for the platform's message. *)
Definition claimedTemplate (cat : catalog) (el : element) (validityType : string)
  : option string :=
  match getAttribute el (inlineAttribute validityType) with
  | Some v => Some v
  | None =>
      match getAttribute el inlineGlobalAttribute with
      | Some v => Some v
      | None =>
          match translate cat (specificKey validityType (toLowerCase (Dom.type el))) with
          | Some t => Some t
          | None => translate cat validityType
          end
      end
  end.

(** No inline text is usable: the attribute for the kind is empty, or it
    is absent and the global one is absent or empty. *)
Definition noInlineText (el : element) (validityType : string) : Prop :=
  let inline := getAttribute el (inlineAttribute validityType) in
  let global := getAttribute el inlineGlobalAttribute in
  inline = Some "" \/ (inline = None /\ (global = None \/ global = Some "")).

(** The catalog entry for kind and type, for the kinds that have one. *)
Definition typedEntry (cat : catalog) (el : element) (validityType : string)
  : option string :=
  if bool_decide (validityType ∈ typedKinds)
  then translate cat (specificKey validityType (toLowerCase (Dom.type el)))
  else None.

End Claimed.

(** ** Sample pages *)

Module Samples.

Import Text Dom Message Form Loop.

(** Code units of an ASCII text. *)
Fixpoint units (s : string) : Unicode.DOMString :=
  match s with
  | EmptyString => []
  | String a r => Z.of_N (code a) :: units r
  end.

(** A text input with a name, valid as far as the platform is concerned. *)
Definition textInput (ident : string) (extra : list (string * string)) : element :=
  Element "INPUT" ident "text" (list_to_map (("name", ident) :: extra)) []
    true true [] "" "" [] "" true true.

Definition noInherited : string -> option string := λ _, None.

(** <input type="number" name="age" max="10"> holding 12. *)
Definition ageInput : element :=
  Element "INPUT" "age" "number" (list_to_map [("name", "age"); ("max", "10")])
    (units "12") true true ["rangeOverflow"] "Value must be less than or equal to 10."
    "" [] "" true true.

(** <input type="text" name="note" maxlength="3"> holding too long a text,
    and a catalog with a type-specific entry for [tooLong]. *)
Definition noteInput : element :=
  Element "INPUT" "note" "text" (list_to_map [("name", "note"); ("maxlength", "3")])
    (units "abcd") true true ["tooLong"] "Please shorten this text." "" [] "" true true.

Definition twoEntries : catalog :=
  Catalog (list_to_map [("tooLong", "generic"); ("tooLongText", "specific")]) [].

(** Two required inputs left empty; the first carries the suppress marker. *)
Definition requiredEmpty (ident : string) (extra : list (string * string)) : element :=
  Element "INPUT" ident "text" (list_to_map (("name", ident) :: ("required", "") :: extra))
    [] true true ["valueMissing"] "Please fill out this field." "" [] "" true true.

Definition suppressedFirst : form :=
  Form_ [requiredEmpty "a" [("novalidate", "")]; requiredEmpty "b" []] None [] ∅.

(** A form that already holds an instance. *)
Definition heldForm : form :=
  match constructor defaultMessages 0 (Form_ [textInput "a" []] None [] ∅) defaultOptions with
  | Return (_, f) => f
  | Throw _ => Form_ [] None [] ∅
  end.

Definition frenchOptions : options :=
  Options "fr" true ["blur"; "change"; "input"] true ∅ {[ "blur" := 100 ]}
    false true true true "is-valid" "is-invalid".

(** <button type="submit">, barred from constraint validation. *)
Definition submitButton : element :=
  Element "BUTTON" "" "submit" (list_to_map [("type", "submit")]) []
    true false [] "" "" [] "" true true.

(** A page with two named inputs and a submit button: the first input
    checked by a rule the application registered ([available]), the second
    by the remote rule. *)
Definition sampleRules : list (string * rule) :=
  defaultRules ++ [("available", CustomRule)].

Definition samplePage : list element :=
  [ textInput "a" [("data-eager-available", "1")];
    textInput "b" [("data-eager-remote", "/check?v={value}")];
    submitButton ].

(** A platform for the samples: it finds no fault with the request of a
    control without options attribute (a GET request without headers),
    and refuses every other one.  The samples make no request with
    options. *)
Definition plainPlatform : platform :=
  Platform (λ options _ _, bool_decide (options = None))
           (λ options, bool_decide (options = None)).

Definition sampleConfig : config :=
  Config defaultOptions enLocale sampleRules noInherited plainPlatform.

(** The same page under the option [delay: { change: 300 }] and no debounce. *)
Definition delayedConfig : config :=
  Config
    (Options "en" true ["blur"; "change"; "input"] true {[ "change" := 300 ]} ∅
       false true true true "is-valid" "is-invalid")
    enLocale sampleRules noInherited plainPlatform.

(** A search box validated while the user types, debounced by 300 ms
    through the attribute. *)
Definition typingPage : list element :=
  [ textInput "q" [("data-eager-debounce", "300"); ("data-eager-available", "1")] ].

Definition input (i : nat) : action := Dispatch (Event i "input" None).
Definition change (i : nat) : action := Dispatch (Event i "change" None).

End Samples.

(** ** Vocabulary for the properties of the loop *)

Module LoopSpec.

Import Text Dom Message Form Loop.

(** The part of the state that scheduling lives in, and the part that
    promises and requests live in. *)
Definition schedView (s : state) :=
  (clock s, timers s, nextTimer s, intervals s, closures s, nextClosure s, calls s).


(** The ids of the controls, which name the handles of the remote rule. *)
Definition fieldIds (s : state) : list string := id <$> fields s.

Definition netView (s : state) :=
  (fieldIds s, promises s, nextPromise s, handles s, network s, applied s).

(** *** Delayed invocations *)





(** The handler throws at its first statement: the event is a change,
    [disableSubmit] is set, [getFirstError] finds no control, and the
    instance has no submit button to enable. *)
Definition throwsOnChange (c : config) (ev : event) (s : state) : bool :=
  bool_decide (etype ev = "change") && Form.disableSubmit (opts c)
  && isValid (opts c) (formOf s) && negb (submitBtn s).

(** The state when [handleInput] is past the submit button. *)
Definition pastSubmit (c : config) (ev : event) (s : state) : state :=
  if bool_decide (etype ev = "change") && Form.disableSubmit (opts c)
     && isValid (opts c) (formOf s)
  then set_submitDisabled false s else s.

(** An event that [handleInput] is called with and does not return from
    at the Tab test: its type is one of [revalidate], its target is a
    descendant of the form, and it does not come from the Tab key under
    [noTriggerOnTab]. *)
Definition handled (c : config) (ev : event) (s : state) : Prop :=
  etype ev ∈ revalidate (opts c)
  /\ reaches ev s = true
  /\ noTriggerOnTab (opts c) && bool_decide (key ev = Some "Tab") = false.

(** *** Promises and requests *)

(** The call of the remote rule for the control returns: the text of the
    attribute can be decoded, and the platform accepts the method and the
    endpoint, then the headers. *)
Definition remoteReturns (c : config) (el : element) (attribute : string) : bool :=
  match decodeURIComponent (endpointTemplate el attribute) with
  | Some template =>
      opens (env c) (requestOptions el attribute) template (value el)
      && takesHeaders (env c) (requestOptions el attribute)
  | None => false
  end.

(** The promise [p] of the remote rule is neither resolved nor rejected. *)
Definition pendingRemote (p : nat) (s : state) : Prop :=
  exists pr, promises s !! p = Some pr /\ ofRule pr = RemoteRule /\ settled pr = false.

(** The [onload] handler of the handle [h] settles the promise [p]. *)
Definition listensFor (h : string) (p : nat) (s : state) : Prop :=
  exists x rv m, handles s !! h = Some x /\ onload x = Some (p, rv, m).

(** The callbacks of [validateField] ran for the promise [p]. *)
Definition appliedTo (p : nat) (s : state) : Prop := p ∈ (applied s).*1.

Record netOk (s : state) : Prop := NetOk {
  request_ok :
    forall r, r ∈ network s ->
      listensFor (via r) (answers r) s
      /\ (1 <= handleState (via r) s <= 3)%nat
      /\ pendingRemote (answers r) s
      /\ ~ appliedTo (answers r) s;
  one_handle : forall h h' p, listensFor h p s -> listensFor h' p s -> h = h';
  promise_bound : forall p, is_Some (promises s !! p) -> (p < nextPromise s)%nat;
  listener_bound : forall h p, listensFor h p s -> (p < nextPromise s)%nat;
  applied_bound : forall p, appliedTo p s -> (p < nextPromise s)%nat;
  one_request : forall h, (length (inFlight h s) <= 1)%nat
}.

(** Every exchange in flight goes through the handle named after the field
    whose pass sent it. *)
Definition requestsTied (s : state) : Prop :=
  forall r, r ∈ network s ->
    exists pr ident,
      promises s !! answers r = Some pr
      /\ fieldIds s !! onField pr = Some ident
      /\ via r = "__remote_request_" +:+ ident.

(** The invariant of the network together with the tie between requests
    and fields. *)
Definition tiedOk (s : state) : Prop := netOk s /\ requestsTied s.

(** The exchanges in flight that were sent for the field [i]. *)
Definition requestsOf (i : nat) (s : state) : list request :=
  filter (λ r, onField <$> promises s !! answers r = Some i) (network s).

(** The exchange on [h] is over (answered, failed or aborted): its request
    leaves the network and the handle changes state. *)
Definition finished (h : string) (rs : nat) (s : state) : state :=
  setReadyState h rs (set_network (filter (λ r, via r ≠ h) (network s)) s).

(** A promise of the remote rule that nothing can settle any more: no
    handle that would settle it has an exchange in flight. *)
Definition orphan (p : nat) (s : state) : Prop :=
  pendingRemote p s
  /\ (p < nextPromise s)%nat
  /\ ~ appliedTo p s
  /\ forall h, listensFor h p s -> inFlight h s = [].

(** A property of promises and requests that survives whatever a
    validation pass can do to them. *)
Definition stable (c : config) (P : state -> Prop) : Prop :=
  (forall s s', netView s' = netView s -> P s -> P s')
  /\ (forall i a r g s, P s -> P (newPromise i a r g s).1)
  /\ (forall i a g s, P s -> P (after (remoteRule c i a g s))).

(** *** Settlements *)

(** The promise was launched by a pass of its field that is no longer the
    latest one. *)
Definition stale (pr : promise) (s : state) : Prop :=
  (pass pr < default 0%nat (generation s !! onField pr))%nat.

(** The field once the callbacks of a settlement ran on it. *)
Definition afterSettlement (c : config) (el : element) (attribute : string) (o : outcome)
  : element :=
  match o with
  | Resolved => clearError c (setCustomValidity "" el)
  | Rejected err =>
      setError c "customError" (setCustomValidity (rejectionMessage el attribute err) el)
  end.

Definition renderOf (i : nat) (o : outcome) : render :=
  match o with
  | Resolved => ClearError i
  | Rejected _ => SetError i "customError"
  end.

End LoopSpec.

(** ** The static registries: locales, messages, rules *)

Module Registry.

Import Text Dom Message Form.

(** [EagerForm.messages] binds locale names to objects, and one object
    can be bound to several names: the objects live in a store of their
    own. *)
Record locales := Locales {
  bound : gmap string nat;          (* EagerForm.messages *)
  objects : gmap nat catalog;       (* the objects it refers to *)
  nextObject : nat
}.

(** An object literal or an imported module value comes into being. *)
Definition newObject (cat : catalog) (r : locales) : locales * nat :=
  let ref := nextObject r in
  (Locales (bound r) (<[ref := cat]> (objects r)) (S ref), ref).

(** [EagerForm.messages[name]] *)
Definition messagesOf (r : locales) (name : string) : option catalog :=
  match bound r !! name with
  | Some ref => objects r !! ref
  | None => None
  end.

(** [static addLocale(name, messages)] *)
Definition addLocale (name : string) (messages : nat) (r : locales) : locales :=
  Locales (<[name := messages]> (bound r)) (objects r) (nextObject r).

(** The table that [for ... in] reads off a text: the indices as keys,
    the characters as values. *)
Fixpoint indexTable (i : nat) (t : string) : list (string * string) :=
  match t with
  | EmptyString => []
  | String a rest => (pretty i, String a EmptyString) :: indexTable (S i) rest
  end.

(** [object[key] = message] for a message that is a text.  The entry
    [numbers] is the one [translateNumbers] enumerates. *)
Definition assign (key message : string) (cat : catalog) : catalog :=
  if bool_decide (key = "numbers")
  then Catalog (templates cat) (indexTable 0 message)
  else Catalog (<[key := message]> (templates cat)) (numbers cat).

(** [addMessage(key, message)] on an instance with the options [o]: the
    object bound to the instance's locale is written to.  Writing to a
    locale that is not bound is a [TypeError]. *)
Definition addMessage (o : options) (key message : string) (r : locales) : result locales :=
  match bound r !! locale o with
  | Some ref =>
      match objects r !! ref with
      | Some cat =>
          Return (Locales (bound r) (<[ref := assign key message cat]> (objects r))
                    (nextObject r))
      | None => Throw "TypeError"
      end
  | None => Throw "TypeError"
  end.

(** The spread [{ ...cat, ...messages }]. *)
Definition spread (cat : catalog) (messages : gmap string string) : catalog :=
  Catalog (delete "numbers" messages ∪ templates cat)
    (match messages !! "numbers" with
     | Some t => indexTable 0 t
     | None => numbers cat
     end).

(** [setMessages(messages)]: the locale is bound to a new object, the
    spread of the old one and of [messages]; spreading [undefined] gives
    no entry. *)
Definition setMessages (o : options) (messages : gmap string string) (r : locales) : locales :=
  let old := default (Catalog ∅ []) (messagesOf r (locale o)) in
  let '(r1, ref) := newObject (spread old messages) r in
  Locales (<[locale o := ref]> (bound r1)) (objects r1) (nextObject r1).

(** Every name is bound to an object of the store, and the store has no
    object beyond the next one to be made. *)
Definition wellFormed (r : locales) : Prop :=
  (forall name ref, bound r !! name = Some ref -> (ref < nextObject r)%nat)
  /\ (forall ref cat, objects r !! ref = Some cat -> (ref < nextObject r)%nat).

(** The registry once the module is loaded:
    [EagerForm.addLocale('en', enLocale)]. *)
Definition loaded : locales :=
  let '(r, ref) := newObject enLocale (Locales ∅ ∅ 0) in addLocale "en" ref r.

(** [EagerForm.reservedWords] *)
Definition reservedWords : list string := ["error"; "debounce"; "delay"].

(** What [rule] is given as [callback]: a function, here one of the two
    kinds of rule of the loop, or a value of another type. *)
Inductive callbackArg :=
| AFunction (f : Loop.rule)
| NotAFunction.

(** [static rule(name, callback)]: the registry of rules afterwards. *)
Definition rule (name : string) (callback : callbackArg) (rules : gmap string Loop.rule)
  : result (gmap string Loop.rule) :=
  if bool_decide (name ∈ reservedWords) then Throw (name +:+ " is a reserved word")
  else
    match callback with
    | NotAFunction => Throw "Callback must be a callable function"
    | AFunction f => Return (<[name := f]> rules)
    end.

(** A sequence of registrations, as a module makes them when it is
    loaded; the first error ends it. *)
Fixpoint register (calls : list (string * callbackArg)) (rules : gmap string Loop.rule)
  : result (gmap string Loop.rule) :=
  match calls with
  | [] => Return rules
  | (name, callback) :: rest =>
      match rule name callback rules with
      | Return rules' => register rest rules'
      | Throw msg => Throw msg
      end
  end.

End Registry.

(** ** Submission, reset and the end of an instance *)

Module Lifecycle.

Import Text Dom Message Form Loop.

(** [removeEventListener]: the listener registered with this type,
    callback and capture flag goes. *)
Definition removeEventListener (l : listener) (f : form) : form :=
  Form_ (controls f) (EagerForm f) (filter (λ x, x ≠ l) (listeners f)) (formAttributes f).

(** [detachEvents()].  Its last statement calls [addEventListener] for
    the reset handler. *)
Definition detachEvents (this : instance) (f : form) : form :=
  let o := instOptions this in
  let f1 :=
    fold_left
      (λ acc event,
         removeEventListener
           (Listener event (self this) InputHandler
              (bool_decide (event ∈ unBubbledEvents))) acc)
      (revalidate o) f in
  let f2 :=
    if captureSubmit o
    then removeEventListener (Listener "submit" (self this) SubmitHandler false) f1
    else f1 in
  if captureReset o
  then addEventListener (Listener "reset" (self this) ResetHandler false) f2
  else f2.

(** The options that only the handlers below read. *)
Record display := Display {
  autoScroll : bool;
  focusFirstError : bool;
  formValidatedClass : string
}.

Definition defaultDisplay : display := Display true true "was-validated".

(** What a handler does to the event it is given and to the window. *)
Inductive effect :=
| PreventDefault                  (* event.preventDefault() *)
| StopPropagation                 (* event.stopPropagation() *)
| ScrollTo (i : nat)              (* window.scrollTo, to the control i *)
| Focus (i : nat)                 (* element.focus() *)
| Done.                           (* the event eager:done on the form *)

(** The page around the loop: the form's listeners and properties and
    the instance's [isFocusing].  The controls of the form are the fields
    of the loop, which also holds [submitBtn]; [submitDisabled] there
    stands for the [disabled] attribute of the submit button and its
    class. *)
Record page := Page {
  engine : state;
  holder : option instance;         (* form.EagerForm *)
  registered : list listener;       (* the form's event listeners *)
  formAttrs : gmap string string;
  formClassList : list string;      (* this.form.classList *)
  isFocusing : bool;                (* this.isFocusing *)
  focusTimers : list nat;           (* when the timers of hightlightErrors are due *)
  effects : list effect
}.

Definition set_engine (v : state) (p : page) : page :=
  Page v (holder p) (registered p) (formAttrs p) (formClassList p)
    (isFocusing p) (focusTimers p) (effects p).

Definition set_formClassList (v : list string) (p : page) : page :=
  Page (engine p) (holder p) (registered p) (formAttrs p) v
    (isFocusing p) (focusTimers p) (effects p).

Definition set_isFocusing (v : bool) (p : page) : page :=
  Page (engine p) (holder p) (registered p) (formAttrs p) (formClassList p)
    v (focusTimers p) (effects p).

Definition set_focusTimers (v : list nat) (p : page) : page :=
  Page (engine p) (holder p) (registered p) (formAttrs p) (formClassList p)
    (isFocusing p) v (effects p).

Definition perform (e : list effect) (p : page) : page :=
  Page (engine p) (holder p) (registered p) (formAttrs p) (formClassList p)
    (isFocusing p) (focusTimers p) (effects p ++ e).

(** The form of a page, as the functions of [Form] take it. *)
Definition domOf (p : page) : form :=
  Form_ (fields (engine p)) (holder p) (registered p) (formAttrs p).

(** [this.submitBtn] is an element, not [null]. *)
Definition submitBtn (p : page) : bool := Loop.submitBtn (engine p).

(** A call of the loop, made from a handler of the page. *)
Definition onEngine (f : state -> completion state) (p : page) : completion page :=
  match f (engine p) with
  | Normal e => Normal (set_engine e p)
  | Abrupt err e => Abrupt err (set_engine e p)
  end.

(** [enableSubmit()] and [disableSubmit()] *)
Definition enableSubmit (p : page) : completion page := onEngine Loop.enableSubmit p.

Definition disableSubmit (p : page) : completion page := onEngine Loop.disableSubmit p.

(** [hightlightErrors(element)] *)
Definition hightlightErrors (d : display) (i : nat) (p : page) : page :=
  if isFocusing p then p
  else
    let p1 :=
      if autoScroll d
      then set_focusTimers (focusTimers p ++ [(clock (engine p) + 500)%nat])
             (perform [ScrollTo i] (set_isFocusing true p))
      else p in
    if focusFirstError d then perform [Focus i] p1 else p1.

(** [complete()] *)
Definition complete (p : page) : page := perform [Done] p.

(** [handleSubmit(event)] *)
Definition handleSubmit (c : config) (d : display) (p : page) : completion page :=
  onEngine (validate c) p >>= (λ p1,
    let p2 :=
      set_formClassList
        (if bool_decide (formValidatedClass d ∈ formClassList p1) then formClassList p1
         else formClassList p1 ++ [formValidatedClass d]) p1 in
    match getFirstError (opts c) (formOf (engine p2)) with
    | Some firstErrorElement =>
        let p3 := perform [PreventDefault; StopPropagation] p2 in
        (if Form.disableSubmit (opts c) then disableSubmit p3 else Normal p3)
          >>= (λ p4, Normal (complete (hightlightErrors d firstErrorElement p4)))
    | None => Normal (complete p2)
    end).

(** [clearValidation(element)], on the field itself. *)
Definition clearValidation (c : config) (el : element) : element :=
  setFeedback ""
    (classRemove (inputValidClass (opts c)) (classRemove (inputInvalidClass (opts c)) el)).

(** [restoreState()]: the walk is over [form.elements]. *)
Definition restoreState (c : config) (d : display) (p : page) : completion page :=
  let p1 := set_formClassList (filter (λ x, x ≠ formValidatedClass d) (formClassList p)) p in
  (if Form.disableSubmit (opts c) then enableSubmit p1 else Normal p1)
    >>= (λ p2,
          Normal (set_engine
                    (set_fields
                       ((λ el, if listed el then clearValidation c el else el)
                          <$> fields (engine p2))
                       (engine p2)) p2)).

(** [handleReset(event)] *)
Definition handleReset (c : config) (d : display) (p : page) : completion page :=
  restoreState c d p.

(** [destroy(restore)] on the instance [this]. *)
Definition destroy (c : config) (d : display) (this : instance) (restore : bool) (p : page)
  : completion page :=
  (if restore then restoreState c d p else Normal p)
    >>= (λ p1,
          let f := detachEvents this (domOf p1) in
          (* delete this.form.EagerForm *)
          Normal (Page (engine p1) None (listeners f) (formAttrs p1) (formClassList p1)
                    (isFocusing p1) (focusTimers p1) (effects p1))).

(** Time passes on the page: the timers of the loop run, and those of
    [hightlightErrors] that are due set [isFocusing] back. *)
Definition elapse (c : config) (ms : nat) (p : page) : page :=
  let e := Nat.iter ms (tick c) (engine p) in
  let due := filter (λ t, (t ≤ clock e)%nat) (focusTimers p) in
  Page e (holder p) (registered p) (formAttrs p) (formClassList p)
    (match due with [] => isFocusing p | _ => false end)
    (filter (λ t, (clock e < t)%nat) (focusTimers p)) (effects p).

(** The page of a form on which an instance was just constructed. *)
Definition pageOf (f : form) : page :=
  Page (initial (controls f)) (EagerForm f) (listeners f) (formAttributes f)
    [] false [] [].

End Lifecycle.

(** ** Vocabulary for the properties of texts, fields and passes *)

Module Views.

Import Text Dom Message Form Loop LoopSpec Lifecycle.

(** *** Texts *)

(** The character occurs in the text. *)
Fixpoint occurs (a : ascii) (s : string) : bool :=
  match s with
  | EmptyString => false
  | String b r => Ascii.eqb a b || occurs a r
  end.

(** Every character of the text satisfies [p]. *)
Fixpoint allChars (p : ascii -> bool) (s : string) : bool :=
  match s with
  | EmptyString => true
  | String a r => p a && allChars p r
  end.

(** The text with each character replaced by the text [f] gives for it. *)
Fixpoint mapChars (f : ascii -> string) (s : string) : string :=
  match s with
  | EmptyString => EmptyString
  | String a r => f a +:+ mapChars f r
  end.

(** The entry of a table of single characters for the character [a]: the
    value under the first key that is [a], the character itself when there
    is none. *)
Fixpoint substChar (table : list (string * string)) (a : ascii) : string :=
  match table with
  | [] => String a EmptyString
  | (k, v) :: rest => if bool_decide (k = String a EmptyString) then v else substChar rest a
  end.

(** The character is a key of the table. *)
Definition isKey (table : list (string * string)) (a : ascii) : bool :=
  bool_decide (String a EmptyString ∈ table.*1).

(** A table of localized digits: every key is one Latin digit, and no
    value holds a key of the table or a dollar sign (which [replace] reads
    as the start of a pattern). *)
Definition digitTable (table : list (string * string)) : bool :=
  forallb (λ kv, match kv.1 with
                 | String a EmptyString => isDigit a
                 | _ => false
                 end) table
  && forallb (λ kv, allChars (λ a, negb (isKey table a) && negb (Ascii.eqb a "$")) kv.2) table.

(** *** Listeners *)

(** The listener that [attachEvents] registers for an event of
    [revalidate]. *)
Definition inputListener (this : instance) (event : string) : listener :=
  Listener event (self this) InputHandler (bool_decide (event ∈ unBubbledEvents)).

(** *** Fields *)

(** What constraint validation and the selectors read of a control:
    everything but its class list and its feedback. *)
Definition validityView (el : element) :=
  (tagName el, id el, Dom.type el, attributes el, value el, constrained el,
   willValidate el, violated el, nativeMessage el, customValidity el,
   inside el, listed el).

(** The control is one that [validateField] returns from at once. *)
Definition passedOver (o : options) (el : element) : bool :=
  negb (constrained el)
  || bool_decide (Dom.type el ∈ ["button"; "submit"; "reset"])
  || suppressed el
  || (negb (validateWithoutName o) && unnamed el).

(** The rules of the registry whose attribute the control carries. *)
Definition rulesOn (c : config) (el : element) : list (string * rule) :=
  filter (λ r, hasAttribute el (ruleAttribute r.1) = true) (rules c).

(** The rule returns when it is launched for the control: a rule that
    only makes a promise always does, the remote rule when its attribute
    can be decoded and the platform accepts the request. *)
Definition returning (c : config) (el : element) (r : string * rule) : bool :=
  match r.2 with
  | CustomRule => true
  | RemoteRule => remoteReturns c el (ruleAttribute r.1)
  end.

(** The rules of the list up to the first one that throws. *)
Fixpoint launched (c : config) (el : element) (rs : list (string * rule))
  : list (string * rule) :=
  match rs with
  | [] => []
  | r :: rest => if returning c el r then r :: launched c el rest else []
  end.

(** The native violations that [validateField] renders for the control:
    none when it passes [checkValidity]. *)
Definition reported (el : element) : list string :=
  if checkValidity el then [] else violated el.

(** [validateField] throws on the control: it comes to launch a rule that
    throws. *)
Definition passThrows (c : config) (el : element) : bool :=
  negb (passedOver (opts c) el)
  && bool_decide (reported el = [])
  && negb (forallb (returning c el) (rulesOn c el)).

(** [validate] calls [validateField] for the element: a member of
    [form.elements] that is not a fieldset. *)
Definition visited (el : element) : bool :=
  listed el && bool_decide (tagName el ≠ "FIELDSET").

(** [validate] throws: [validateField] throws on an element it calls it
    for. *)
Definition validateThrows (c : config) (els : list element) : bool :=
  existsb (λ el, visited el && passThrows c el) els.

(** The elements that [validate] calls [validateField] for, by their
    index from [i] on: the walk ends behind the first one on which
    [validateField] throws. *)
Fixpoint walk (c : config) (i : nat) (els : list element) : list nat :=
  match els with
  | [] => []
  | el :: rest =>
      if visited el
      then (if passThrows c el then [i] else i :: walk c (S i) rest)
      else walk c (S i) rest
  end.

(** The field a render call is made for. *)
Definition renderedField (r : render) : nat :=
  match r with
  | SetError i _ => i
  | ClearError i => i
  end.

(** The control carries the attribute of a rule registered under the name
    [reference].  The bundled rule of that name does more than return a
    promise: it dispatches a change event on another control while the
    pass is running, so that a second pass can start inside the first. *)
Definition carriesReference (c : config) (el : element) : bool :=
  bool_decide ("reference" ∈ (rulesOn c el).*1).

(** *** Passes *)

(** Everything in the state but the scheduling (clock, timers, closures,
    the record of calls), the submit button and the exceptions that were
    reported. *)
Definition contentView (s : state) :=
  (fields s, promises s, nextPromise s, handles s, network s, console s, busy s,
   generation s, renders s, applied s).

(** A property of the state that scheduling cannot break and that every
    call of [validateField] keeps, whether it returns or throws. *)
Definition keptByPasses (c : config) (P : state -> Prop) : Prop :=
  (forall s s', contentView s' = contentView s -> P s -> P s')
  /\ (forall i s, P s -> P (after (validateField c i s))).

(** The state in which [validateField] starts the pass number [g] of the
    field [i]: the call is recorded and the pass counted. *)
Definition passStart (i g : nat) (s : state) : state :=
  set_generation (<[i := g]> (generation s)) (set_calls (calls s ++ [(clock s, i)]) s).

(** The engine has left the field [i] alone: its validity is that of
    [el0], no render call was made for it and no rule was launched for
    it. *)
Record untouched (i : nat) (el0 : element) (s : state) : Prop := Untouched {
  same_validity : validityView <$> fields s !! i = Some (validityView el0);
  no_render : forall r, r ∈ renders s -> renderedField r <> i;
  no_promise : forall p pr, promises s !! p = Some pr -> onField pr <> i
}.

(** The validation calls that a trace makes, in order. *)
Definition callsAfter (s s' : state) : list (nat * nat) := drop (length (calls s)) (calls s').

(** *** Handlers *)

(** What a handler did to its event and to the window, in order. *)
Definition effectsSince (p : page) (m : completion page) : list effect :=
  drop (length (effects p)) (effects (after m)).

(** What [restoreState] makes of an element: the walk is over the members
    of [form.elements]. *)
Definition restored (c : config) (el : element) : element :=
  if listed el then clearValidation c el else el.

(** The display of a control shows no outcome of a validation. *)
Definition displayCleared (c : config) (el : element) : Prop :=
  (inputInvalidClass (opts c) ∉ classList el)
  /\ (inputValidClass (opts c) ∉ classList el)
  /\ feedback el = "".

End Views.

(** * Properties *)

(** ** [unicodeStrLen] *)

Module UnicodeFacts.

Import Unicode.

Ltac classes :=
  unfold isPlain, isHigh, isLow, between, validUnit in *;
  repeat match goal with
    | |- context [(?a <=? ?b)%Z] => destruct (Z.leb_spec a b)
    | H : context [(?a <=? ?b)%Z] |- _ => destruct (Z.leb_spec a b)
    end;
  simpl in *; try congruence; try lia.

Lemma unit_class c :
  validUnit c -> isPlain c = true \/ isHigh c = true \/ isLow c = true.
Proof. intros Hc. classes; auto. Qed.

Lemma plain_not_high c : isPlain c = true -> isHigh c = false.
Proof. intros H. classes. Qed.

Lemma high_not_plain c : isHigh c = true -> isPlain c = false.
Proof. intros H. classes. Qed.

(** On a non-empty string of code units the first attempt succeeds, so
    [match] has something to return. *)
Lemma matches_nonempty c rest :
  validUnit c -> matches (c :: rest) <> [].
Proof.
  intros Hc. unfold matches. simpl length. cbn [matchAll].
  destruct (unit_class c Hc) as [Hp | [Hh | Hl]].
  - unfold execAt, alt_plain. rewrite Hp. discriminate.
  - unfold execAt, alt_plain. rewrite (high_not_plain _ Hh).
    unfold alt_pair, alt_lone_high. rewrite Hh.
    destruct rest as [| d rest']; simpl; [discriminate |].
    destruct (isLow d); simpl; discriminate.
  - assert (isPlain c = false) as Hp by classes.
    assert (isHigh c = false) as Hh by classes.
    unfold execAt, alt_plain, alt_pair, alt_lone_high, alt_lone_low.
    rewrite Hp, Hh, Hl. simpl.
    destruct rest as [| d rest']; simpl; [discriminate |].
    destruct (isLow d); discriminate.
Qed.

(** When no low surrogate stands alone, the matches are the code points. *)
Lemma matchAll_codePoints fuel :
  forall s atStart,
    (length s <= fuel)%nat -> Forall validUnit s -> noLoneLow s = true ->
    length (matchAll fuel atStart s) = codePointCount s.
Proof.
  induction fuel as [| fuel IH]; intros s atStart Hlen Hvalid Hwf.
  - destruct s; simpl in *; [reflexivity | lia].
  - destruct s as [| c rest]; [reflexivity |].
    apply Forall_cons in Hvalid as [Hc Hrest].
    cbn [noLoneLow] in Hwf.
    destruct (isLow c) eqn:Hl; [discriminate |].
    cbn [matchAll].
    destruct (unit_class c Hc) as [Hp | [Hh | Hl']]; [| | congruence].
    + (* a plain unit *)
      unfold execAt, alt_plain. rewrite Hp.
      rewrite (plain_not_high _ Hp) in Hwf. simpl in Hwf.
      change (take 1 (c :: rest)) with [c]. change (drop 1 (c :: rest)) with rest.
      cbn [length codePointCount].
      rewrite (plain_not_high _ Hp). simpl.
      assert (noLoneLow rest = true) as Hwf' by (destruct rest; auto).
      rewrite (IH rest false); [destruct rest; reflexivity | simpl in Hlen; lia | auto | auto].
    + (* a high surrogate *)
      unfold execAt, alt_plain. rewrite (high_not_plain _ Hh).
      unfold alt_pair, alt_lone_high. rewrite Hh in *. simpl in Hwf |- *.
      destruct rest as [| d rest'].
      * simpl. destruct fuel; reflexivity.
      * apply Forall_cons in Hrest as [Hd Hrest'].
        destruct (isLow d) eqn:Hd'; simpl; rewrite ?Hh; simpl; f_equal.
        -- apply IH; [simpl in Hlen; lia | auto | auto].
        -- apply (IH (d :: rest') false); [simpl in *; lia | auto | auto].
Qed.

Lemma unicodeStrLen_codePoints (str : DOMString) :
  Forall validUnit str -> noLoneLow str = true ->
  unicodeStrLen str = codePointCount str.
Proof.
  intros Hvalid Hwf. destruct str as [| c rest]; [reflexivity |].
  unfold unicodeStrLen, matches. now apply matchAll_codePoints.
Qed.

(** One character outside the basic plane, a surrogate pair, counts once. *)
Lemma unicodeStrLen_pair h l :
  isHigh h = true -> isLow l = true ->
  unicodeStrLen [h; l] = 1%nat /\ codeUnitLength [h; l] = 2%nat.
Proof.
  intros Hh Hl. split; [| reflexivity].
  unfold unicodeStrLen, matches. cbn [length matchAll].
  unfold execAt, alt_plain, alt_pair. rewrite (high_not_plain _ Hh), Hh, Hl.
  reflexivity.
Qed.

(** C9. The claim: for every string value [unicodeStrLen] returns the
    number of code points.  On the two-unit value made of the letter a and
    a low surrogate with no high surrogate before it, the code returns 1:
    the letter is matched on its own, and the surrogate, which is neither
    at the beginning of the input nor followed by another low surrogate,
    is matched by no alternative.  The value has two code points (and two
    code units). *)
Theorem unicodeStrLen_lone_low :
  unicodeStrLen [0x61; 0xDC00] = 1%nat
  /\ codePointCount [0x61; 0xDC00] = 2%nat
  /\ matches [0x61; 0xDC00] = [[0x61]]
  /\ Forall validUnit [0x61; 0xDC00].
Proof.
  split; [vm_compute; reflexivity |].
  split; [vm_compute; reflexivity |].
  split; [vm_compute; reflexivity |].
  repeat constructor; unfold validUnit; lia.
Qed.

End UnicodeFacts.

(** ** [getMessage] *)

Module MessageFacts.

Import Text Dom Message Claimed Samples.

(** Whatever the field and the catalog, the replacement map never holds
    the field's [min] or [max]: the entries are missing, [undefined], or
    the text of the invalid date. *)
Lemma templateData_range_keys cat el k :
  k = "min" \/ k = "max" ->
  templateData cat el !! k = None
  \/ templateData cat el !! k = Some JUndefined
  \/ templateData cat el !! k = Some (JString "Invalid Date").
Proof.
  intros Hk. unfold templateData.
  repeat case_bool_decide; destruct Hk as [-> | ->]; simplify_map_eq; auto.
Qed.

(** The 1.0.2 sources read both from the field. *)
Lemma legacy_templateData_max n d el :
  toLowerCase (Dom.type el) = "number" ->
  Legacy.templateData n d el !! "max"
  = Some (JString (n (ofAttribute (getAttribute el "max")))).
Proof.
  intros Hty. unfold Legacy.templateData. rewrite Hty.
  rewrite bool_decide_eq_true_2 by auto. now simplify_map_eq.
Qed.

(** C7. The claim: the placeholders are substituted from a map that holds
    the field's [min] and [max].  For a number input with [max="10"] that
    overflows, the English template "... no more than {max}." is rendered
    with the text "undefined": [getMessage] builds the map without [min]
    and [max] and then passes the missing properties to
    [translateNumbers].  The map of the 1.0.2 sources holds the formatted
    attribute. *)
Theorem getMessage_max_undefined :
  getMessage noInherited enLocale ageInput "rangeOverflow"
  = "Please enter a value that is no more than undefined."
  /\ getAttribute ageInput "max" = Some "10"
  /\ templateData enLocale ageInput !! "max" = Some JUndefined
  /\ (forall n d, Legacy.templateData n d ageInput !! "max"
                  = Some (JString (n (JString "10")))).
Proof.
  split; [vm_compute; reflexivity |].
  split; [vm_compute; reflexivity |].
  split; [vm_compute; reflexivity |].
  intros n d. now rewrite legacy_templateData_max.
Qed.

(** C8, the claim as stated fails: for the kind [tooLong] on a text input,
    with a catalog that has both [tooLongText] and [tooLong], the order of
    the claim selects the type-specific entry; the code never looks it up
    for this kind and shows the generic one. *)
Lemma getMessage_skips_specific_key :
  claimedTemplate twoEntries noteInput "tooLong" = Some "specific"
  /\ selectTemplate twoEntries noteInput "tooLong" = Some "generic"
  /\ getMessage noInherited twoEntries noteInput "tooLong" = "generic".
Proof. split; [| split]; vm_compute; reflexivity. Qed.

(** C8, amended.  For [customError] the text is the platform's validation
    message.  For every other kind the first of these that applies gives
    the template: the inline attribute for the kind when present and not
    empty; the inline global attribute when the former is absent and the
    latter not empty; the catalog entry for kind and capitalized type, for
    the kinds [valueMissing], [typeMismatch], [rangeOverflow],
    [rangeUnderflow] and [badInput] only; the catalog entry for the kind;
    and when none applies the platform's validation message is shown. *)
Theorem getMessage_precedence
    (inherited : string -> option string) (cat : catalog) (el : element)
    (validityType : string) :
  let data := templateData cat el in
  let inline := getAttribute el (inlineAttribute validityType) in
  let global := getAttribute el inlineGlobalAttribute in
  (validityType = "customError" ->
     getMessage inherited cat el validityType = validationMessage el)
  /\ (validityType <> "customError" ->
      (forall v, inline = Some v -> v <> "" ->
         getMessage inherited cat el validityType = strtpl inherited v data)
      /\ (forall v, inline = None -> global = Some v -> v <> "" ->
         getMessage inherited cat el validityType = strtpl inherited v data)
      /\ (forall t, noInlineText el validityType ->
         typedEntry cat el validityType = Some t ->
         getMessage inherited cat el validityType = strtpl inherited t data)
      /\ (forall t, noInlineText el validityType ->
         typedEntry cat el validityType = None ->
         translate cat validityType = Some t ->
         getMessage inherited cat el validityType = strtpl inherited t data)
      /\ (noInlineText el validityType ->
         typedEntry cat el validityType = None ->
         translate cat validityType = None ->
         getMessage inherited cat el validityType = validationMessage el)).
Proof.
  intros data inline global. split.
  - intros ->. reflexivity.
  - intros Hkind. unfold getMessage. rewrite bool_decide_eq_false_2 by exact Hkind.
    unfold selectTemplate, noInlineText, typedEntry. fold inline. fold global.
    repeat split.
    + intros v -> Hv. destruct v; [congruence | reflexivity].
    + intros v -> -> Hv. destruct v; [congruence | reflexivity].
    + intros t [-> | [-> [-> | ->]]] Hs;
        case_bool_decide; try discriminate; now rewrite Hs.
    + intros t [-> | [-> [-> | ->]]] Hs Ht;
        case_bool_decide; rewrite ?Hs, Ht; reflexivity.
    + intros [-> | [-> [-> | ->]]] Hs Ht;
        case_bool_decide; rewrite ?Hs, Ht; reflexivity.
Qed.

End MessageFacts.

(** ** The constructor and [getFirstError] *)

Module FormFacts.

Import Text Dom Message Form Samples.

(** A control that [querySelector] passes over does not count either. *)
Lemma eligible_selected o el : eligible o el = true -> selected el = true.
Proof.
  unfold eligible. intros H.
  apply andb_true_iff in H as [H _]. now apply andb_true_iff in H as [H _].
Qed.

Lemma querySelector_eligible o l :
  forall k i el,
    querySelector (λ x, inside x && selected x) k l = Some (i, el) ->
    eligible o el = true ->
    querySelector (λ x, inside x && eligible o x) k l = Some (i, el).
Proof.
  induction l as [| x l IH]; intros k i el Hq He; [discriminate |].
  simpl in *. destruct (inside x); simpl in *; [| now apply IH].
  destruct (selected x) eqn:Hx.
  - injection Hq as <- <-. now rewrite He.
  - destruct (eligible o x) eqn:Hex.
    + apply eligible_selected in Hex. congruence.
    + now apply IH.
Qed.

Lemma querySelector_satisfies p l :
  forall k i el, querySelector p k l = Some (i, el) -> p el = true.
Proof.
  induction l as [| x l IH]; intros k i el Hq; [discriminate |].
  simpl in Hq. destruct (p x) eqn:Hx; [congruence | eauto].
Qed.

(** What [getFirstError] returns is the first control that counts. *)
Lemma getFirstError_sound o f i :
  getFirstError o f = Some i -> firstEligibleError o f = Some i.
Proof.
  unfold getFirstError, firstEligibleError, formQuerySelector.
  destruct (querySelector _ 0 (controls f)) as [[j el] |] eqn:Hq; [| discriminate].
  destruct (suppressed el) eqn:Hs; [discriminate |].
  destruct (negb (validateWithoutName o) && unnamed el) eqn:Hn; [discriminate |].
  intros [= ->].
  rewrite (querySelector_eligible o _ _ _ _ Hq); [reflexivity |].
  unfold eligible. rewrite Hs. simpl.
  apply querySelector_satisfies in Hq. apply andb_true_iff in Hq as [_ ->].
  simpl. destruct (validateWithoutName o), (unnamed el); simpl in *; congruence.
Qed.

(** C5. The claim: [getFirstError] returns the first failing field that is
    neither suppressed nor unnamed.  On a form whose first failing field
    carries the suppress marker and whose second failing field is an
    ordinary named field, the code looks at the first match of the
    selector only and returns [null]; the field the claim describes is the
    second one.  [isValid] then reports a valid form. *)
Theorem getFirstError_behind_suppressed :
  getFirstError defaultOptions suppressedFirst = None
  /\ firstEligibleError defaultOptions suppressedFirst = Some 1%nat
  /\ isValid defaultOptions suppressedFirst = true.
Proof. split; [| split]; vm_compute; reflexivity. Qed.

(** The first construction on a form starts the instance. *)
Lemma constructor_first :
  EagerForm heldForm = Some (Inst 0 defaultOptions)
  /\ listeners heldForm
     = [ Listener "blur" 0 InputHandler true;
         Listener "change" 0 InputHandler false;
         Listener "input" 0 InputHandler false;
         Listener "submit" 0 SubmitHandler false;
         Listener "reset" 0 ResetHandler false ]
  /\ formAttributes heldForm !! "novalidate" = Some "true".
Proof. split; [| split]; vm_compute; reflexivity. Qed.

(** C10, the claim as stated fails: on a form that holds an instance, the
    constructor called with a locale that is not loaded throws instead of
    returning the instance. *)
Lemma constructor_unloaded_locale :
  EagerForm heldForm = Some (Inst 0 defaultOptions)
  /\ constructor defaultMessages 1 heldForm frenchOptions
     = Throw "The locale fr is not loaded."
  /\ constructor defaultMessages 1 heldForm frenchOptions
     <> Return (Inst 0 defaultOptions, heldForm).
Proof.
  split; [vm_compute; reflexivity |].
  split; [vm_compute; reflexivity |].
  vm_compute. discriminate.
Qed.

(** C10, amended.  On a form that already holds an instance, the
    constructor called with options whose locale is loaded returns that
    instance and leaves the form as it is: [start] is not called, no
    listener is added, no attribute is set.  With a locale that is not
    loaded it throws, before the check for an instance. *)
Theorem constructor_existing_instance
    (messages : gmap string catalog) (fresh : nat) (f : form) (opts : options)
    (existing : instance) :
  EagerForm f = Some existing ->
  (is_Some (messages !! locale opts) ->
     constructor messages fresh f opts = Return (existing, f))
  /\ (messages !! locale opts = None ->
     constructor messages fresh f opts
     = Throw ("The locale " +:+ locale opts +:+ " is not loaded.")).
Proof.
  intros Hf. unfold constructor. split.
  - intros [m ->]. now rewrite Hf.
  - intros ->. reflexivity.
Qed.

Lemma constructor_existing_instance_witness :
  EagerForm heldForm = Some (Inst 0 defaultOptions)
  /\ constructor defaultMessages 7 heldForm defaultOptions
     = Return (Inst 0 defaultOptions, heldForm).
Proof.
  assert (EagerForm heldForm = Some (Inst 0 defaultOptions)) as H
    by (vm_compute; reflexivity).
  split; [exact H |].
  apply (constructor_existing_instance defaultMessages 7 heldForm defaultOptions _ H).
  vm_compute. eauto.
Defined.

End FormFacts.

(** ** The event loop *)

Module LoopFacts.

Import Text Dom Message Form Loop LoopSpec Samples.

(** *** What each operation leaves alone *)

(** The part of the state that timers live in, and the part that promises
    and requests live in. *)
Lemma fold_left_keeps {A B : Type} (view : state -> B) (f : state -> A -> state) l :
  (forall s x, view (f s x) = view s) ->
  forall s, view (fold_left f l s) = view s.
Proof.
  intros Hf. induction l as [| x l IH]; intros s; simpl; [reflexivity |].
  now rewrite IH, Hf.
Qed.


Lemma filter_filter_in {A : Type} (P Q : A -> Prop)
    `{forall x, Decision (P x)} `{forall x, Decision (Q x)} (l : list A) :
  (forall x, x ∈ l -> P x -> Q x) -> filter P (filter Q l) = filter P l.
Proof.
  induction l as [| x l IH]; intros Hl; [reflexivity |].
  rewrite !filter_cons.
  assert (filter P (filter Q l) = filter P l) as IH'.
  { apply IH. intros y Hy. apply Hl. now right. }
  destruct (decide (Q x)) as [Hq | Hq].
  - rewrite filter_cons. now rewrite IH'.
  - destruct (decide (P x)) as [Hp | Hp]; [| exact IH'].
    exfalso. apply Hq, Hl; [left | exact Hp].
Qed.

Lemma filter_all {A : Type} (P : A -> Prop) `{forall x, Decision (P x)} (l : list A) :
  (forall x, x ∈ l -> P x) -> filter P l = l.
Proof.
  induction l as [| x l IH]; intros Hl; [reflexivity |].
  rewrite filter_cons, decide_True by (apply Hl; left).
  f_equal. apply IH. intros y Hy. apply Hl. now right.
Qed.

Lemma filter_all_not {A : Type} (P : A -> Prop) `{forall x, Decision (P x)} (l : list A) :
  (forall x, x ∈ l -> ~ P x) -> filter P l = [].
Proof.
  induction l as [| x l IH]; intros Hl; [reflexivity |].
  rewrite filter_cons, decide_False by (apply Hl; left).
  apply IH. intros y Hy. apply Hl. now right.
Qed.

Lemma filter_length_le {A : Type} (P Q : A -> Prop)
    `{forall x, Decision (P x)} `{forall x, Decision (Q x)} (l : list A) :
  (forall x, x ∈ l -> P x -> Q x) ->
  (length (filter P l) <= length (filter Q l))%nat.
Proof.
  induction l as [| x l IH]; intros Hl; [simpl; lia |].
  assert (length (filter P l) <= length (filter Q l))%nat as IH'.
  { apply IH. intros y Hy. apply Hl. now right. }
  rewrite !filter_cons.
  destruct (decide (P x)) as [Hp | Hp].
  - rewrite decide_True by (apply Hl; [left | exact Hp]). simpl. lia.
  - destruct (decide (Q x)); simpl; lia.
Qed.

(** Case analysis on the tests of a definition, innermost first. *)
Ltac split_match :=
  match goal with
  | |- context [match ?x with _ => _ end] =>
      lazymatch x with
      | context [match _ with _ => _ end] => fail
      | _ => destruct x eqn:?
      end
  end.

(** A loop keeps what each turn keeps, whether it ends or throws. *)
Lemma forEach_after {A X : Type} (P : A -> Prop) (body : A -> X -> completion A) l :
  (forall a x, P a -> P (after (body a x))) ->
  forall a, P a -> P (after (forEach body l a)).
Proof.
  intros Hb. induction l as [| x l IH]; intros a Ha; simpl; [exact Ha |].
  specialize (Hb a x Ha). destruct (body a x) as [a' | e a']; simpl in *; auto.
Qed.

Lemma forEach_keeps {A X B : Type} (view : A -> B) (body : A -> X -> completion A) l :
  (forall a x, view (after (body a x)) = view a) ->
  forall a, view (after (forEach body l a)) = view a.
Proof.
  intros Hb a. apply (forEach_after (λ a', view a' = view a)); [| reflexivity].
  intros a' x Ha'. now rewrite Hb.
Qed.

(** A loop none of whose turns throws is a fold. *)
Lemma forEach_normal {A X : Type} (body : A -> X -> completion A) (f : A -> X -> A) l :
  forall a,
    (forall a' x, x ∈ l -> body a' x = Normal (f a' x)) ->
    forEach body l a = Normal (fold_left f l a).
Proof.
  induction l as [| x l IH]; intros a Hb; simpl; [reflexivity |].
  rewrite Hb by left. apply IH. intros a' y Hy. apply Hb. now right.
Qed.

Lemma report_view {B : Type} (view : state -> B) m :
  (forall e s, view (set_uncaught e s) = view s) ->
  view (report m) = view (after m).
Proof. intros Hv. destruct m; simpl; [reflexivity | apply Hv]. Qed.

Section Frames.

Variable c : config.

Lemma doSetError_sched i k s : schedView (doSetError c i k s) = schedView s.
Proof. reflexivity. Qed.

Lemma doClearError_sched i s : schedView (doClearError c i s) = schedView s.
Proof. reflexivity. Qed.


Lemma remoteRule_sched i a g s : schedView (after (remoteRule c i a g s)) = schedView s.
Proof.
  unfold remoteRule, newPromise. cbn beta iota zeta. repeat split_match; reflexivity.
Qed.

Lemma launch_sched i g s r : schedView (after (launch c i g s r)) = schedView s.
Proof.
  unfold launch. repeat split_match; try reflexivity. apply remoteRule_sched.
Qed.


Lemma report_sched m : schedView (report m) = schedView (after m).
Proof. now apply report_view. Qed.

(** [validateField] schedules nothing; the call is recorded. *)
Lemma validateField_sched i s :
  schedView (after (validateField c i s))
  = (clock s, timers s, nextTimer s, intervals s, closures s, nextClosure s,
     calls s ++ [(clock s, i)]).
Proof.
  unfold validateField.
  repeat split_match; cbn [after];
    repeat first
      [ rewrite (forEach_keeps schedView) by (intros; apply launch_sched)
      | rewrite doClearError_sched
      | rewrite (fold_left_keeps schedView) by (intros; apply doSetError_sched) ];
    reflexivity.
Qed.

End Frames.

End LoopFacts.

(** *** Timers and delayed invocations *)

Module TimerFacts.

Import Text Dom Message Form Loop LoopSpec Samples LoopFacts.










Section Preservation.

Variable c : config.









(** The first statements of [handleInput]: the one way not to get past
    them is the missing submit button. *)
Lemma enableOnChange_cases ev s :
  enableOnChange c ev s
  = if throwsOnChange c ev s then Abrupt "TypeError" s else Normal (pastSubmit c ev s).
Proof.
  unfold enableOnChange, throwsOnChange, pastSubmit, enableSubmit.
  destruct (bool_decide (etype ev = "change") && Form.disableSubmit (opts c));
    [| reflexivity].
  destruct (isValid _ _); [| reflexivity]. now destruct (submitBtn s).
Qed.

Lemma pastSubmit_cases ev s :
  pastSubmit c ev s = s \/ pastSubmit c ev s = set_submitDisabled false s.
Proof. unfold pastSubmit. destruct (_ && _ && _); auto. Qed.

Lemma pastSubmit_view ev s :
  schedView (pastSubmit c ev s) = schedView s
  /\ fields (pastSubmit c ev s) = fields s
  /\ netView (pastSubmit c ev s) = netView s.
Proof. unfold pastSubmit. now destruct (_ && _). Qed.


(** The handler that throws at the submit button has done nothing. *)
Lemma handleInput_throws ev s el :
  fields s !! target ev = Some el ->
  (noTriggerOnTab (opts c) && bool_decide (key ev = Some "Tab")) = false ->
  throwsOnChange c ev s = true ->
  handleInput c ev s = Abrupt "TypeError" s.
Proof.
  intros Hel Htab Hthrow. unfold handleInput.
  now rewrite Hel, Htab, enableOnChange_cases, Hthrow.
Qed.








End Preservation.

(** **** A delayed invocation from trigger to call *)

Section Delayed.

Variable c : config.

(** An event that is handled is given to [handleInput]; an exception
    that leaves the handler is reported. *)
Lemma step_dispatch ev s :
  handled c ev s -> step c s (Dispatch ev) = report (handleInput c ev s).
Proof.
  intros (Hty & Hin & _). simpl. now rewrite bool_decide_eq_true_2, Hin by exact Hty.
Qed.

(** Whether the handler throws at the submit button depends on the type
    of the event, the fields and the button only. *)
Lemma throwsOnChange_ext ev ev' s s' :
  etype ev' = etype ev -> fields s' = fields s -> submitBtn s' = submitBtn s ->
  throwsOnChange c ev' s' = throwsOnChange c ev s.
Proof. unfold throwsOnChange, formOf. now intros -> -> ->. Qed.



(** With no timer due, a millisecond passes and nothing else happens. *)
Lemma tick_idle s :
  (forall t, t ∈ timers s -> (S (clock s) < due t)%nat) ->
  tick c s = set_clock (S (clock s)) s.
Proof.
  intros Hdue. unfold tick. rewrite filter_all_not; [reflexivity |].
  intros t Ht. simpl in *. specialize (Hdue t Ht). lia.
Qed.

Lemma wait_idle k s :
  (forall t, t ∈ timers s -> (clock s + k < due t)%nat) ->
  Nat.iter k (tick c) s = set_clock (clock s + k) s.
Proof.
  induction k as [| k IH]; intros Hdue; simpl.
  - rewrite Nat.add_0_r. now destruct s.
  - rewrite IH by (intros t Ht; specialize (Hdue t Ht); lia).
    rewrite tick_idle by (intros t Ht; specialize (Hdue t Ht); simpl in *; lia).
    simpl. unfold set_clock. simpl. f_equal. lia.
Qed.



(** **** A debounced invocation from trigger to call *)

(** What a trigger with a positive debounce and no delay leaves behind: a
    closure of its own, called once, and that closure's timer. *)
Lemma dispatch_debounced ev s el b :
  fields s !! target ev = Some el ->
  handled c ev s ->
  throwsOnChange c ev s = false ->
  positive (bounceOf c el (etype ev)) = Some b ->
  positive (delayOf c el (etype ev)) = None ->
  let s' := step c s (Dispatch ev) in
  clock s' = clock s
  /\ calls s' = calls s
  /\ fields s' = fields s
  /\ submitBtn s' = submitBtn s
  /\ nextTimer s' = S (nextTimer s)
  /\ nextClosure s' = S (nextClosure s)
  /\ timers s'
     = timers s
       ++ [Timer (nextTimer s) (clock s + timeoutOf b) (TimerExpired (nextClosure s))]
  /\ closures s'
     = <[nextClosure s := Closure b (Some (clock s, target ev)) (Some (nextTimer s))]>
         (closures s).
Proof.
  intros Hel Hh Hthrow Hb Hd. cbn zeta. rewrite (step_dispatch ev s Hh).
  unfold handleInput.
  rewrite Hel, (proj2 (proj2 Hh)), enableOnChange_cases, Hthrow. cbn [andThen].
  rewrite Hb, Hd. unfold pastSubmit.
  destruct (bool_decide (etype ev = "change") && Form.disableSubmit (opts c)
            && isValid (opts c) (formOf s)); simpl;
    unfold callDebounced; simpl; rewrite lookup_insert_eq; simpl;
    rewrite insert_insert_eq; repeat split; reflexivity.
Qed.

(** The first timer belongs to a closure whose wait is over, and no other
    timer is due: the closure invokes [validateField] with the argument of
    its last call. *)
Lemma tick_expired s n d w t0 arg tid rest :
  timers s = Timer n (S (clock s)) (TimerExpired d) :: rest ->
  (forall t, t ∈ rest -> (S (clock s) < due t)%nat /\ timerId t <> n) ->
  closures s !! d = Some (Closure w (Some (t0, arg)) tid) ->
  (w <= S (clock s) - t0)%nat ->
  clock (tick c s) = S (clock s)
  /\ timers (tick c s) = rest
  /\ calls (tick c s) = calls s ++ [(S (clock s), arg)]
  /\ closures (tick c s) = <[d := Closure w None None]> (closures s).
Proof.
  intros Ht Hrest Hd Hw. unfold tick. simpl. rewrite Ht.
  rewrite filter_cons, decide_True by (simpl; lia).
  rewrite filter_all_not by (intros t Hin; destruct (Hrest t Hin); simpl; lia).
  simpl. unfold fire. simpl. rewrite Ht. simpl.
  rewrite bool_decide_eq_true_2 by (simpl; left).
  rewrite filter_cons, decide_False by (simpl; congruence).
  rewrite filter_all by (intros t Hin; destruct (Hrest t Hin); auto).
  unfold timerExpired. simpl. rewrite Hd. simpl.
  rewrite bool_decide_eq_true_2 by exact Hw.
  match goal with
  | |- context [validateField c arg ?st] =>
      pose proof (validateField_sched c arg st) as Hv
  end.
  rewrite <- report_sched in Hv.
  unfold schedView in Hv. simpl in Hv. injection Hv as -> -> _ _ -> _ ->. auto.
Qed.

(** Two triggers on fields debounced by [b], the second within the window
    of the first, on a page with no timer pending: two calls of
    [validateField] result, each one window after its own trigger. *)
Lemma two_debounced_triggers ev1 ev2 el1 el2 b gap n s :
  timers s = [] ->
  fields s !! target ev1 = Some el1 ->
  fields s !! target ev2 = Some el2 ->
  handled c ev1 s ->
  handled c ev2 s ->
  throwsOnChange c ev1 s = false ->
  throwsOnChange c ev2 s = false ->
  positive (bounceOf c el1 (etype ev1)) = Some b ->
  positive (bounceOf c el2 (etype ev2)) = Some b ->
  positive (delayOf c el1 (etype ev1)) = None ->
  positive (delayOf c el2 (etype ev2)) = None ->
  timeoutOf b = b ->
  (0 < gap < b)%nat -> (b <= n)%nat ->
  calls (run c s [Dispatch ev1; Wait gap; Dispatch ev2; Wait n])
  = calls s ++ [((clock s + b)%nat, target ev1); ((clock s + gap + b)%nat, target ev2)].
Proof.
  intros Ht Hel1 Hel2 Hh1 Hh2 Hthrow1 Hthrow2 Hb1 Hb2 Hd1 Hd2 Hto Hgap Hn.
  unfold run. cbn [fold_left].
  (* the first trigger *)
  destruct (dispatch_debounced ev1 s el1 b Hel1 Hh1 Hthrow1 Hb1 Hd1)
    as (Hc1 & Hk1 & Hf1 & Hbtn1 & Hn1 & Hd1' & Ht1 & Hcl1).
  set (s1 := step c s (Dispatch ev1)) in *.
  rewrite Ht, Hto in Ht1. simpl in Ht1.
  (* the gap *)
  assert (step c s1 (Wait gap) = set_clock (clock s1 + gap) s1) as Hs2.
  { simpl. apply wait_idle. intros t. rewrite Ht1.
    intros ->%list_elem_of_singleton. simpl. lia. }
  rewrite Hs2. set (s2 := set_clock (clock s1 + gap) s1).
  (* the second trigger *)
  assert (fields s2 !! target ev2 = Some el2) as Hel2' by (simpl; now rewrite Hf1).
  assert (handled c ev2 s2) as Hh2'.
  { destruct Hh2 as (H1 & H2 & H3). repeat split; auto.
    unfold reaches in *. simpl. now rewrite Hf1. }
  assert (throwsOnChange c ev2 s2 = false) as Hthrow2'.
  { rewrite <- Hthrow2. apply throwsOnChange_ext; [reflexivity | exact Hf1 | exact Hbtn1]. }
  destruct (dispatch_debounced ev2 s2 el2 b Hel2' Hh2' Hthrow2' Hb2 Hd2)
    as (Hc3 & Hk3 & Hf3 & _ & Hn3 & Hd3 & Ht3 & Hcl3).
  set (s3 := step c s2 (Dispatch ev2)) in *.
  simpl in Hc3, Hk3, Ht3, Hcl3.
  rewrite Ht1, Hn1, Hd1', Hc1, Hto in Ht3. rewrite Hcl1, Hd1', Hn1, Hc1 in Hcl3.
  rewrite Hc1 in Hc3. rewrite Hk1 in Hk3. simpl in Ht3.
  (* the wait *)
  simpl.
  replace n with ((n - b) + (1 + ((gap - 1) + (1 + (b - gap - 1)))))%nat by lia.
  rewrite !Nat.iter_add.
  (* idle until the first window is over *)
  rewrite (wait_idle (b - gap - 1) s3).
  2: { intros t. rewrite Ht3, Hc3.
       intros [-> | ->%list_elem_of_singleton]%elem_of_cons; simpl; lia. }
  set (s4 := set_clock (clock s3 + (b - gap - 1)) s3).
  simpl Nat.iter at 3.
  destruct (tick_expired s4 (nextTimer s) (nextClosure s) b (clock s) (target ev1)
              (Some (nextTimer s))
              [Timer (S (nextTimer s)) (clock s + gap + b)
                 (TimerExpired (S (nextClosure s)))])
    as (Hc5 & Ht5 & Hk5 & Hcl5).
  { simpl. rewrite Ht3, Hc3. do 2 f_equal. lia. }
  { intros t ->%list_elem_of_singleton. simpl. rewrite Hc3. lia. }
  { simpl. rewrite Hcl3, lookup_insert_ne, lookup_insert_eq by lia. reflexivity. }
  { simpl. rewrite Hc3. lia. }
  set (s5 := tick c s4) in *. simpl in Hc5, Hk5, Hcl5. rewrite Hc3 in Hc5.
  (* idle until the second window is over *)
  rewrite (wait_idle (gap - 1) s5).
  2: { intros t. rewrite Ht5, Hc5. intros ->%list_elem_of_singleton. simpl. lia. }
  set (s6 := set_clock (clock s5 + (gap - 1)) s5).
  simpl Nat.iter at 2.
  destruct (tick_expired s6 (S (nextTimer s)) (S (nextClosure s)) b (clock s + gap)
              (target ev2) (Some (S (nextTimer s))) [])
    as (Hc7 & Ht7 & Hk7 & _).
  { simpl. rewrite Ht5, Hc5. do 2 f_equal. lia. }
  { intros t Hin. inversion Hin. }
  { simpl. rewrite Hcl5, lookup_insert_ne, Hcl3, lookup_insert_eq by lia. reflexivity. }
  { simpl. rewrite Hc5. lia. }
  set (s7 := tick c s6) in *.
  rewrite (wait_idle (n - b) s7) by (intros t; rewrite Ht7; intros Hin; inversion Hin).
  simpl. rewrite Hk7. simpl. rewrite Hk5, Hk3, Hc5, Hc3.
  rewrite <- app_assoc. simpl. do 3 f_equal; [f_equal; lia | do 2 f_equal; lia].
Qed.

End Delayed.



(** Two changes on the same field: one invocation, timed from the second. *)
Lemma delay_replaced_same_field :
  calls (run delayedConfig (initial samplePage) [change 0; Wait 100; change 0; Wait 1000])
  = [(400%nat, 0%nat)].
Proof. vm_compute. reflexivity. Qed.



End TimerFacts.

(** *** Promises and requests *)

Module NetFacts.

Import Text Dom Message Form Loop LoopSpec Samples LoopFacts.

Ltac net_unfold :=
  unfold orphan, pendingRemote, listensFor, appliedTo, handleState, inFlight in *.

Lemma netOk_view s s' : netView s' = netView s -> netOk s -> netOk s'.
Proof.
  unfold netView. intros [= _ Hp Hn Hh Hnet Ha] [H1 H2 H3 H4 H5 H6].
  split; net_unfold; rewrite ?Hp, ?Hn, ?Hh, ?Hnet, ?Ha; auto.
Qed.

Lemma orphan_view p s s' : netView s' = netView s -> orphan p s -> orphan p s'.
Proof.
  unfold netView. intros [= _ Hp Hn Hh Hnet Ha] H.
  net_unfold. now rewrite Hp, Hn, Hh, Hnet, Ha.
Qed.

(** The renderer and [setCustomValidity] leave the id of a control alone. *)
Lemma fmap_alter_same {A B : Type} (f : A -> B) (g : A -> A) i (l : list A) :
  (forall x, f (g x) = f x) -> f <$> alter g i l = f <$> l.
Proof.
  intros Hfg. revert i. induction l as [| x l IH]; intros [| i]; simpl; auto.
  - f_equal. apply Hfg.
  - f_equal. apply IH.
Qed.

Lemma setError_id c k el : id (setError c k el) = id el.
Proof. unfold setError, classAdd. destruct (hasClass _ el); reflexivity. Qed.

Lemma clearError_id c el : id (clearError c el) = id el.
Proof.
  unfold clearError, classAdd.
  destruct (showSuccessState (opts c)); [| reflexivity].
  destruct (hasClass _ _); reflexivity.
Qed.

(** **** [setReadyState] and the end of an exchange *)

Lemma listensFor_setReadyState h rs h' q s :
  listensFor h' q (setReadyState h rs s) <-> listensFor h' q s.
Proof.
  net_unfold. simpl. split.
  - intros (x & rv & m & Hx & Ho).
    destruct (decide (h' = h)) as [-> | Hne].
    + rewrite lookup_alter_eq in Hx.
      destruct (handles s !! h) as [y |]; [| discriminate].
      injection Hx as <-. simpl in Ho. eauto.
    + rewrite lookup_alter_ne in Hx by congruence. eauto.
  - intros (x & rv & m & Hx & Ho).
    destruct (decide (h' = h)) as [-> | Hne].
    + exists (Xhr rs (onload x)), rv, m. rewrite lookup_alter_eq, Hx. auto.
    + exists x, rv, m. rewrite lookup_alter_ne by congruence. auto.
Qed.

Lemma handleState_setReadyState_ne h rs h' s :
  h' <> h -> handleState h' (setReadyState h rs s) = handleState h' s.
Proof. intros Hne. net_unfold. simpl. now rewrite lookup_alter_ne by congruence. Qed.

Lemma handleState_setReadyState_eq h rs s :
  is_Some (handles s !! h) -> handleState h (setReadyState h rs s) = rs.
Proof. intros [x Hx]. net_unfold. simpl. now rewrite lookup_alter_eq, Hx. Qed.

Lemma inFlight_removed h s :
  filter (λ r, via r = h) (filter (λ r, via r ≠ h) (network s)) = [].
Proof.
  induction (network s) as [| r l IH]; [reflexivity |].
  rewrite filter_cons. destruct (decide (via r ≠ h)) as [Hne | Heq]; [| exact IH].
  rewrite filter_cons, decide_False; [exact IH | tauto].
Qed.

Lemma inFlight_others h h' s :
  h' <> h ->
  filter (λ r, via r = h') (filter (λ r, via r ≠ h) (network s))
  = filter (λ r, via r = h') (network s).
Proof. intros Hne. apply filter_filter_in. intros r _ ->. exact Hne. Qed.

Lemma netOk_finished h rs s : netOk s -> netOk (finished h rs s).
Proof.
  intros [H1 H2 H3 H4 H5 H6]. unfold finished. split.
  - intros r Hr. simpl in Hr. apply list_elem_of_filter in Hr as [Hne Hr].
    destruct (H1 r Hr) as (Ha & Hb & Hc & Hd).
    rewrite listensFor_setReadyState, handleState_setReadyState_ne by exact Hne.
    auto.
  - intros h1 h2 p. rewrite !listensFor_setReadyState. apply H2.
  - exact H3.
  - intros h1 p. rewrite listensFor_setReadyState. apply H4.
  - exact H5.
  - intros h0. unfold inFlight. simpl.
    destruct (decide (h0 = h)) as [-> | Hne].
    + rewrite inFlight_removed. simpl. lia.
    + rewrite inFlight_others by exact Hne. apply H6.
Qed.

Lemma orphan_finished p h rs s : orphan p s -> orphan p (finished h rs s).
Proof.
  intros (Ha & Hb & Hc & Hd). unfold finished. repeat split; auto.
  intros h0 Hl. rewrite listensFor_setReadyState in Hl.
  unfold inFlight. simpl.
  destruct (decide (h0 = h)) as [-> | Hne].
  - apply inFlight_removed.
  - rewrite inFlight_others by exact Hne. now apply Hd.
Qed.


(** ****  Data or headers arrive *)

Lemma netOk_progress h rs s :
  netOk s -> (rs = 2 \/ rs = 3)%nat -> netOk (setReadyState h rs s).
Proof.
  intros [H1 H2 H3 H4 H5 H6] Hrs. split.
  - intros r Hr. destruct (H1 r Hr) as (Ha & Hb & Hc & Hd).
    rewrite listensFor_setReadyState. repeat split; auto.
    + destruct (decide (via r = h)) as [<- | Hne].
      * rewrite handleState_setReadyState_eq; [lia |].
        destruct Ha as (x & _ & _ & Hx & _). eauto.
      * rewrite handleState_setReadyState_ne by exact Hne. lia.
    + destruct (decide (via r = h)) as [<- | Hne].
      * rewrite handleState_setReadyState_eq; [lia |].
        destruct Ha as (x & _ & _ & Hx & _). eauto.
      * rewrite handleState_setReadyState_ne by exact Hne. lia.
  - intros h1 h2 p. rewrite !listensFor_setReadyState. apply H2.
  - exact H3.
  - intros h1 p. rewrite listensFor_setReadyState. apply H4.
  - exact H5.
  - exact H6.
Qed.

Lemma orphan_progress p h rs s : orphan p s -> orphan p (setReadyState h rs s).
Proof.
  intros (Ha & Hb & Hc & Hd). repeat split; auto.
  intros h0 Hl. rewrite listensFor_setReadyState in Hl. now apply Hd.
Qed.

(** **** A new promise *)

Lemma netOk_newPromise i a r g s : netOk s -> netOk (newPromise i a r g s).1.
Proof.
  intros [H1 H2 H3 H4 H5 H6]. split; simpl.
  - intros q Hq. destruct (H1 q Hq) as (Ha & Hb & Hc & Hd).
    split; [exact Ha | split; [exact Hb | split; [| exact Hd]]].
    destruct Hc as (pr & Hpr & Hrule & Hset). exists pr.
    pose proof (H4 _ _ Ha). simpl.
    rewrite lookup_insert_ne by lia. auto.
  - exact H2.
  - intros p [pr Hp]. destruct (decide (p = nextPromise s)) as [-> | Hne]; [lia |].
    rewrite lookup_insert_ne in Hp by congruence.
    assert (p < nextPromise s)%nat by (apply H3; eauto). lia.
  - intros h p Hl. specialize (H4 h p Hl). lia.
  - intros p Hp. specialize (H5 p Hp). lia.
  - exact H6.
Qed.

Lemma orphan_newPromise p i a r g s : orphan p s -> orphan p (newPromise i a r g s).1.
Proof.
  intros ((pr & Hpr & Hrule & Hset) & Hb & Hc & Hd). repeat split; auto.
  - exists pr. simpl. rewrite lookup_insert_ne by lia. auto.
  - simpl. lia.
Qed.

(** **** The remote rule *)

Section Remote.

Variable c : config.

(** The call returns exactly when the decoding and the platform let it. *)
Lemma remoteRule_threw i a g s el :
  fields s !! i = Some el ->
  threw (remoteRule c i a g s) = negb (remoteReturns c el a).
Proof.
  intros Hel. unfold remoteRule, remoteReturns, newPromise. rewrite Hel.
  destruct (decodeURIComponent _); [| reflexivity]. cbn beta iota zeta.
  destruct (opens _ _ _ _); [| reflexivity].
  now destruct (takesHeaders _ _).
Qed.

(** What a call of the remote rule that returns does to promises,
    handles and network. *)
Lemma remoteRule_net i a g s el :
  fields s !! i = Some el ->
  remoteReturns c el a = true ->
  let h := handleName el in
  let p := nextPromise s in
  let s' := after (remoteRule c i a g s) in
  promises s' = <[p := Promise i a RemoteRule g false]> (promises s)
  /\ nextPromise s' = S p
  /\ (exists rv m, handles s' !! h = Some (Xhr 1 (Some (p, rv, m))))
  /\ (forall h', h' <> h -> handles s' !! h' = handles s !! h')
  /\ network s'
     = (if bool_decide (0 < handleState h s /\ handleState h s < 4)%nat
        then filter (λ r, via r ≠ h) (network s) else network s)
       ++ [Request h p]
  /\ applied s' = applied s.
Proof.
  intros Hel Hret h p s'. subst s'. unfold remoteRule. rewrite Hel. fold h.
  unfold remoteReturns in Hret.
  destruct (decodeURIComponent _); [| discriminate].
  apply andb_true_iff in Hret as [-> ->]. cbn [negb].
  unfold handleState. simpl.
  destruct (handles s !! h) as [x |] eqn:Hx; simpl.
  - rewrite Hx. case_bool_decide; simpl.
    + repeat split; try reflexivity.
      * eexists _, _. rewrite !lookup_alter_eq, Hx. reflexivity.
      * intros h' Hne. now rewrite !lookup_alter_ne by congruence.
    + repeat split; try reflexivity.
      * eexists _, _. rewrite !lookup_alter_eq, Hx. reflexivity.
      * intros h' Hne. now rewrite !lookup_alter_ne by congruence.
  - rewrite lookup_insert_eq. simpl.
    rewrite ?bool_decide_eq_false_2 by lia. simpl.
    repeat split; try reflexivity.
    + eexists _, _. rewrite !lookup_alter_eq, lookup_insert_eq. reflexivity.
    + intros h' Hne. now rewrite !lookup_alter_ne, lookup_insert_ne by congruence.
Qed.

(** With the handle unsent or done, the invariant leaves no exchange on it. *)
Lemma idle_handle h s :
  netOk s -> ~ (0 < handleState h s /\ handleState h s < 4)%nat ->
  filter (λ r, via r ≠ h) (network s) = network s.
Proof.
  intros Hok Hidle. apply filter_all. intros r Hr <-.
  destruct (request_ok s Hok r Hr) as (_ & Hst & _). lia.
Qed.

(** A handle that is created has no listener. *)
Lemma listensFor_created h h0 q s :
  handles s !! h = None ->
  listensFor h0 q (set_handles (<[h := Xhr 0 None]> (handles s)) s) <-> listensFor h0 q s.
Proof.
  intros Hh. unfold listensFor. simpl. destruct (decide (h0 = h)) as [-> | Hne].
  - rewrite lookup_insert_eq, Hh. split; intros (x & rv & m & Hx & Ho); [| discriminate].
    injection Hx as <-. discriminate.
  - now rewrite lookup_insert_ne by congruence.
Qed.

(** What a call of the remote rule that throws has done: no promise is
    made and nothing is sent; when the platform threw, the exchange that
    was in flight on the handle of the control has been aborted. *)
Lemma remoteRule_abrupt i a g s el :
  fields s !! i = Some el ->
  remoteReturns c el a = false ->
  let h := handleName el in
  let s' := after (remoteRule c i a g s) in
  promises s' = promises s
  /\ nextPromise s' = nextPromise s
  /\ applied s' = applied s
  /\ fields s' = fields s
  /\ (forall h0 q, listensFor h0 q s' <-> listensFor h0 q s)
  /\ (forall h', h' <> h -> handleState h' s' = handleState h' s)
  /\ ((network s' = network s
       /\ (handleState h s' = handleState h s
           \/ ~ (0 < handleState h s /\ handleState h s < 4)%nat))
      \/ network s' = filter (λ r, via r ≠ h) (network s)).
Proof.
  intros Hel Hret h s'. subst s'. unfold remoteRule. rewrite Hel. fold h.
  unfold remoteReturns in Hret.
  destruct (decodeURIComponent _) as [template |];
    [| cbn [after]; repeat split; auto].
  set (s1 := set_busy (<[i := "true"]> (busy s)) s).
  set (s2 := match handles s1 !! h with
             | None => set_handles (<[h := Xhr 0 None]> (handles s1)) s1
             | Some _ => s1
             end).
  assert (promises s2 = promises s /\ nextPromise s2 = nextPromise s
          /\ applied s2 = applied s /\ fields s2 = fields s /\ network s2 = network s
          /\ (forall h0 q, listensFor h0 q s2 <-> listensFor h0 q s)
          /\ (forall h0, handleState h0 s2 = handleState h0 s))
    as (Hp & Hn & Ha & Hf & Hnet & Hl & Hst).
  { subst s2. destruct (handles s1 !! h) eqn:Hh; [subst s1; repeat split; auto |].
    repeat split; auto.
    - intros H. now apply (listensFor_created h h0 q s1 Hh).
    - intros H. now apply (listensFor_created h h0 q s1 Hh).
    - intros h0. unfold handleState. simpl. destruct (decide (h0 = h)) as [-> | Hne].
      + rewrite lookup_insert_eq. subst s1. simpl in Hh. now rewrite Hh.
      + now rewrite lookup_insert_ne by congruence. }
  clearbody s2. clear s1.
  set (s3 := if bool_decide (0 < handleState h s2 /\ handleState h s2 < 4)%nat
             then xhrAbort h s2 else s2).
  assert (promises s3 = promises s /\ nextPromise s3 = nextPromise s
          /\ applied s3 = applied s /\ fields s3 = fields s
          /\ (forall h0 q, listensFor h0 q s3 <-> listensFor h0 q s)
          /\ (forall h', h' <> h -> handleState h' s3 = handleState h' s)
          /\ ((network s3 = network s /\ handleState h s3 = handleState h s
               /\ ~ (0 < handleState h s /\ handleState h s < 4)%nat)
              \/ network s3 = filter (λ r, via r ≠ h) (network s)))
    as (Hp3 & Hn3 & Ha3 & Hf3 & Hl3 & Hst3 & Hnet3).
  { subst s3. case_bool_decide as Hb.
    - unfold xhrAbort. repeat split; auto.
      + intros H. apply Hl. rewrite listensFor_setReadyState in H. exact H.
      + intros H. rewrite listensFor_setReadyState. apply Hl in H. exact H.
      + intros h' Hne. rewrite handleState_setReadyState_ne by exact Hne. apply Hst.
      + right. simpl. now rewrite Hnet.
    - repeat split; auto; try apply Hl.
      left. rewrite <- (Hst h). auto. }
  clearbody s3.
  destruct (opens _ _ _ _); cbn [negb after].
  - destruct (takesHeaders _ _); [discriminate |]. cbn [negb after].
    unfold xhrOpen. repeat split; auto.
    + intros H. apply Hl3. rewrite listensFor_setReadyState in H. exact H.
    + intros H. rewrite listensFor_setReadyState. apply Hl3 in H. exact H.
    + intros h' Hne. rewrite handleState_setReadyState_ne by exact Hne. now apply Hst3.
    + destruct Hnet3 as [(Hnet3 & _ & Hidle) | Hnet3]; [left | right]; simpl; auto.
  - repeat split; auto; try apply Hl3.
    destruct Hnet3 as [(Hnet3 & Hsame & _) | Hnet3]; auto.
Qed.

(** Whatever the state of the handle, the rule that returns leaves on it
    the one exchange it has just sent. *)
Lemma remoteRule_network i a g s el :
  netOk s -> fields s !! i = Some el -> remoteReturns c el a = true ->
  network (after (remoteRule c i a g s))
  = filter (λ r, via r ≠ handleName el) (network s)
    ++ [Request (handleName el) (nextPromise s)].
Proof.
  intros Hok Hel Hret.
  destruct (remoteRule_net i a g s el Hel Hret) as (_ & _ & _ & _ & -> & _).
  case_bool_decide; [reflexivity |]. now rewrite idle_handle.
Qed.

Lemma remoteRule_listensFor i a g s el h0 q :
  fields s !! i = Some el -> remoteReturns c el a = true ->
  listensFor h0 q (after (remoteRule c i a g s))
  <-> (h0 = handleName el /\ q = nextPromise s)
      \/ (h0 <> handleName el /\ listensFor h0 q s).
Proof.
  intros Hel Hret.
  destruct (remoteRule_net i a g s el Hel Hret) as (_ & _ & (rv & m & Hh) & Hother & _ & _).
  unfold listensFor. destruct (decide (h0 = handleName el)) as [-> | Hne].
  - rewrite Hh. split.
    + intros (x & rv' & m' & [= <-] & [= <-]). auto.
    + intros [[_ ->] | [Hne _]]; [eauto | congruence].
  - rewrite (Hother _ Hne). split; [auto | intros [[? _] | [_ ?]]; [congruence | auto]].
Qed.

Lemma remoteRule_handleState i a g s el h0 :
  fields s !! i = Some el -> remoteReturns c el a = true ->
  handleState h0 (after (remoteRule c i a g s))
  = if decide (h0 = handleName el) then 1%nat else handleState h0 s.
Proof.
  intros Hel Hret.
  destruct (remoteRule_net i a g s el Hel Hret) as (_ & _ & (rv & m & Hh) & Hother & _ & _).
  unfold handleState. destruct (decide (h0 = handleName el)) as [-> | Hne].
  - now rewrite Hh.
  - now rewrite (Hother _ Hne).
Qed.

Lemma remoteRule_pending i a g s el q :
  fields s !! i = Some el -> remoteReturns c el a = true -> (q < nextPromise s)%nat ->
  pendingRemote q s -> pendingRemote q (after (remoteRule c i a g s)).
Proof.
  intros Hel Hret Hq (pr & Hpr & Hrule & Hset).
  destruct (remoteRule_net i a g s el Hel Hret) as (Hp & _).
  exists pr. rewrite Hp, lookup_insert_ne by lia. auto.
Qed.

Lemma netOk_remoteRule i a g s : netOk s -> netOk (after (remoteRule c i a g s)).
Proof.
  intros Hok.
  destruct (fields s !! i) as [el |] eqn:Hel;
    [| unfold remoteRule; rewrite Hel; exact Hok].
  pose proof Hok as [H1 H2 H3 H4 H5 H6].
  destruct (remoteReturns c el a) eqn:Hret.
  - pose proof (remoteRule_network i a g s el Hok Hel Hret) as Hnet.
    destruct (remoteRule_net i a g s el Hel Hret) as (Hp & Hn & _ & _ & _ & Happ).
    pose proof (fun h0 q => remoteRule_listensFor i a g s el h0 q Hel Hret) as Hlf.
    split.
    + intros r. rewrite Hnet. intros [Hr | ->%list_elem_of_singleton]%elem_of_app.
      * apply list_elem_of_filter in Hr as [Hne Hr].
        destruct (H1 r Hr) as (Ha & Hb & Hc & Hd).
        split; [| split; [| split]].
        -- apply Hlf; auto.
        -- rewrite (remoteRule_handleState _ _ _ _ el) by assumption.
           now rewrite decide_False by exact Hne.
        -- apply (remoteRule_pending _ _ _ _ el); eauto.
        -- unfold appliedTo. now rewrite Happ.
      * simpl. split; [| split; [| split]].
        -- apply Hlf; auto.
        -- rewrite (remoteRule_handleState _ _ _ _ el) by assumption.
           rewrite decide_True by reflexivity. lia.
        -- eexists. rewrite Hp, lookup_insert_eq. eauto.
        -- unfold appliedTo. rewrite Happ. intros Hin. apply H5 in Hin. lia.
    + intros h1 h2 q
        [[-> ->] | [Hne1 Hl1]]%Hlf
        [[-> Hq] | [Hne2 Hl2]]%Hlf; auto.
      * apply H4 in Hl2. lia.
      * subst q. apply H4 in Hl1. lia.
      * eauto.
    + intros q. rewrite Hp, Hn. intros [pr Hq].
      destruct (decide (q = nextPromise s)) as [-> | Hne]; [lia |].
      rewrite lookup_insert_ne in Hq by congruence.
      assert (q < nextPromise s)%nat by (apply H3; eauto). lia.
    + intros h0 q [[-> ->] | [Hne Hl]]%Hlf; auto.
      * lia.
      * apply H4 in Hl. lia.
    + intros q. unfold appliedTo. rewrite Happ, Hn. intros Hq. apply H5 in Hq. lia.
    + intros h0. unfold inFlight. rewrite Hnet, filter_app.
      destruct (decide (h0 = handleName el)) as [-> | Hne].
      * rewrite inFlight_removed, filter_cons, decide_True by reflexivity.
        simpl. lia.
      * rewrite inFlight_others by exact Hne.
        rewrite filter_cons, decide_False by (simpl; congruence).
        rewrite app_nil_r. apply H6.
  - destruct (remoteRule_abrupt i a g s el Hel Hret)
      as (Hp & Hn & Happ & _ & Hlf & Hst & Hnet).
    assert (forall r, r ∈ network (after (remoteRule c i a g s)) ->
              r ∈ network s
              /\ handleState (via r) (after (remoteRule c i a g s)) = handleState (via r) s)
      as Hin.
    { intros r Hr. destruct Hnet as [(Hnet & Hsame) | Hnet]; rewrite Hnet in Hr.
      - split; [exact Hr |].
        destruct (decide (via r = handleName el)) as [Hv | Hv]; [| now apply Hst].
        rewrite Hv. destruct Hsame as [Hsame | Hidle]; [exact Hsame |].
        destruct (H1 r Hr) as (_ & Hb & _). rewrite Hv in Hb. lia.
      - apply list_elem_of_filter in Hr as [Hne Hr]. split; [exact Hr | now apply Hst]. }
    split.
    + intros r Hr. destruct (Hin r Hr) as [Hr' Hsame].
      destruct (H1 r Hr') as (Ha & Hb & (pr & Hc) & Hd).
      split; [now apply Hlf | split; [now rewrite Hsame | split]].
      * exists pr. now rewrite Hp.
      * unfold appliedTo. now rewrite Happ.
    + intros h1 h2 q Hl1%Hlf Hl2%Hlf. eauto.
    + intros q. rewrite Hp, Hn. apply H3.
    + intros h0 q Hl%Hlf. rewrite Hn. eauto.
    + intros q. unfold appliedTo. rewrite Happ, Hn. apply H5.
    + intros h0. unfold inFlight.
      destruct Hnet as [(Hnet & _) | Hnet]; rewrite Hnet; [apply H6 |].
      etransitivity; [| apply (H6 h0)]. unfold inFlight.
      rewrite list_filter_filter. apply filter_length_le. tauto.
Qed.

Lemma orphan_remoteRule p i a g s : orphan p s -> orphan p (after (remoteRule c i a g s)).
Proof.
  intros Ho.
  destruct (fields s !! i) as [el |] eqn:Hel;
    [| unfold remoteRule; rewrite Hel; exact Ho].
  destruct Ho as (Ha & Hb & Hc & Hd).
  destruct (remoteReturns c el a) eqn:Hret.
  - destruct (remoteRule_net i a g s el Hel Hret) as (Hp & Hn & _ & _ & Hnet & Happ).
    pose proof (fun h0 q => remoteRule_listensFor i a g s el h0 q Hel Hret) as Hlf.
    split; [| split; [| split]].
    + now apply (remoteRule_pending _ _ _ _ el).
    + rewrite Hn. lia.
    + unfold appliedTo. now rewrite Happ.
    + intros h0 [[-> ->] | [Hne Hl]]%Hlf; [lia | auto].
      unfold inFlight. rewrite Hnet, filter_app.
      rewrite filter_cons, decide_False by (simpl; congruence).
      rewrite app_nil_r. specialize (Hd _ Hl). unfold inFlight in Hd.
      case_bool_decide; [| exact Hd].
      now rewrite inFlight_others by exact Hne.
  - destruct (remoteRule_abrupt i a g s el Hel Hret)
      as (Hp & Hn & Happ & _ & Hlf & Hst & Hnet).
    destruct Ha as (pr & Ha).
    split; [exists pr; now rewrite Hp | split; [now rewrite Hn | split]].
    + unfold appliedTo. now rewrite Happ.
    + intros h0 Hl%Hlf. specialize (Hd _ Hl). unfold inFlight in *.
      destruct Hnet as [(Hnet & _) | Hnet]; rewrite Hnet; [exact Hd |].
      rewrite list_filter_filter.
      apply filter_all_not. intros r Hr [Hv _].
      eapply (filter_nil_not_elem_of _ _ r Hd); eauto.
Qed.

(** **** Settlements *)

Lemma settle_net p o s pr :
  promises s !! p = Some pr -> settled pr = false ->
  promises (settle c p o s)
  = <[p := Promise (onField pr) (forAttribute pr) (ofRule pr) (pass pr) true]> (promises s)
  /\ nextPromise (settle c p o s) = nextPromise s
  /\ handles (settle c p o s) = handles s
  /\ network (settle c p o s) = network s
  /\ applied (settle c p o s) = applied s ++ [(p, o)].
Proof.
  intros Hp Hs. unfold settle. rewrite Hp, Hs. destruct o; repeat split; reflexivity.
Qed.

Lemma netOk_settle p o s :
  netOk s -> (forall r, r ∈ network s -> answers r <> p) -> netOk (settle c p o s).
Proof.
  intros Hok Hfree.
  destruct (promises s !! p) as [pr |] eqn:Hp; [| unfold settle; now rewrite Hp].
  destruct (settled pr) eqn:Hs; [unfold settle; now rewrite Hp, Hs |].
  destruct (settle_net p o s pr Hp Hs) as (Hpm & Hn & Hh & Hnet & Happ).
  destruct Hok as [H1 H2 H3 H4 H5 H6].
  split; net_unfold; rewrite ?Hpm, ?Hn, ?Hh, ?Hnet, ?Happ; auto.
  - intros r Hr. destruct (H1 r Hr) as (Ha & Hb & (pr' & Hpr' & Hc) & Hd).
    specialize (Hfree r Hr).
    split; [exact Ha | split; [exact Hb | split]].
    + exists pr'. rewrite lookup_insert_ne by congruence. auto.
    + rewrite fmap_app. intros [Hin | Hin%list_elem_of_singleton]%elem_of_app; auto.
  - intros q [pr' Hq]. destruct (decide (q = p)) as [-> | Hne]; [apply H3; eauto |].
    rewrite lookup_insert_ne in Hq by congruence. apply H3; eauto.
  - intros q. rewrite fmap_app.
    intros [Hin | ->%list_elem_of_singleton]%elem_of_app; [auto | apply H3; eauto].
Qed.

Lemma orphan_settle p0 p o s : p0 <> p -> orphan p0 s -> orphan p0 (settle c p o s).
Proof.
  intros Hne Ho.
  destruct (promises s !! p) as [pr |] eqn:Hp; [| unfold settle; now rewrite Hp].
  destruct (settled pr) eqn:Hs; [unfold settle; now rewrite Hp, Hs |].
  destruct (settle_net p o s pr Hp Hs) as (Hpm & Hn & Hh & Hnet & Happ).
  destruct Ho as ((pr0 & Hpr0 & Hrule & Hset) & Hb & Hc & Hd).
  net_unfold. rewrite Hpm, Hn, Hh, Hnet, Happ.
  split; [| split; [| split]]; auto.
  - exists pr0. rewrite lookup_insert_ne by congruence. auto.
  - rewrite fmap_app. intros [Hin | Hin%list_elem_of_singleton]%elem_of_app; auto.
Qed.

(** **** Validation passes, timers and events *)

Section Stable.

Variable P : state -> Prop.
Hypothesis HP : stable c P.

Lemma stable_view s s' : netView s' = netView s -> P s -> P s'.
Proof. destruct HP as (H & _). apply H. Qed.

Lemma stable_report m : P (after m) -> P (report m).
Proof. apply stable_view. destruct m; reflexivity. Qed.

Lemma stable_launch i g s r : P s -> P (after (launch c i g s r)).
Proof.
  intros Hs. unfold launch. destruct (fields s !! i); [| exact Hs].
  destruct (hasAttribute _ _); [| exact Hs].
  destruct HP as (_ & Hnew & Hrem). destruct r.2; [apply Hnew | apply Hrem]; exact Hs.
Qed.

Lemma stable_launches i g l : forall s, P s -> P (after (forEach (launch c i g) l s)).
Proof. apply forEach_after. intros. now apply stable_launch. Qed.

Lemma doClearError_net i s : netView (doClearError c i s) = netView s.
Proof.
  unfold netView, fieldIds. simpl. f_equal. f_equal. f_equal. f_equal. f_equal.
  apply fmap_alter_same, clearError_id.
Qed.

Lemma doSetError_net i k s : netView (doSetError c i k s) = netView s.
Proof.
  unfold netView, fieldIds. simpl. f_equal. f_equal. f_equal. f_equal. f_equal.
  apply fmap_alter_same. intros el. apply setError_id.
Qed.

Lemma stable_validateField i s : P s -> P (after (validateField c i s)).
Proof.
  intros Hs. unfold validateField.
  repeat split_match; cbn [after]; try (revert Hs; apply stable_view; reflexivity).
  all: try apply stable_launches.
  all: revert Hs; apply stable_view;
    rewrite ?doClearError_net;
    rewrite ?(fold_left_keeps netView) by (intros; apply doSetError_net); reflexivity.
Qed.

Lemma stable_callDebounced d arg s : P s -> P (callDebounced d arg s).
Proof.
  apply stable_view. unfold callDebounced, setTimeout. cbn beta iota zeta.
  repeat split_match; reflexivity.
Qed.

Lemma stable_timerExpired d s : P s -> P (after (timerExpired c d s)).
Proof.
  intros Hs. unfold timerExpired.
  destruct (closures s !! d) as [cl |]; [| exact Hs].
  destruct (lastCall cl) as [[t0 arg] |].
  - case_bool_decide.
    + apply stable_validateField. revert Hs. now apply stable_view.
    + revert Hs. now apply stable_view.
  - revert Hs. now apply stable_view.
Qed.

Lemma stable_invoke cb arg s : P s -> P (after (invoke c cb arg s)).
Proof.
  destruct cb; simpl; [apply stable_validateField | apply stable_callDebounced].
Qed.

Lemma stable_fire s t : P s -> P (fire c s t).
Proof.
  intros Hs. unfold fire. case_bool_decide; [| exact Hs].
  apply stable_report. destruct (job t).
  - apply stable_invoke. revert Hs. now apply stable_view.
  - apply stable_timerExpired. revert Hs. now apply stable_view.
Qed.

Lemma stable_fires l : forall s, P s -> P (fold_left (fire c) l s).
Proof.
  induction l as [| t l IH]; intros s Hs; simpl; [exact Hs |].
  apply IH. now apply stable_fire.
Qed.

Lemma stable_tick s : P s -> P (tick c s).
Proof.
  intros Hs. unfold tick. apply stable_fires. revert Hs. now apply stable_view.
Qed.

Lemma stable_wait ms s : P s -> P (Nat.iter ms (tick c) s).
Proof.
  intros Hs. induction ms as [| ms IH]; simpl; [exact Hs | now apply stable_tick].
Qed.

Lemma stable_handleInput ev s : P s -> P (after (handleInput c ev s)).
Proof.
  intros Hs.
  destruct (fields s !! target ev) as [el |] eqn:Hel;
    [| unfold handleInput; now rewrite Hel].
  destruct (noTriggerOnTab (opts c) && bool_decide (key ev = Some "Tab")) eqn:Htab;
    [unfold handleInput; now rewrite Hel, Htab |].
  unfold handleInput. rewrite Hel, Htab, TimerFacts.enableOnChange_cases.
  destruct (throwsOnChange c ev s); [exact Hs |]. cbn [andThen].
  assert (P (pastSubmit c ev s)) as Hs0.
  { revert Hs. apply stable_view. apply (TimerFacts.pastSubmit_view c ev s). }
  generalize dependent (pastSubmit c ev s). intros s0 Hs0.
  destruct (positive (bounceOf c el (etype ev))) as [bounce |];
    destruct (positive (delayOf c el (etype ev))) as [ms |]; simpl.
  - revert Hs0. apply stable_view. destruct (intervals _ !! _); reflexivity.
  - apply stable_callDebounced. revert Hs0. now apply stable_view.
  - revert Hs0. apply stable_view. destruct (intervals _ !! _); reflexivity.
  - now apply stable_validateField.
Qed.

Lemma stable_validate s : P s -> P (after (validate c s)).
Proof.
  unfold validate. apply forEach_after. intros a i Ha.
  destruct (fields a !! i); [| exact Ha].
  destruct (_ && _); [now apply stable_validateField | exact Ha].
Qed.

Lemma stable_dispatch ev s : P s -> P (step c s (Dispatch ev)).
Proof.
  intros Hs. simpl. destruct (_ && _); [| exact Hs].
  now apply stable_report, stable_handleInput.
Qed.

End Stable.

Lemma netOk_stable : stable c netOk.
Proof.
  split; [| split].
  - apply netOk_view.
  - intros. now apply netOk_newPromise.
  - intros. now apply netOk_remoteRule.
Qed.

Lemma orphan_stable p : stable c (orphan p).
Proof.
  split; [| split].
  - apply orphan_view.
  - intros. now apply orphan_newPromise.
  - intros. now apply orphan_remoteRule.
Qed.

(** **** Every step *)

Lemma onLoad_cases h st s :
  onLoad c h st s = s
  \/ exists x p rv m o,
       handles s !! h = Some x /\ onload x = Some (p, rv, m)
       /\ (exists s1, netView s1 = netView s /\ onLoad c h st s = settle c p o s1).
Proof.
  unfold onLoad. destruct (handles s !! h) as [[rs [[[p rv] m] |]] |] eqn:Hx; auto.
  right. exists (Xhr rs (Some (p, rv, m))), p, rv, m.
  destruct (if rv then negb (st =? 200) else (st =? 200)).
  - exists Resolved. repeat split; auto.
    eexists. split; [| reflexivity]. destruct (promises s !! p); reflexivity.
  - exists (Rejected m). repeat split; auto.
    eexists. split; [| reflexivity]. destruct (promises s !! p); reflexivity.
Qed.

Lemma step_netOk s a : netOk s -> netOk (step c s a).
Proof.
  intros Hs. destruct a as [ev | ms | p o | h rs | h st | h |]; simpl.
  - now apply (stable_dispatch _ netOk_stable).
  - now apply (stable_wait _ netOk_stable).
  - destruct (promises s !! p) as [pr |] eqn:Hp; [| exact Hs].
    destruct (ofRule pr) eqn:Hrule; [| exact Hs].
    apply netOk_settle; [exact Hs |]. intros r Hr <-.
    destruct (request_ok s Hs r Hr) as (_ & _ & (pr' & Hpr' & Hrule' & _) & _).
    congruence.
  - case_bool_decide as Hc; [| exact Hs]. apply netOk_progress; tauto.
  - case_bool_decide as Hc; [| exact Hs].
    pose proof (netOk_finished h 4 s Hs) as Hf. fold (finished h 4 s).
    destruct (onLoad_cases h st (finished h 4 s))
      as [-> | (x & p & rv & m & o & Hx & Ho & s1 & Hv & ->)]; [exact Hf |].
    assert (netOk s1) as Hs1 by (revert Hf; now apply netOk_view).
    apply netOk_settle; [exact Hs1 |]. intros r Hr <-.
    assert (network s1 = network (finished h 4 s)) as Hnet
        by (unfold netView in Hv; now injection Hv).
    rewrite Hnet in Hr.
    destruct (request_ok _ Hf r Hr) as (Hl & _).
    assert (listensFor h (answers r) (finished h 4 s)) as Hl'
        by (exists x, rv, m; auto).
    pose proof (one_handle _ Hf _ _ _ Hl Hl') as Hvia.
    unfold finished in Hr. simpl in Hr. apply list_elem_of_filter in Hr as [Hne _].
    contradiction.
  - case_bool_decide as Hc; [| exact Hs].
    pose proof (netOk_finished h 4 s Hs) as Hf. revert Hf. now apply netOk_view.
  - now apply (stable_report _ netOk_stable), (stable_validate _ netOk_stable).
Qed.

Lemma step_orphan p0 s a : orphan p0 s -> orphan p0 (step c s a).
Proof.
  intros Hs. destruct a as [ev | ms | p o | h rs | h st | h |]; simpl.
  - now apply (stable_dispatch _ (orphan_stable p0)).
  - now apply (stable_wait _ (orphan_stable p0)).
  - destruct (promises s !! p) as [pr |] eqn:Hp; [| exact Hs].
    destruct (ofRule pr) eqn:Hrule; [| exact Hs].
    apply orphan_settle; [| exact Hs]. intros <-.
    destruct Hs as ((pr0 & Hpr0 & Hrule0 & _) & _). congruence.
  - case_bool_decide as Hc; [| exact Hs]. now apply orphan_progress.
  - case_bool_decide as Hc; [| exact Hs].
    pose proof (orphan_finished p0 h 4 s Hs) as Hf. fold (finished h 4 s).
    destruct (onLoad_cases h st (finished h 4 s))
      as [-> | (x & p & rv & m & o & Hx & Ho & s1 & Hv & ->)]; [exact Hf |].
    apply orphan_settle; [| revert Hf; now apply orphan_view].
    intros <-.
    assert (listensFor h p0 s) as Hl.
    { apply (listensFor_setReadyState h 4). exists x, rv, m. auto. }
    destruct Hs as (_ & _ & _ & Hd). apply Hd in Hl. contradiction.
  - case_bool_decide as Hc; [| exact Hs].
    pose proof (orphan_finished p0 h 4 s Hs) as Hf. revert Hf. now apply orphan_view.
  - now apply (stable_report _ (orphan_stable p0)), (stable_validate _ (orphan_stable p0)).
Qed.

Lemma run_netOk tr : forall s, netOk s -> netOk (run c s tr).
Proof.
  induction tr as [| a tr IH]; intros s Hs; simpl; [exact Hs |].
  apply IH. now apply step_netOk.
Qed.

Lemma run_orphan p tr : forall s, orphan p s -> orphan p (run c s tr).
Proof.
  induction tr as [| a tr IH]; intros s Hs; simpl; [exact Hs |].
  apply IH. now apply step_orphan.
Qed.

Lemma initial_netOk els : netOk (initial els).
Proof.
  split; net_unfold; simpl.
  - intros r Hr. inversion Hr.
  - intros h h' p (x & _ & _ & Hx & _). rewrite lookup_empty in Hx. discriminate.
  - intros p [x Hx]. rewrite lookup_empty in Hx. discriminate.
  - intros h p (x & _ & _ & Hx & _). rewrite lookup_empty in Hx. discriminate.
  - intros p Hp. inversion Hp.
  - intros h. simpl. lia.
Qed.

Lemma reachable_netOk els s : reachable c els s -> netOk s.
Proof. intros [tr ->]. apply run_netOk, initial_netOk. Qed.

(** **** Requests and the fields they were sent for *)

Lemma tied_view s s' : netView s' = netView s -> requestsTied s -> requestsTied s'.
Proof.
  unfold netView, requestsTied. intros [= Hi Hp _ _ Hnet _] H.
  now rewrite Hi, Hp, Hnet.
Qed.

Lemma remoteRule_fields i a g s : fields (after (remoteRule c i a g s)) = fields s.
Proof.
  unfold remoteRule, newPromise. cbn beta iota zeta. repeat split_match; reflexivity.
Qed.

Lemma settle_fieldIds p o s : fieldIds (settle c p o s) = fieldIds s.
Proof.
  unfold settle. destruct (promises s !! p) as [pr |]; [| reflexivity].
  destruct (settled pr); [reflexivity |].
  destruct o; unfold fieldIds; simpl.
  - rewrite fmap_alter_same by apply clearError_id.
    now rewrite fmap_alter_same by reflexivity.
  - rewrite fmap_alter_same by (intros; apply setError_id).
    now rewrite fmap_alter_same by reflexivity.
Qed.

Lemma tiedOk_newPromise i a r g s : tiedOk s -> tiedOk (newPromise i a r g s).1.
Proof.
  intros [Hok Ht]. split; [now apply netOk_newPromise |].
  intros q Hq. simpl in Hq. destruct (Ht q Hq) as (pr & ident & Hpr & Hid & Hvia).
  exists pr, ident. repeat split; auto. simpl.
  destruct (request_ok s Hok q Hq) as (Hl & _).
  pose proof (listener_bound s Hok _ _ Hl). rewrite lookup_insert_ne by lia. exact Hpr.
Qed.

Lemma tiedOk_remoteRule i a g s : tiedOk s -> tiedOk (after (remoteRule c i a g s)).
Proof.
  intros [Hok Ht]. split; [now apply netOk_remoteRule |].
  destruct (fields s !! i) as [el |] eqn:Hel;
    [| unfold remoteRule; rewrite Hel; exact Ht].
  destruct (remoteReturns c el a) eqn:Hret.
  - pose proof (remoteRule_network i a g s el Hok Hel Hret) as Hnet.
    destruct (remoteRule_net i a g s el Hel Hret) as (Hp & _).
    intros r. unfold fieldIds. rewrite Hnet, Hp, remoteRule_fields.
    intros [Hr | ->%list_elem_of_singleton]%elem_of_app.
    + apply list_elem_of_filter in Hr as [_ Hr].
      destruct (Ht r Hr) as (pr & ident & Hpr & Hid & Hvia).
      exists pr, ident. repeat split; auto.
      destruct (request_ok s Hok r Hr) as (Hl & _).
      pose proof (listener_bound s Hok _ _ Hl). rewrite lookup_insert_ne by lia. exact Hpr.
    + eexists _, (id el). simpl. rewrite lookup_insert_eq.
      repeat split. simpl. now rewrite list_lookup_fmap, Hel.
  - destruct (remoteRule_abrupt i a g s el Hel Hret) as (Hp & _ & _ & Hf & _ & _ & Hnet).
    intros r Hr. unfold fieldIds. rewrite Hp, Hf.
    apply Ht. destruct Hnet as [(Hnet & _) | Hnet]; rewrite Hnet in Hr; [exact Hr |].
    now apply list_elem_of_filter in Hr as [_ Hr].
Qed.

Lemma tiedOk_settle p o s :
  tiedOk s -> (forall r, r ∈ network s -> answers r <> p) -> tiedOk (settle c p o s).
Proof.
  intros [Hok Ht] Hfree. split; [now apply netOk_settle |].
  destruct (promises s !! p) as [pr |] eqn:Hp; [| unfold settle; now rewrite Hp].
  destruct (settled pr) eqn:Hs; [unfold settle; now rewrite Hp, Hs |].
  destruct (settle_net p o s pr Hp Hs) as (Hpm & _ & _ & Hnet & _).
  intros r. rewrite Hnet, Hpm, settle_fieldIds. intros Hr.
  destruct (Ht r Hr) as (pr' & ident & Hpr' & Hid & Hvia).
  exists pr', ident. repeat split; auto.
  rewrite lookup_insert_ne; [exact Hpr' |]. intros Heq. now apply (Hfree r Hr).
Qed.

Lemma tiedOk_finished h rs s : tiedOk s -> tiedOk (finished h rs s).
Proof.
  intros [Hok Ht]. split; [now apply netOk_finished |].
  intros r Hr. unfold finished in Hr. simpl in Hr.
  apply list_elem_of_filter in Hr as [_ Hr]. exact (Ht r Hr).
Qed.

Lemma tiedOk_stable : stable c tiedOk.
Proof.
  split; [| split].
  - intros s s' Hv [Hok Ht]. split; [revert Hok; now apply netOk_view |].
    revert Ht. now apply tied_view.
  - intros. now apply tiedOk_newPromise.
  - intros. now apply tiedOk_remoteRule.
Qed.

Lemma step_tiedOk s a : tiedOk s -> tiedOk (step c s a).
Proof.
  intros Hs. pose proof Hs as [Hok Ht].
  destruct a as [ev | ms | p o | h rs | h st | h |]; simpl.
  - now apply (stable_dispatch _ tiedOk_stable).
  - now apply (stable_wait _ tiedOk_stable).
  - destruct (promises s !! p) as [pr |] eqn:Hp; [| exact Hs].
    destruct (ofRule pr) eqn:Hrule; [| exact Hs].
    apply tiedOk_settle; [exact Hs |]. intros r Hr <-.
    destruct (request_ok s Hok r Hr) as (_ & _ & (pr' & Hpr' & Hrule' & _) & _).
    congruence.
  - case_bool_decide as Hc; [| exact Hs].
    split; [apply netOk_progress; tauto |]. exact Ht.
  - case_bool_decide as Hc; [| exact Hs].
    pose proof (tiedOk_finished h 4 s Hs) as Hf. fold (finished h 4 s).
    destruct (onLoad_cases h st (finished h 4 s))
      as [-> | (x & p & rv & m & o & Hx & Ho & s1 & Hv & ->)]; [exact Hf |].
    assert (tiedOk s1) as Hs1.
    { destruct Hf as [Hf1 Hf2]. split; [revert Hf1; now apply netOk_view |].
      revert Hf2. now apply tied_view. }
    apply tiedOk_settle; [exact Hs1 |]. intros r Hr <-.
    assert (network s1 = network (finished h 4 s)) as Hnet
        by (unfold netView in Hv; now injection Hv).
    rewrite Hnet in Hr. destruct Hf as [Hf _].
    destruct (request_ok _ Hf r Hr) as (Hl & _).
    assert (listensFor h (answers r) (finished h 4 s)) as Hl'
        by (exists x, rv, m; auto).
    pose proof (one_handle _ Hf _ _ _ Hl Hl') as Hvia.
    unfold finished in Hr. simpl in Hr. apply list_elem_of_filter in Hr as [Hne _].
    contradiction.
  - case_bool_decide as Hc; [| exact Hs].
    pose proof (tiedOk_finished h 4 s Hs) as [Hf1 Hf2].
    split; [revert Hf1; now apply netOk_view | revert Hf2; now apply tied_view].
  - now apply (stable_report _ tiedOk_stable), (stable_validate _ tiedOk_stable).
Qed.

Lemma run_tiedOk tr : forall s, tiedOk s -> tiedOk (run c s tr).
Proof.
  induction tr as [| a tr IH]; intros s Hs; simpl; [exact Hs |].
  apply IH. now apply step_tiedOk.
Qed.

Lemma reachable_tiedOk els s : reachable c els s -> tiedOk s.
Proof.
  intros [tr ->]. apply run_tiedOk. split; [apply initial_netOk |].
  intros r Hr. inversion Hr.
Qed.

(** At most one exchange is in flight for a field. *)
Lemma one_request_per_field i s : tiedOk s -> (length (requestsOf i s) <= 1)%nat.
Proof.
  intros [Hok Ht]. unfold requestsOf.
  destruct (fieldIds s !! i) as [ident |] eqn:Hid.
  - etransitivity; [| apply (one_request s Hok ("__remote_request_" +:+ ident))].
    apply filter_length_le. intros r Hr Hf.
    destruct (Ht r Hr) as (pr & ident' & Hpr & Hid' & Hvia).
    rewrite Hpr in Hf. simpl in Hf. injection Hf as Hf. congruence.
  - rewrite (proj2 (length_zero_iff_nil _)); [lia |].
    apply filter_all_not. intros r Hr Hf.
    destruct (Ht r Hr) as (pr & ident' & Hpr & Hid' & Hvia).
    rewrite Hpr in Hf. simpl in Hf. injection Hf as Hf. congruence.
Qed.


End Remote.

End NetFacts.

(** *** Validation passes *)

Module PassFacts.

Import Text Dom Message Form Loop LoopSpec Views Samples LoopFacts TimerFacts NetFacts.

(** *** The renderer leaves validity alone *)

Lemma classAdd_view k el : validityView (classAdd k el) = validityView el.
Proof. unfold classAdd. now destruct (hasClass k el). Qed.

Lemma setError_view c k el : validityView (setError c k el) = validityView el.
Proof.
  transitivity (validityView (classAdd (inputInvalidClass (opts c)) el));
    [reflexivity | apply classAdd_view].
Qed.

Lemma clearError_view c el : validityView (clearError c el) = validityView el.
Proof.
  unfold clearError. destruct (showSuccessState (opts c)); [| reflexivity].
  now rewrite classAdd_view.
Qed.

Lemma view_customValidity el el' :
  validityView el = validityView el' -> customValidity el = customValidity el'.
Proof. unfold validityView. intros [= Ht Hi Hty Ha Hv Hc Hw Hvi Hn Hcv Hin Hli]. exact Hcv. Qed.

Lemma view_violated el el' :
  validityView el = validityView el' -> violated el = violated el'.
Proof. unfold validityView. intros [= Ht Hi Hty Ha Hv Hc Hw Hvi Hn Hcv Hin Hli]. exact Hvi. Qed.

(** What the message, the selectors and the tests of [validateField] read
    of a control is its validity. *)
Lemma getMessage_view inherited cat el el' k :
  validityView el = validityView el' ->
  getMessage inherited cat el k = getMessage inherited cat el' k.
Proof.
  unfold validityView. intros [= Ht Hi Hty Ha Hv Hc Hw Hvi Hn Hcv Hin Hli].
  unfold getMessage, validationMessage, checkValidity, valid, selectTemplate, templateData,
    getAttribute.
  now rewrite Hty, Ha, Hv, Hw, Hvi, Hn, Hcv.
Qed.

Lemma passedOver_view o el el' :
  validityView el = validityView el' -> passedOver o el = passedOver o el'.
Proof.
  unfold validityView. intros [= Ht Hi Hty Ha Hv Hc Hw Hvi Hn Hcv Hin Hli].
  unfold passedOver, suppressed, unnamed, hasAttribute, getAttribute.
  now rewrite Hty, Ha, Hc.
Qed.

Lemma selected_view el el' :
  validityView el = validityView el' -> selected el = selected el'.
Proof.
  unfold validityView. intros [= Ht Hi Hty Ha Hv Hc Hw Hvi Hn Hcv Hin Hli].
  unfold selected, matchesInvalid, valid. now rewrite Ht, Hw, Hvi, Hcv.
Qed.

Lemma suppressed_view el el' :
  validityView el = validityView el' -> suppressed el = suppressed el'.
Proof.
  unfold validityView. intros [= Ht Hi Hty Ha Hv Hc Hw Hvi Hn Hcv Hin Hli].
  unfold suppressed, hasAttribute, getAttribute. now rewrite Ha.
Qed.

Lemma unnamed_view el el' :
  validityView el = validityView el' -> unnamed el = unnamed el'.
Proof.
  unfold validityView. intros [= Ht Hi Hty Ha Hv Hc Hw Hvi Hn Hcv Hin Hli].
  unfold unnamed, getAttribute. now rewrite Ha.
Qed.

Lemma view_inside el el' : validityView el = validityView el' -> inside el = inside el'.
Proof. unfold validityView. intros [= Ht Hi Hty Ha Hv Hc Hw Hvi Hn Hcv Hin Hli]. exact Hin. Qed.

Lemma view_listed el el' : validityView el = validityView el' -> listed el = listed el'.
Proof. unfold validityView. intros [= Ht Hi Hty Ha Hv Hc Hw Hvi Hn Hcv Hin Hli]. exact Hli. Qed.

Lemma view_tagName el el' : validityView el = validityView el' -> tagName el = tagName el'.
Proof. unfold validityView. intros [= Ht Hi Hty Ha Hv Hc Hw Hvi Hn Hcv Hin Hli]. exact Ht. Qed.

Lemma querySelector_view p l :
  (forall el el', validityView el = validityView el' -> p el = p el') ->
  forall l' k,
    validityView <$> l = validityView <$> l' ->
    match querySelector p k l, querySelector p k l' with
    | Some (i, el), Some (i', el') => i = i' /\ validityView el = validityView el'
    | None, None => True
    | _, _ => False
    end.
Proof.
  intros Hp.
  induction l as [| x l IH]; intros [| x' l'] k Hv; try discriminate; [exact I |].
  rewrite !fmap_cons in Hv.
  assert (validityView x = validityView x') as Hx by congruence.
  assert (validityView <$> l = validityView <$> l') as Hl by congruence.
  simpl. rewrite (Hp _ _ Hx).
  destruct (p x'); [auto | now apply IH].
Qed.

(** [getFirstError] sees the validity of the controls and nothing else. *)
Lemma getFirstError_view o l l' h h' ls ls' a a' :
  validityView <$> l = validityView <$> l' ->
  getFirstError o (Form_ l h ls a) = getFirstError o (Form_ l' h' ls' a').
Proof.
  intros Hv. unfold getFirstError, formQuerySelector. cbn [controls].
  assert (forall el el', validityView el = validityView el' ->
            inside el && selected el = inside el' && selected el') as Hp
      by (intros el el' H; now rewrite (view_inside _ _ H), (selected_view _ _ H)).
  pose proof (querySelector_view (λ el, inside el && selected el) l Hp l' 0 Hv) as Hq.
  destruct (querySelector _ 0 l) as [[i el] |],
           (querySelector _ 0 l') as [[i' el'] |]; try contradiction; [| reflexivity].
  destruct Hq as [-> Hel].
  now rewrite (suppressed_view _ _ Hel), (unnamed_view _ _ Hel).
Qed.

(** *** The shape of a pass *)

(** [validateField] on a control that it does not pass over: the native
    violations are rendered, or else the rules are launched, after the
    display is cleared when the control passes [checkValidity]. *)
Lemma validateField_pass c i s el :
  fields s !! i = Some el ->
  passedOver (opts c) el = false ->
  let g := S (default 0%nat (generation s !! i)) in
  validateField c i s
  = match (if checkValidity el then [] else violated el) with
    | [] =>
        forEach (launch c i g) (rules c)
          (if checkValidity el then doClearError c i (passStart i g s) else passStart i g s)
    | reported =>
        Normal (fold_left (λ acc k, doSetError c i k acc) reported (passStart i g s))
    end.
Proof.
  intros Hel Hp g. unfold passedOver in Hp.
  apply orb_false_iff in Hp as [Hp Hn]. apply orb_false_iff in Hp as [Hp Hs].
  apply orb_false_iff in Hp as [Hc Ht].
  unfold validateField. cbn [fields set_calls]. rewrite Hel, Hc, Ht, Hs, Hn.
  cbn [orb]. fold g. unfold passStart.
  destruct (checkValidity el) eqn:Hv; cbn [negb].
  - rewrite bool_decide_eq_false_2 by (intros H; now apply H). reflexivity.
  - destruct (violated el) as [| k ks] eqn:Hvi.
    + rewrite bool_decide_eq_false_2 by (intros H; now apply H). reflexivity.
    + rewrite bool_decide_eq_true_2 by discriminate. reflexivity.
Qed.

(** [validateField] on a control that it passes over, or on none. *)
Lemma validateField_skip c i s :
  (forall el, fields s !! i = Some el -> passedOver (opts c) el = true) ->
  validateField c i s = Normal (set_calls (calls s ++ [(clock s, i)]) s).
Proof.
  intros Hp. unfold validateField. cbn [fields set_calls].
  destruct (fields s !! i) as [el |] eqn:Hel; [| reflexivity].
  specialize (Hp el eq_refl). unfold passedOver in Hp.
  destruct (negb (constrained el) || bool_decide (Dom.type el ∈ ["button"; "submit"; "reset"]));
    [reflexivity |].
  destruct (suppressed el); [reflexivity |].
  destruct (negb (validateWithoutName (opts c)) && unnamed el); [reflexivity |].
  discriminate.
Qed.

(** *** What a pass does to the fields *)

Lemma doSetError_views c i k s :
  validityView <$> fields (doSetError c i k s) = validityView <$> fields s.
Proof. simpl. apply fmap_alter_same. intros el. apply setError_view. Qed.

Lemma doClearError_views c i s :
  validityView <$> fields (doClearError c i s) = validityView <$> fields s.
Proof. simpl. apply fmap_alter_same. intros el. apply clearError_view. Qed.

Lemma launch_fields c i g s r : fields (after (launch c i g s r)) = fields s.
Proof.
  unfold launch. destruct (fields s !! i); [| reflexivity].
  destruct (hasAttribute _ _); [| reflexivity].
  destruct r.2; [reflexivity | apply remoteRule_fields].
Qed.

Lemma launch_renders c i g s r : renders (after (launch c i g s r)) = renders s.
Proof.
  unfold launch, remoteRule, newPromise. cbn beta iota zeta.
  repeat split_match; reflexivity.
Qed.

Lemma validateField_views c i s :
  validityView <$> fields (after (validateField c i s)) = validityView <$> fields s.
Proof.
  destruct (fields s !! i) as [el |] eqn:Hel.
  2:{ rewrite validateField_skip; [reflexivity |]. intros el. congruence. }
  destruct (passedOver (opts c) el) eqn:Hp.
  { rewrite validateField_skip; [reflexivity |]. intros el' Hel'. congruence. }
  rewrite (validateField_pass c i s el Hel Hp).
  destruct (if checkValidity el then [] else violated el).
  - rewrite (forEach_keeps fields) by (intros; apply launch_fields).
    destruct (checkValidity el); [now rewrite doClearError_views | reflexivity].
  - cbn [after]. rewrite (fold_left_keeps (λ s, validityView <$> fields s))
      by (intros; apply doSetError_views).
    reflexivity.
Qed.


(** *** The remote rule from request to response *)

Lemma remoteRule_handle c i a g s el :
  fields s !! i = Some el ->
  remoteReturns c el a = true ->
  let s' := after (remoteRule c i a g s) in
  remoteRule c i a g s = Normal s'
  /\ handles s' !! handleName el
     = Some (Xhr 1 (Some (nextPromise s,
                          bool_decide (getAttribute el (a +:+ "-reverse") = Some "true"),
                          translate (cat c) "remoteInvalid")))
  /\ busy s' = <[i := "true"]> (busy s)
  /\ renders s' = renders s.
Proof.
  intros Hel Hret s'. subst s'. unfold remoteRule. rewrite Hel.
  unfold remoteReturns in Hret.
  destruct (decodeURIComponent _); [| discriminate].
  apply andb_true_iff in Hret as [-> ->]. cbn [negb].
  unfold handleState. simpl.
  destruct (handles s !! handleName el) as [x |] eqn:Hx; simpl.
  - rewrite Hx. case_bool_decide; simpl.
    + rewrite !lookup_alter_eq, Hx. auto.
    + rewrite !lookup_alter_eq, Hx. auto.
  - rewrite lookup_insert_eq. simpl.
    rewrite ?bool_decide_eq_false_2 by lia. simpl.
    rewrite !lookup_alter_eq, lookup_insert_eq. auto.
Qed.

(** The response to the request that the rule has just sent settles the
    promise of that request by the status, and the callbacks of
    [validateField] run on the control. *)
Lemma remote_response c s i el attribute g status :
  fields s !! i = Some el ->
  remoteReturns c el attribute = true ->
  let h := handleName el in
  let reverse := bool_decide (getAttribute el (attribute +:+ "-reverse") = Some "true") in
  let o := if xorb (status =? 200) reverse then Resolved
           else Rejected (translate (cat c) "remoteInvalid") in
  let s1 := after (remoteRule c i attribute g s) in
  let s2 := step c s1 (Load h status) in
  busy s1 !! i = Some "true"
  /\ applied s2 = applied s ++ [(nextPromise s, o)]
  /\ busy s2 !! i = Some "false"
  /\ fields s2 !! i = Some (afterSettlement c el attribute o)
  /\ renders s2 = renders s ++ [renderOf i o]
  /\ inFlight h s2 = [].
Proof.
  intros Hel Hret h reverse o s1 s2.
  destruct (remoteRule_net c i attribute g s el Hel Hret) as (Hp & Hn & _ & _ & Hnet & Happ).
  destruct (remoteRule_handle c i attribute g s el Hel Hret) as (_ & Hh & Hb & Hr).
  pose proof (remoteRule_fields c i attribute g s) as Hf.
  cbn zeta in *. fold h reverse s1 in Hp, Hn, Hnet, Happ, Hh, Hb, Hr, Hf.
  split; [rewrite Hb; apply lookup_insert_eq |].
  assert (inFlight h s1 <> []) as Hfl.
  { unfold inFlight. rewrite Hnet, filter_app, filter_cons, decide_True by reflexivity.
    intros H. apply app_eq_nil in H as [_ H]. discriminate. }
  subst s2. clearbody s1. simpl. rewrite bool_decide_eq_true_2 by exact Hfl.
  unfold onLoad. simpl. rewrite lookup_alter_eq, Hh. simpl.
  rewrite Hp, lookup_insert_eq. simpl.
  assert ((if reverse then negb (status =? 200) else (status =? 200))
          = xorb (status =? 200) reverse) as ->
      by (destruct reverse, (status =? 200); reflexivity).
  subst o. unfold settle, inFlight.
  destruct (xorb (status =? 200) reverse); simpl;
    rewrite Hp, lookup_insert_eq; simpl;
    rewrite Happ, Hr, Hb, Hf, lookup_insert_eq, !list_lookup_alter_eq, Hel;
    repeat split; auto; apply inFlight_removed.
Qed.

End PassFacts.

(** *** Settlements, debounce, the remote rule *)

Module LoopClaims.

Import Text Dom Message Form Loop LoopSpec Views Samples LoopFacts NetFacts PassFacts.

(** C1, the claim as stated fails.  Two changes start two passes on the
    first field, each launching the rule [available]; the promise of the
    second pass resolves, then the promise of the first pass is rejected.
    The late rejection is not discarded: it calls [setError], and the
    field ends up invalid with the message of the first pass. *)
Lemma stale_settlement_overrides :
  let s1 := run sampleConfig (initial samplePage) [change 0; change 0; Settle 1 Resolved] in
  let s2 := step sampleConfig s1 (Settle 0 (Rejected (Some "taken"))) in
  pass <$> promises s1 !! 0%nat = Some 1%nat
  /\ generation s1 !! 0%nat = Some 2%nat
  /\ (customValidity <$> fields s1 !! 0%nat, feedback <$> fields s1 !! 0%nat,
      classList <$> fields s1 !! 0%nat)
     = (Some "", Some "", Some ["is-valid"])
  /\ (customValidity <$> fields s2 !! 0%nat, feedback <$> fields s2 !! 0%nat,
      classList <$> fields s2 !! 0%nat)
     = (Some "taken", Some "taken", Some ["is-invalid"])
  /\ renders s2 = renders s1 ++ [SetError 0 "customError"]
  /\ fields s2 <> fields s1.
Proof.
  intros s1 s2.
  do 5 (split; [vm_compute; reflexivity |]).
  intros H. apply (f_equal (λ l, feedback <$> l !! 0%nat)) in H.
  vm_compute in H. discriminate.
Qed.

(** C1, amended.  The code keeps no generation: when the promise of a
    custom rule settles after a later pass has started on its field, its
    callbacks run like those of any other settlement.  The field takes the
    custom validity, classes and feedback of that settlement, the render
    call is made, and an earlier outcome of a later pass is overwritten. *)
Theorem stale_settlement_applied (c : config) (s : state) (p : nat) (pr : promise)
    (o : outcome) (el : element) :
  promises s !! p = Some pr ->
  ofRule pr = CustomRule ->
  settled pr = false ->
  fields s !! onField pr = Some el ->
  stale pr s ->
  let s' := step c s (Settle p o) in
  fields s' !! onField pr = Some (afterSettlement c el (forAttribute pr) o)
  /\ renders s' = renders s ++ [renderOf (onField pr) o]
  /\ applied s' = applied s ++ [(p, o)].
Proof.
  intros Hp Hrule Hset Hel _. simpl. rewrite Hp, Hrule.
  unfold settle. rewrite Hp, Hset.
  destruct o as [| err]; simpl; rewrite !list_lookup_alter_eq, Hel; auto.
Qed.

Lemma stale_settlement_applied_witness :
  let s := run sampleConfig (initial samplePage) [change 0; change 0; Settle 1 Resolved] in
  let s' := step sampleConfig s (Settle 0 (Rejected (Some "taken"))) in
  stale (Promise 0 "data-eager-available" CustomRule 1 false) s
  /\ renders s' = renders s ++ [SetError 0 "customError"].
Proof.
  intros s s'.
  assert (stale (Promise 0 "data-eager-available" CustomRule 1 false) s) as Hst
      by (vm_compute; lia).
  split; [exact Hst |].
  refine (proj1 (proj2 (stale_settlement_applied sampleConfig s 0
                          (Promise 0 "data-eager-available" CustomRule 1 false)
                          (Rejected (Some "taken"))
                          (clearError sampleConfig (textInput "a" [("data-eager-available", "1")]))
                          _ _ _ _ Hst))).
  all: vm_compute; reflexivity.
Defined.

(** The debounce helper does coalesce the calls of one closure: two calls
    ten milliseconds apart give one invocation, after the second. *)
Lemma debounced_closure_coalesces :
  let s0 := (makeDebounced 100 (initial samplePage)).1 in
  let s1 := callDebounced 0 0 s0 in
  let s2 := callDebounced 0 0 (Nat.iter 10 (tick sampleConfig) s1) in
  calls (Nat.iter 200 (tick sampleConfig) s2) = [(110%nat, 0%nat)].
Proof. vm_compute. reflexivity. Qed.

(** C2.  The claim: N rapid occurrences within the debounce window give
    one invocation, after the quiet period that follows the last.  On a
    field with [data-eager-debounce="300"], three input events at 0, 50
    and 100 ms give three invocations of [validateField], at 300, 350 and
    400 ms: [handleInput] wraps the callback in a new debounced closure at
    every event, so each closure is called once, each starts a timer of
    its own, and no timer is reset. *)
Theorem debounce_invokes_per_event :
  let s := run sampleConfig (initial typingPage) [input 0; Wait 50; input 0; Wait 50; input 0] in
  (forall el, typingPage !! 0%nat = Some el -> bounceOf sampleConfig el "input" = Some 300)
  /\ timers s = [ Timer 0 300 (TimerExpired 0);
                  Timer 1 350 (TimerExpired 1);
                  Timer 2 400 (TimerExpired 2) ]
  /\ calls (run sampleConfig s [Wait 1000])
     = [(300%nat, 0%nat); (350%nat, 0%nat); (400%nat, 0%nat)].
Proof.
  intros s.
  split; [intros el [= <-]; vm_compute; reflexivity |].
  split; vm_compute; reflexivity.
Qed.

(** C4.  At any time at most one request of the remote rule is in flight
    for a field, and at most one per handle.  When the rule is called for
    a field and gets to send its request, that request is afterwards the
    only one in flight for the field and on the field's handle; a request
    that was in flight there has been aborted and its promise is never
    settled, whatever happens next; and when the response arrives exactly
    one outcome is applied, that of the new request: the callbacks of
    [validateField] set the custom validity of the field and make one
    render call.  When the call throws instead (the endpoint cannot be
    decoded, or the platform refuses the request), it makes no promise
    and sends no request, and no outcome is applied. *)
Theorem remote_one_in_flight (c : config) (els : list element) (s : state) :
  reachable c els s ->
  (forall i, (length (requestsOf i s) <= 1)%nat)
  /\ (forall h, (length (inFlight h s) <= 1)%nat)
  /\ (forall i el attribute g,
        fields s !! i = Some el ->
        remoteReturns c el attribute = true ->
        let h := handleName el in
        let s' := after (remoteRule c i attribute g s) in
        remoteRule c i attribute g s = Normal s'
        /\ inFlight h s' = [Request h (nextPromise s)]
        /\ requestsOf i s' = [Request h (nextPromise s)]
        /\ (forall r, r ∈ requestsOf i s -> r ∈ inFlight h s)
        /\ (forall r, r ∈ inFlight h s ->
              forall tr, pendingRemote (answers r) (run c s' tr)
                         /\ ~ appliedTo (answers r) (run c s' tr))
        /\ (forall status, exists o,
              let s'' := step c s' (Load h status) in
              applied s'' = applied s ++ [(nextPromise s, o)]
              /\ fields s'' !! i = Some (afterSettlement c el attribute o)
              /\ renders s'' = renders s ++ [renderOf i o]
              /\ inFlight h s'' = []))
  /\ (forall i el attribute g,
        fields s !! i = Some el ->
        remoteReturns c el attribute = false ->
        let s' := after (remoteRule c i attribute g s) in
        threw (remoteRule c i attribute g s) = true
        /\ promises s' = promises s
        /\ applied s' = applied s
        /\ (forall r, r ∈ network s' -> r ∈ network s)).
Proof.
  intros Hr. pose proof (reachable_netOk c els s Hr) as Hok.
  pose proof (reachable_tiedOk c els s Hr) as [_ Htied].
  split; [intros i; apply one_request_per_field, (reachable_tiedOk c els), Hr |].
  split; [apply (one_request s Hok) |].
  split.
  2:{ intros i el attribute g Hel Hret s'.
      destruct (remoteRule_abrupt c i attribute g s el Hel Hret)
        as (Hp & _ & Ha & _ & _ & _ & Hnet).
      fold s' in Hp, Ha, Hnet.
      split; [now rewrite (remoteRule_threw c i attribute g s el Hel), Hret |].
      split; [exact Hp | split; [exact Ha |]].
      intros r Hin. destruct Hnet as [[Hnet _] | Hnet]; rewrite Hnet in Hin; [exact Hin |].
      now apply list_elem_of_filter in Hin as [_ Hin]. }
  intros i el attribute g Hel Hret h s'.
  pose proof (remoteRule_network c i attribute g s el Hok Hel Hret) as Hnet.
  destruct (remoteRule_net c i attribute g s el Hel Hret)
    as (Hp & Hn & (rv & m & Hh) & Hother & _ & Happ).
  destruct (remoteRule_handle c i attribute g s el Hel Hret) as (Hnormal & _).
  fold h in Hnet, Hh, Hother. fold s' in Hnet, Hp, Hn, Hh, Hother, Happ, Hnormal.
  assert (inFlight h s' = [Request h (nextPromise s)]) as Hfl.
  { unfold inFlight. rewrite Hnet, filter_app, inFlight_removed.
    now rewrite filter_cons, decide_True. }
  assert (forall r, r ∈ network s ->
            onField <$> promises s !! answers r = Some i -> via r = h) as Hmine.
  { intros r Hin Hf. destruct (Htied r Hin) as (pr & ident & Hpr & Hid & Hvia).
    rewrite Hpr in Hf. injection Hf as Hf. rewrite Hf in Hid.
    unfold fieldIds in Hid. rewrite list_lookup_fmap, Hel in Hid.
    injection Hid as <-. exact Hvia. }
  split; [exact Hnormal |].
  split; [exact Hfl |].
  split; [| split; [| split]].
  - unfold requestsOf. rewrite Hnet, filter_app, Hp.
    rewrite filter_cons, decide_True by (simpl; now rewrite lookup_insert_eq).
    rewrite filter_all_not; [reflexivity |].
    intros r [Hne Hin]%list_elem_of_filter Hf. apply Hne, Hmine; [exact Hin |].
    destruct (request_ok s Hok r Hin) as (Hl & _).
    pose proof (listener_bound s Hok _ _ Hl).
    now rewrite lookup_insert_ne in Hf by lia.
  - intros r [Hf Hin]%list_elem_of_filter. apply list_elem_of_filter. split; [| exact Hin].
    now apply Hmine.
  - intros r [Hvia Hin]%list_elem_of_filter tr.
    assert (orphan (answers r) s') as Ho.
    { destruct (request_ok s Hok r Hin) as (Hl & _ & Hpend & Ha).
      pose proof (listener_bound s Hok _ _ Hl) as Hb.
      split; [| split; [| split]].
      - now apply (remoteRule_pending c _ _ _ _ el).
      - rewrite Hn. lia.
      - unfold appliedTo. now rewrite Happ.
      - intros h0 [[_ Hq] | [Hne Hl0]]%(remoteRule_listensFor c i attribute g s el); auto.
        + lia.
        + rewrite Hvia in Hl. now pose proof (one_handle s Hok _ _ _ Hl0 Hl). }
    destruct (run_orphan c (answers r) tr s' Ho) as (H1 & _ & H3 & _). auto.
  - intros status.
    destruct (remote_response c s i el attribute g status Hel Hret)
      as (_ & H1 & _ & H2 & H3 & H4).
    eexists. cbn zeta. split; [exact H1 | split; [exact H2 | split; [exact H3 | exact H4]]].
Qed.

Lemma remote_one_in_flight_witness :
  let s := run sampleConfig (initial samplePage) [change 1; Progress "__remote_request_b" 2] in
  reachable sampleConfig samplePage s
  /\ requestsOf 1 s = [Request "__remote_request_b" 0]
  /\ (forall i, (length (requestsOf i s) <= 1)%nat).
Proof.
  intros s.
  assert (reachable sampleConfig samplePage s) as Hr by (eexists; reflexivity).
  split; [exact Hr | split; [vm_compute; reflexivity |]].
  exact (proj1 (remote_one_in_flight sampleConfig samplePage s Hr)).
Defined.




End LoopClaims.

(** * Further properties *)

(** ** [unicodeStrLen]: what it counts *)

Module UnicodeMore.

Import Unicode UnicodeFacts.

(** Leaving out the first unit never adds a code point. *)
Lemma codePointCount_tail c rest :
  (codePointCount rest <= codePointCount (c :: rest))%nat.
Proof.
  destruct rest as [| d rest']; [simpl; lia |].
  change (codePointCount (c :: d :: rest'))
    with (if isHigh c && isLow d then S (codePointCount rest')
          else S (codePointCount (d :: rest'))).
  destruct (isHigh c && isLow d) eqn:Hp; [| lia].
  apply andb_true_iff in Hp as [_ Hd].
  assert (isHigh d = false) as Hh by classes.
  destruct rest' as [| e rest'']; [simpl; lia |].
  change (codePointCount (d :: e :: rest''))
    with (if isHigh d && isLow e then S (codePointCount rest'')
          else S (codePointCount (e :: rest''))).
  rewrite Hh. simpl. lia.
Qed.

Lemma codePointCount_cons c rest :
  (codePointCount (c :: rest) <= S (codePointCount rest))%nat.
Proof.
  destruct rest as [| d rest']; [simpl; lia |].
  change (codePointCount (c :: d :: rest'))
    with (if isHigh c && isLow d then S (codePointCount rest')
          else S (codePointCount (d :: rest'))).
  destruct (isHigh c && isLow d); [| lia].
  pose proof (codePointCount_tail d rest'). lia.
Qed.

(** What one successful attempt consumes holds at least one code point. *)
Lemma execAt_codePoints atStart s n :
  execAt atStart s = Some n ->
  (S (codePointCount (drop n s)) <= codePointCount s)%nat.
Proof.
  destruct s as [| c rest]; [discriminate |].
  assert (isHigh c = false -> S (codePointCount rest) <= codePointCount (c :: rest))%nat
    as Hsingle.
  { intros Hh. destruct rest as [| d rest']; [simpl; lia |].
    change (codePointCount (c :: d :: rest'))
      with (if isHigh c && isLow d then S (codePointCount rest')
            else S (codePointCount (d :: rest'))).
    rewrite Hh. simpl. lia. }
  unfold execAt, alt_plain, alt_pair, alt_lone_high, alt_lone_low.
  destruct (isPlain c) eqn:Hp.
  - intros [= <-]. rewrite skipn_cons, drop_0. now apply Hsingle, plain_not_high.
  - destruct rest as [| d rest'].
    + destruct (isHigh c); simpl.
      * intros [= <-]. simpl. lia.
      * destruct (atStart && isLow c); [intros [= <-]; simpl; lia | discriminate].
    + change (codePointCount (c :: d :: rest'))
        with (if isHigh c && isLow d then S (codePointCount rest')
              else S (codePointCount (d :: rest'))) in *.
      clear Hsingle. destruct (isHigh c) eqn:Hh, (isLow d) eqn:Hd; cbn [andb negb].
      * intros [= <-]. rewrite !skipn_cons, drop_0. lia.
      * intros [= <-]. rewrite !skipn_cons, drop_0. lia.
      * intros [= <-]. rewrite !skipn_cons, drop_0.
        pose proof (codePointCount_tail d rest'). lia.
      * destruct (atStart && isLow c); [| discriminate].
        intros [= <-]. rewrite !skipn_cons, drop_0. lia.
Qed.

Lemma matchAll_le_codePoints fuel :
  forall s atStart, (length (matchAll fuel atStart s) <= codePointCount s)%nat.
Proof.
  induction fuel as [| fuel IH]; intros s atStart; [simpl; lia |].
  destruct s as [| c rest]; [simpl; lia |].
  cbn [matchAll]. destruct (execAt atStart (c :: rest)) as [n |] eqn:He.
  - apply execAt_codePoints in He. cbn [length].
    pose proof (IH (drop n (c :: rest)) false). lia.
  - pose proof (IH rest false). pose proof (codePointCount_tail c rest). lia.
Qed.

Lemma codePointCount_le_length s : (codePointCount s <= length s)%nat.
Proof.
  induction s as [| c rest IH]; [simpl; lia |].
  pose proof (codePointCount_cons c rest). simpl length. lia.
Qed.

(** X1.  On a value in which every low surrogate follows a high surrogate
    that it pairs with, [unicodeStrLen] is the number of code points: a
    surrogate pair counts once, every other code unit, an unpaired high
    surrogate included, counts once. *)
Theorem unicodeStrLen_counts_code_points (str : DOMString) :
  Forall validUnit str -> noLoneLow str = true ->
  unicodeStrLen str = codePointCount str.
Proof.
  intros Hvalid Hwf. destruct str as [| c rest]; [reflexivity |].
  unfold unicodeStrLen, matches. now apply matchAll_codePoints.
Qed.

Lemma unicodeStrLen_counts_code_points_witness :
  Forall validUnit [0x61; 0xD83D; 0xDE00; 0xD800]
  /\ noLoneLow [0x61; 0xD83D; 0xDE00; 0xD800] = true
  /\ unicodeStrLen [0x61; 0xD83D; 0xDE00; 0xD800] = 3%nat.
Proof.
  assert (Forall validUnit [0x61; 0xD83D; 0xDE00; 0xD800]) as Hv
      by (repeat constructor; unfold validUnit; lia).
  assert (noLoneLow [0x61; 0xD83D; 0xDE00; 0xD800] = true) as Hw by reflexivity.
  split; [exact Hv | split; [exact Hw |]].
  rewrite (unicodeStrLen_counts_code_points _ Hv Hw). reflexivity.
Defined.

(** X2.  Whatever the value, lone surrogates included, [unicodeStrLen]
    never counts more than the code points of the value, and so never
    more than its code units: when it is wrong it is too small. *)
Theorem unicodeStrLen_never_exceeds (str : DOMString) :
  (unicodeStrLen str <= codePointCount str)%nat
  /\ (unicodeStrLen str <= codeUnitLength str)%nat.
Proof.
  assert (unicodeStrLen str <= codePointCount str)%nat as H.
  { destruct str as [| c rest]; [simpl; lia |].
    unfold unicodeStrLen, matches. apply matchAll_le_codePoints. }
  split; [exact H |].
  pose proof (codePointCount_le_length str). unfold codeUnitLength. lia.
Qed.

End UnicodeMore.

(** ** [strtpl], [translateNumbers] and the text of a message *)

Module MessageMore.

Import Text Dom Message Views Samples.

Lemma app_nil_s (u : string) : "" +:+ u = u.
Proof. reflexivity. Qed.

Lemma app_cons_s a (s u : string) : String a s +:+ u = String a (s +:+ u).
Proof. reflexivity. Qed.

Lemma app_empty_r (s : string) : s +:+ "" = s.
Proof. induction s as [| a s IH]; [reflexivity | now rewrite app_cons_s, IH]. Qed.

Lemma app_assoc_s (s t u : string) : (s +:+ t) +:+ u = s +:+ (t +:+ u).
Proof. induction s as [| a s IH]; [reflexivity | now rewrite !app_cons_s, IH]. Qed.

Lemma length_app_s (s t : string) :
  String.length (s +:+ t) = (String.length s + String.length t)%nat.
Proof.
  induction s as [| a s IH]; [reflexivity |].
  rewrite app_cons_s. simpl. now rewrite IH.
Qed.

(** *** [span] *)

Lemma span_eq p s : s = (span p s).1 +:+ (span p s).2.
Proof.
  induction s as [| a s IH]; [reflexivity |].
  simpl. destruct (p a); [| reflexivity].
  destruct (span p s) as [h t]. simpl in *. now rewrite app_cons_s, <- IH.
Qed.

(** A text all of whose characters satisfy [p], followed by a text that
    does not start with one, is split where they meet. *)
Lemma span_all p h t :
  allChars p h = true ->
  match t with EmptyString => True | String a _ => p a = false end ->
  span p (h +:+ t) = (h, t).
Proof.
  intros Hh Ht. induction h as [| a h IH].
  - rewrite app_nil_s. destruct t as [| b t]; [reflexivity |]. simpl. now rewrite Ht.
  - simpl in Hh. apply andb_true_iff in Hh as [Ha Hh].
    rewrite app_cons_s. simpl. now rewrite Ha, (IH Hh).
Qed.

Lemma space_not_name a : isSpace a = true -> isNameChar a = false.
Proof.
  unfold isNameChar, isWord, isSpace, isUpper, isLower, isDigit, code.
  repeat match goal with
    | |- context [(?a <=? ?b)%N] => destruct (N.leb_spec a b)
    | |- context [(?a =? ?b)%N] => destruct (N.eqb_spec a b)
    end; simpl; try congruence; try lia.
Qed.

Lemma name_not_space a : isNameChar a = true -> isSpace a = false.
Proof.
  intros H. destruct (isSpace a) eqn:E; [| reflexivity].
  apply space_not_name in E. congruence.
Qed.

(** *** [strtpl] *)

Section Templates.

Variable inherited : string -> option string.
Variable data : gmap string jsval.

Lemma strtplFrom_empty fuel : strtplFrom inherited fuel "" data = "".
Proof. destruct fuel; reflexivity. Qed.

Lemma placeholderAt_shorter text contents rest :
  placeholderAt text = Some (contents, rest) ->
  (String.length rest < String.length text)%nat.
Proof.
  destruct text as [| a s1]; [discriminate |].
  unfold placeholderAt.
  destruct (Ascii.eqb_spec a "{"%char) as [-> | Hne].
  - pose proof (span_eq isSpace s1) as E1.
    destruct (span isSpace s1) as [ws1 s2]. simpl in E1.
    pose proof (span_eq isNameChar s2) as E2.
    destruct (span isNameChar s2) as [name s3]. simpl in E2.
    pose proof (span_eq isSpace s3) as E3.
    destruct (span isSpace s3) as [ws2 s4]. simpl in E3.
    destruct name as [| n name]; [discriminate |].
    destruct s4 as [| b s5]; [discriminate |].
    destruct (Ascii.eqb_spec b "}"%char) as [-> | Hb].
    + intros [= <- <-]. subst s1 s2 s3.
      simpl. rewrite !length_app_s. simpl. lia.
    + intros H. exfalso. revert H.
      destruct b as [[] [] [] [] [] [] [] []]; try discriminate. now destruct Hb.
  - intros H. exfalso. revert H.
    destruct a as [[] [] [] [] [] [] [] []]; try discriminate. now destruct Hne.
Qed.

(** More fuel than the text is long changes nothing. *)
Lemma strtplFrom_fuel n :
  forall text f1 f2,
    (String.length text <= n)%nat ->
    (String.length text <= f1)%nat -> (String.length text <= f2)%nat ->
    strtplFrom inherited f1 text data = strtplFrom inherited f2 text data.
Proof.
  induction n as [| n IH]; intros text f1 f2 Hn H1 H2.
  - destruct text; [now rewrite !strtplFrom_empty | simpl in Hn; lia].
  - destruct text as [| a r]; [now rewrite !strtplFrom_empty |].
    destruct f1 as [| f1]; [simpl in H1; lia |].
    destruct f2 as [| f2]; [simpl in H2; lia |].
    cbn [strtplFrom].
    destruct (placeholderAt (String a r)) as [[contents rest] |] eqn:Hp.
    + apply placeholderAt_shorter in Hp. simpl in *.
      f_equal. apply IH; lia.
    + f_equal. simpl in *. apply IH; lia.
Qed.

(** Up to the first opening brace the text is copied. *)
Lemma strtplFrom_prefix pre :
  forall fuel t,
    occurs "{" pre = false ->
    strtplFrom inherited fuel (pre +:+ t) data
    = pre +:+ strtplFrom inherited (fuel - String.length pre) t data.
Proof.
  induction pre as [| a pre IH]; intros fuel t Hpre.
  - rewrite !app_nil_s. simpl. now rewrite Nat.sub_0_r.
  - simpl in Hpre. apply orb_false_iff in Hpre as [Ha Hpre].
    rewrite !app_cons_s.
    destruct fuel as [| fuel].
    + simpl. destruct t; reflexivity.
    + cbn [strtplFrom String.length Nat.sub].
      assert (placeholderAt (String a (pre +:+ t)) = None) as ->.
      { unfold placeholderAt.
        destruct a as [[] [] [] [] [] [] [] []]; try reflexivity. discriminate. }
      now rewrite IH.
Qed.

(** A placeholder is recognised with the white space it holds. *)
Lemma placeholderAt_placeholder ws1 name ws2 post :
  allChars isSpace ws1 = true -> allChars isNameChar name = true -> name <> "" ->
  allChars isSpace ws2 = true ->
  placeholderAt ("{" +:+ ws1 +:+ name +:+ ws2 +:+ "}" +:+ post)
  = Some (ws1 +:+ name +:+ ws2, post).
Proof.
  intros H1 Hn Hne H2.
  destruct name as [| n name]; [congruence |].
  simpl in Hn. apply andb_true_iff in Hn as [Hn0 Hn].
  rewrite app_cons_s, app_nil_s. unfold placeholderAt.
  rewrite (span_all isSpace ws1 _ H1) by (now apply name_not_space).
  rewrite app_cons_s. cbn [span]. rewrite Hn0.
  rewrite (span_all isNameChar name _ Hn).
  2:{ destruct ws2 as [| w ws2]; [reflexivity |].
      simpl in H2. apply andb_true_iff in H2 as [Hw _].
      rewrite app_cons_s. now apply space_not_name. }
  rewrite (span_all isSpace ws2 _ H2) by reflexivity.
  rewrite app_cons_s, app_nil_s. reflexivity.
Qed.

End Templates.

Lemma strtpl_copy (inherited : string -> option string) (text : string)
    (replacements : gmap string jsval) :
  occurs "{" text = false ->
  strtpl inherited text replacements = text.
Proof.
  intros H. unfold strtpl.
  rewrite <- (app_empty_r text) at 2.
  rewrite (strtplFrom_prefix inherited replacements text _ "" H).
  now rewrite strtplFrom_empty, app_empty_r.
Qed.

Lemma strtpl_step (inherited : string -> option string)
    (replacements : gmap string jsval) (pre ws1 name ws2 post : string) :
  occurs "{" pre = false ->
  allChars isSpace ws1 = true -> allChars isNameChar name = true -> name <> "" ->
  allChars isSpace ws2 = true ->
  strtpl inherited (pre +:+ "{" +:+ ws1 +:+ name +:+ ws2 +:+ "}" +:+ post) replacements
  = pre +:+ replacer inherited replacements (ws1 +:+ name +:+ ws2)
        +:+ strtpl inherited post replacements.
Proof.
  intros Hpre H1 Hn Hne H2. unfold strtpl.
  rewrite (strtplFrom_prefix inherited replacements pre _ _ Hpre).
  f_equal.
  rewrite length_app_s.
  pose proof (placeholderAt_placeholder ws1 name ws2 post H1 Hn Hne H2) as Hph.
  revert Hph. rewrite (app_cons_s "{"), app_nil_s. intros Hph.
  replace (String.length pre + String.length (String "{" (ws1 +:+ name +:+ ws2 +:+ "}" +:+ post))
           - String.length pre)%nat
    with (S (String.length (ws1 +:+ name +:+ ws2 +:+ "}" +:+ post)))
    by (simpl; lia).
  cbn [strtplFrom]. rewrite Hph.
  f_equal.
  apply (strtplFrom_fuel inherited replacements (String.length post)); [lia | | lia].
  rewrite !length_app_s. lia.
Qed.

(** X3.  A text without an opening brace comes out of [strtpl] as it
    went in, whatever the replacements. *)
Theorem strtpl_plain_text (inherited : string -> option string) (text : string)
    (replacements : gmap string jsval) :
  occurs "{" text = false ->
  strtpl inherited text replacements = text.
Proof. apply strtpl_copy. Qed.

Lemma strtpl_plain_text_witness :
  occurs "{" "Please fill out this field." = false
  /\ strtpl noInherited "Please fill out this field." ∅ = "Please fill out this field.".
Proof.
  assert (occurs "{" "Please fill out this field." = false) as H by reflexivity.
  split; [exact H |].
  exact (strtpl_plain_text noInherited "Please fill out this field." ∅ H).
Defined.

(** X4.  [strtpl] works from left to right: the text before the first
    opening brace is copied; a placeholder (a brace, optional white space,
    a name of word characters and dots, optional white space, a closing
    brace) is replaced by what the replacer gives for its contents, white
    space included, and that text is not scanned again; what follows the
    placeholder is treated in the same way. *)
Theorem strtpl_first_placeholder (inherited : string -> option string)
    (replacements : gmap string jsval) (pre ws1 name ws2 post : string) :
  occurs "{" pre = false ->
  allChars isSpace ws1 = true -> allChars isNameChar name = true -> name <> "" ->
  allChars isSpace ws2 = true ->
  strtpl inherited (pre +:+ "{" +:+ ws1 +:+ name +:+ ws2 +:+ "}" +:+ post) replacements
  = pre +:+ replacer inherited replacements (ws1 +:+ name +:+ ws2)
        +:+ strtpl inherited post replacements.
Proof. apply strtpl_step. Qed.

Lemma strtpl_first_placeholder_witness :
  strtpl noInherited "Use { count } of {maxlength}." {[ "maxlength" := JString "3" ]}
  = "Use  of 3.".
Proof.
  etransitivity.
  - exact (strtpl_first_placeholder noInherited {[ "maxlength" := JString "3" ]}
             "Use " " " "count" " " " of {maxlength}."
             eq_refl eq_refl eq_refl ltac:(discriminate) eq_refl).
  - vm_compute. reflexivity.
Defined.

(** *** [translateNumbers] *)

Lemma mapChars_app f (s t : string) : mapChars f (s +:+ t) = mapChars f s +:+ mapChars f t.
Proof.
  induction s as [| a s IH]; [reflexivity |].
  rewrite app_cons_s. simpl. now rewrite IH, app_assoc_s.
Qed.

Lemma mapChars_mapChars f g (s : string) :
  mapChars g (mapChars f s) = mapChars (λ a, mapChars g (f a)) s.
Proof.
  induction s as [| a s IH]; [reflexivity |].
  simpl. now rewrite mapChars_app, IH.
Qed.

Lemma mapChars_ext f g (s : string) :
  (forall a, occurs a s = true -> f a = g a) -> mapChars f s = mapChars g s.
Proof.
  induction s as [| a s IH]; intros H; [reflexivity |].
  simpl. rewrite (H a) by (simpl; now rewrite Ascii.eqb_refl).
  rewrite IH; [reflexivity |].
  intros b Hb. apply H. simpl. rewrite Hb. now destruct (Ascii.eqb b a).
Qed.

Lemma mapChars_single (s : string) : mapChars (λ a, String a "") s = s.
Proof. induction s as [| a s IH]; [reflexivity |]. simpl. now rewrite IH. Qed.

Lemma allChars_spec p (s : string) :
  allChars p s = true -> forall a, occurs a s = true -> p a = true.
Proof.
  induction s as [| b s IH]; intros H a Ha; [discriminate |].
  simpl in *. apply andb_true_iff in H as [Hb Hs].
  apply orb_true_iff in Ha as [Ha | Ha]; [| now apply IH].
  apply Ascii.eqb_eq in Ha. now subst.
Qed.

(** Replacing a character everywhere is replacing it in each place. *)
Lemma replaceAllFrom_char fuel c v :
  forall s, (String.length s <= fuel)%nat ->
    replaceAllFrom fuel (String c "") v s
    = mapChars (λ a, if Ascii.eqb c a then v else String a "") s.
Proof.
  induction fuel as [| fuel IH]; intros s Hlen.
  - destruct s; [reflexivity | simpl in Hlen; lia].
  - destruct s as [| a s]; [reflexivity |].
    simpl in Hlen. cbn [replaceAllFrom stripPrefix mapChars].
    destruct (Ascii.eqb c a).
    + now rewrite IH by lia.
    + rewrite app_cons_s, app_nil_s. now rewrite IH by lia.
Qed.

Lemma substChar_not_key table a :
  isKey table a = false -> substChar table a = String a "".
Proof.
  unfold isKey. rewrite bool_decide_eq_false.
  induction table as [| [k v] table IH]; intros H; [reflexivity |].
  simpl in *. case_bool_decide as Hk.
  - exfalso. apply H. subst k. left.
  - apply IH. intros Hin. apply H. now right.
Qed.

Lemma isKey_cons kv table a : isKey (kv :: table) a = false -> isKey table a = false.
Proof.
  unfold isKey. rewrite !bool_decide_eq_false. intros H Hin. apply H.
  rewrite fmap_cons. now right.
Qed.

(** The replacements of the table, made one after the other on the whole
    text, are the replacement of each character by its entry. *)
Lemma fold_replaceAll table :
  forall s,
    Forall (λ kv, (String.length kv.1 =? 1)%nat = true
                  /\ allChars (λ a, negb (isKey table a)) kv.2 = true) table ->
    fold_left (λ str '(x, y), replaceAll x y str) table s
    = mapChars (substChar table) s.
Proof.
  induction table as [| [k v] table IH]; intros s Hok.
  - simpl. now rewrite mapChars_single.
  - apply Forall_cons in Hok as [[Hk Hv] Hrest]. simpl in Hk, Hv.
    destruct k as [| c [| ? ?]]; try discriminate.
    cbn [fold_left]. rewrite IH.
    + unfold replaceAll. rewrite replaceAllFrom_char by lia.
      rewrite mapChars_mapChars. apply mapChars_ext. intros a _.
      cbn [substChar]. destruct (Ascii.eqb_spec c a) as [-> | Hne].
      * rewrite bool_decide_eq_true_2 by reflexivity.
        rewrite <- (mapChars_single v) at 2. apply mapChars_ext.
        intros b Hb. apply substChar_not_key.
        pose proof (allChars_spec _ _ Hv b Hb) as Hnk.
        apply negb_true_iff in Hnk. now apply isKey_cons in Hnk.
      * rewrite bool_decide_eq_false_2 by congruence.
        simpl. now rewrite app_empty_r.
    + eapply Forall_impl; [exact Hrest |].
      intros [k' v'] [Hk' Hv']. split; [exact Hk' |].
      simpl in *. clear -Hv'. induction v' as [| b v' IHv]; [reflexivity |].
      simpl in *. apply andb_true_iff in Hv' as [Hb Hv'].
      apply negb_true_iff in Hb. apply isKey_cons in Hb.
      now rewrite Hb, IHv.
Qed.

(** X5.  With a table of localized digits (each key one Latin digit, no
    value holding a key of the table or a dollar sign, which the
    replacement would read as a pattern), [translateNumbers] turns a number
    or a text into the text in which every digit of the table is replaced
    by its entry and every other character is kept: the replacements,
    made one key after the other, do not interfere. *)
Theorem translateNumbers_each_character (cat : catalog) (v : jsval) :
  digitTable (numbers cat) = true ->
  v <> JUndefined -> v <> JNull ->
  translateNumbers cat v = JString (mapChars (substChar (numbers cat)) (toString v)).
Proof.
  intros Htable Hu Hn. unfold digitTable in Htable.
  apply andb_true_iff in Htable as [Hk Hv].
  rewrite forallb_forall in Hk, Hv.
  assert (translateNumbers cat v
          = JString (fold_left (λ str '(x, y), replaceAll x y str) (numbers cat) (toString v)))
    as -> by (destruct v; [congruence | congruence | reflexivity | reflexivity]).
  f_equal. apply fold_replaceAll.
  apply Forall_forall. intros kv Hin. apply list_elem_of_In in Hin.
  split.
  - specialize (Hk kv Hin). destruct kv.1 as [| a [| ? ?]]; try discriminate. reflexivity.
  - specialize (Hv kv Hin). clear -Hv.
    induction kv.2 as [| b w IH]; [reflexivity |].
    simpl in *. apply andb_true_iff in Hv as [Hb Hw].
    apply andb_true_iff in Hb as [Hb _]. now rewrite Hb, IH.
Qed.

Lemma translateNumbers_each_character_witness :
  let cat := Catalog ∅ [("0", "o"); ("1", "i"); ("2", "ii")] in
  digitTable (numbers cat) = true
  /\ translateNumbers cat (JNumber 2021) = JString "iioiii".
Proof.
  intros cat.
  assert (digitTable (numbers cat) = true) as H by reflexivity.
  split; [exact H |].
  etransitivity.
  - apply (translateNumbers_each_character cat (JNumber 2021) H); discriminate.
  - vm_compute. reflexivity.
Defined.

(** *** The message of a text that is too long *)

(** X6.  In the English catalog, for a field without inline error text
    and with a [maxlength] attribute, the message for [tooLong] is the
    sentence of the catalog with the attribute as it is written and the
    length of the value as [unicodeStrLen] counts it, in decimal. *)
Theorem getMessage_tooLong_english (inherited : string -> option string) (el : element)
    (m : string) :
  Claimed.noInlineText el "tooLong" ->
  getAttribute el "maxlength" = Some m ->
  getMessage inherited enLocale el "tooLong"
  = "Please shorten this text to " +:+ m
      +:+ " characters or less (you are currently using "
      +:+ pretty (Unicode.unicodeStrLen (value el)) +:+ " characters).".
Proof.
  intros Hinline Hm. unfold getMessage.
  rewrite bool_decide_eq_false_2 by discriminate.
  assert (selectTemplate enLocale el "tooLong"
          = Some "Please shorten this text to {maxlength} characters or less (you are currently using {count} characters).")
    as ->.
  { unfold selectTemplate, Claimed.noInlineText in *.
    destruct Hinline as [-> | [-> [-> | ->]]]; reflexivity. }
  assert (templateData enLocale el !! "maxlength" = Some (JString m)) as Hmax.
  { unfold templateData. rewrite Hm.
    repeat case_bool_decide; now simplify_map_eq. }
  assert (templateData enLocale el !! "count"
          = Some (JString (pretty (Unicode.unicodeStrLen (value el))))) as Hcount.
  { unfold templateData. repeat case_bool_decide; now simplify_map_eq. }
  etransitivity.
  { exact (strtpl_step inherited (templateData enLocale el)
             "Please shorten this text to " "" "maxlength" ""
             " characters or less (you are currently using {count} characters)."
             eq_refl eq_refl eq_refl ltac:(discriminate) eq_refl). }
  f_equal. unfold replacer at 1. rewrite app_nil_s, app_empty_r, Hmax.
  cbn [toString]. f_equal.
  etransitivity.
  { exact (strtpl_step inherited (templateData enLocale el)
             " characters or less (you are currently using " "" "count" ""
             " characters)."
             eq_refl eq_refl eq_refl ltac:(discriminate) eq_refl). }
  f_equal. unfold replacer at 1. rewrite app_nil_s, app_empty_r, Hcount.
  cbn [toString]. f_equal.
Qed.

Lemma getMessage_tooLong_english_witness :
  getMessage noInherited enLocale noteInput "tooLong"
  = "Please shorten this text to 3 characters or less (you are currently using 4 characters).".
Proof.
  etransitivity.
  - apply (getMessage_tooLong_english noInherited noteInput "3").
    + right. split; [reflexivity | left; reflexivity].
    + reflexivity.
  - vm_compute. reflexivity.
Defined.

End MessageMore.

(** ** [getFirstError], [attachEvents] and [detachEvents] *)

Module FormMore.

Import Text Dom Message Form Lifecycle Views Samples.

(** *** [getFirstError] *)

Lemma querySelector_Some p l :
  forall k i el,
    querySelector p k l = Some (i, el) <->
    exists j, i = (k + j)%nat /\ l !! j = Some el /\ p el = true
              /\ forall j' el', (j' < j)%nat -> l !! j' = Some el' -> p el' = false.
Proof.
  induction l as [| x l IH]; intros k i el; simpl.
  - split; [discriminate | intros (j & _ & H & _); discriminate].
  - destruct (p x) eqn:Hx.
    + split.
      * intros [= <- <-]. exists 0%nat. repeat split; [lia | exact Hx | intros; lia].
      * intros (j & -> & Hj & Hp & Hfirst). destruct j as [| j].
        -- simpl in Hj. injection Hj as <-. f_equal. f_equal. lia.
        -- specialize (Hfirst 0%nat x ltac:(lia) eq_refl). congruence.
    + rewrite IH. split.
      * intros (j & -> & Hj & Hp & Hfirst). exists (S j).
        repeat split; [lia | exact Hj | exact Hp |].
        intros [| j'] el' Hlt Hl; simpl in Hl; [congruence |].
        apply (Hfirst j'); [lia | exact Hl].
      * intros (j & -> & Hj & Hp & Hfirst). destruct j as [| j].
        -- simpl in Hj. congruence.
        -- exists j. repeat split; [lia | exact Hj | exact Hp |].
           intros j' el' Hlt Hl. apply (Hfirst (S j')); [lia | exact Hl].
Qed.

(** X7.  [getFirstError] searches the descendants of the form, whether
    they are members of [form.elements] or not.  It returns a control
    exactly when the first descendant that is an invalid input, select or
    textarea is neither suppressed nor (unless [validateWithoutName])
    without a name; it then returns that control.  An invalid control
    behind the first one is never returned, and neither is a control
    outside the form that belongs to it through its [form] attribute. *)
Theorem getFirstError_first_match (o : options) (f : form) (i : nat) :
  getFirstError o f = Some i <->
  exists el,
    controls f !! i = Some el
    /\ inside el = true
    /\ selected el = true
    /\ suppressed el = false
    /\ (validateWithoutName o = true \/ unnamed el = false)
    /\ forall j el', (j < i)%nat -> controls f !! j = Some el' ->
                     inside el' = false \/ selected el' = false.
Proof.
  unfold getFirstError, formQuerySelector. split.
  - destruct (querySelector _ 0 (controls f)) as [[j el] |] eqn:Hq; [| discriminate].
    apply querySelector_Some in Hq as (j0 & -> & Hj & Hp & Hfirst). simpl.
    apply andb_true_iff in Hp as [Hin Hp].
    destruct (suppressed el) eqn:Hs; [discriminate |].
    destruct (negb (validateWithoutName o) && unnamed el) eqn:Hn; [discriminate |].
    intros [= <-]. exists el. repeat split; auto.
    + destruct (validateWithoutName o), (unnamed el); simpl in Hn; auto; discriminate.
    + intros j' el' Hlt Hl. now apply andb_false_iff, (Hfirst j').
  - intros (el & Hi & Hin & Hp & Hs & Hn & Hfirst).
    assert (querySelector (λ el, inside el && selected el) 0 (controls f) = Some (i, el))
      as ->.
    { apply querySelector_Some. exists i. repeat split; auto.
      - now rewrite Hin, Hp.
      - intros j' el' Hlt Hl. now apply andb_false_iff, (Hfirst j'). }
    rewrite Hs. destruct Hn as [-> | ->]; simpl; [reflexivity |].
    now rewrite andb_false_r.
Qed.

(** *** Listeners *)

Lemma addEventListener_listeners l f :
  listeners (addEventListener l f)
  = if bool_decide (l ∈ listeners f) then listeners f else listeners f ++ [l].
Proof. unfold addEventListener. now case_bool_decide. Qed.

(** What a sequence of registrations adds: new listeners, each once. *)
Lemma fold_addEventListener (cands : list listener) :
  forall f,
    exists new,
      listeners (fold_left (λ acc l, addEventListener l acc) cands f) = listeners f ++ new
      /\ NoDup new
      /\ (forall l, l ∈ new <-> l ∈ cands /\ l ∉ listeners f).
Proof.
  induction cands as [| c cands IH]; intros f.
  - exists []. rewrite app_nil_r.
    split; [reflexivity | split; [constructor |]].
    intros l. split; [intros H; inversion H | intros [H _]; inversion H].
  - cbn [fold_left]. destruct (IH (addEventListener c f)) as (new & Heq & Hnd & Hin).
    rewrite addEventListener_listeners in Heq, Hin.
    case_bool_decide as Hc.
    + exists new. split; [exact Heq | split; [exact Hnd |]].
      intros l. rewrite Hin. split.
      * intros [H1 H2]. split; [now right | exact H2].
      * intros [H1 H2]. split; [| exact H2].
        apply elem_of_cons in H1 as [-> | H1]; [contradiction | exact H1].
    + exists (c :: new). split; [now rewrite Heq, <- app_assoc |].
      split.
      * constructor; [| exact Hnd]. rewrite Hin. intros [_ H]. apply H.
        apply elem_of_app. right. left.
      * intros l. rewrite elem_of_cons, Hin. split.
        -- intros [-> | [H1 H2]]; [split; [left | exact Hc] |].
           split; [now right |]. intros H. apply H2. apply elem_of_app. now left.
        -- intros [H1 H2]. apply elem_of_cons in H1 as [-> | H1]; [now left |].
           destruct (decide (l = c)) as [-> | Hne]; [now left |]. right.
           split; [exact H1 |]. intros [H | H]%elem_of_app; [contradiction |].
           apply list_elem_of_singleton in H. contradiction.
Qed.

Lemma fold_add_map {A} (g : A -> listener) (l : list A) f :
  fold_left (λ acc x, addEventListener (g x) acc) l f
  = fold_left (λ acc y, addEventListener y acc) (g <$> l) f.
Proof. revert f. induction l as [| x l IH]; intros f; [reflexivity | apply IH]. Qed.

Lemma fold_removeEventListener (cands : list listener) :
  forall f,
    listeners (fold_left (λ acc l, removeEventListener l acc) cands f)
    = filter (λ x, x ∉ cands) (listeners f).
Proof.
  induction cands as [| c cands IH]; intros f.
  - simpl. symmetry. apply LoopFacts.filter_all. intros x _ H. inversion H.
  - cbn [fold_left]. rewrite IH. unfold removeEventListener. cbn [listeners].
    rewrite list_filter_filter. apply list_filter_iff.
    intros x. rewrite not_elem_of_cons. tauto.
Qed.

Lemma fold_remove_map {A} (g : A -> listener) (l : list A) f :
  fold_left (λ acc x, removeEventListener (g x) acc) l f
  = fold_left (λ acc y, removeEventListener y acc) (g <$> l) f.
Proof. revert f. induction l as [| x l IH]; intros f; [reflexivity | apply IH]. Qed.

(** The listeners after [attachEvents]: those of before, then the input
    listeners that were not there, then the submit and reset listeners. *)
Lemma attachEvents_listeners this f :
  exists new,
    listeners (attachEvents this f)
    = listeners f ++ new
      ++ (if captureSubmit (instOptions this)
          then (if bool_decide (Listener "submit" (self this) SubmitHandler false
                                  ∈ listeners f ++ new)
                then [] else [Listener "submit" (self this) SubmitHandler false])
          else [])
      ++ (if captureReset (instOptions this)
          then (if bool_decide (Listener "reset" (self this) ResetHandler false
                                  ∈ listeners f)
                then [] else [Listener "reset" (self this) ResetHandler false])
          else [])
    /\ NoDup new
    /\ (forall l, l ∈ new <->
          l ∈ (inputListener this <$> revalidate (instOptions this)) /\ l ∉ listeners f).
Proof.
  unfold attachEvents.
  change (λ acc event, addEventListener (Listener event (self this) InputHandler
                                           (bool_decide (event ∈ unBubbledEvents))) acc)
    with (λ acc event, addEventListener (inputListener this event) acc).
  rewrite (fold_add_map (inputListener this)).
  destruct (fold_addEventListener (inputListener this <$> revalidate (instOptions this)) f)
    as (new & Heq & Hnd & Hin).
  exists new. split; [| split; [exact Hnd | exact Hin]].
  set (f1 := fold_left _ _ f) in *.
  set (sub := Listener "submit" (self this) SubmitHandler false).
  set (res := Listener "reset" (self this) ResetHandler false).
  assert (forall l, l ∈ new -> handler l = InputHandler) as Hkind.
  { intros l [Hl _]%Hin. apply list_elem_of_fmap in Hl as (ev & -> & _). reflexivity. }
  assert (forall tail, (forall l, l ∈ tail -> l = sub) ->
            (res ∈ (listeners f ++ new) ++ tail <-> res ∈ listeners f)) as Hr.
  { intros tail Ht. rewrite !elem_of_app. split; [| tauto].
    intros [[H | H] | H]; [exact H | apply Hkind in H; discriminate |].
    apply Ht in H. discriminate. }
  assert (forall g l, listeners (addEventListener l g)
                      = listeners g ++ (if bool_decide (l ∈ listeners g) then [] else [l]))
    as Hstep.
  { intros g l. rewrite addEventListener_listeners.
    case_bool_decide; [now rewrite app_nil_r | reflexivity]. }
  destruct (captureSubmit (instOptions this)), (captureReset (instOptions this)).
  - rewrite !Hstep, Heq, <- !app_assoc. do 3 f_equal.
    rewrite app_assoc. erewrite bool_decide_ext; [reflexivity |].
    apply Hr. intros l Hl. case_bool_decide; [inversion Hl |].
    now apply list_elem_of_singleton in Hl.
  - rewrite !Hstep, Heq, <- !app_assoc. now rewrite app_nil_r.
  - rewrite !Hstep, Heq, <- !app_assoc. do 2 f_equal. simpl.
    erewrite bool_decide_ext; [reflexivity |].
    rewrite <- (app_nil_r (listeners f ++ new)). apply Hr. intros l Hl. inversion Hl.
  - now rewrite Heq, !app_nil_r.
Qed.

(** X8.  [attachEvents] registers the input handler for every event of
    [revalidate], capturing exactly for [blur] and [focus], and the
    submit and reset handlers when the options ask for them; the
    listeners that were registered stay, and a listener that is already
    registered is not registered again. *)
Theorem attachEvents_registers (this : instance) (f : form) :
  let o := instOptions this in
  (forall l, l ∈ listeners (attachEvents this f) <->
     l ∈ listeners f
     \/ (exists event, event ∈ revalidate o
                       /\ l = Listener event (self this) InputHandler
                                (bool_decide (event = "blur" \/ event = "focus")))
     \/ (captureSubmit o = true /\ l = Listener "submit" (self this) SubmitHandler false)
     \/ (captureReset o = true /\ l = Listener "reset" (self this) ResetHandler false))
  /\ (NoDup (listeners f) -> NoDup (listeners (attachEvents this f))).
Proof.
  intros o. destruct (attachEvents_listeners this f) as (new & Heq & Hnd & Hin). fold o in Heq, Hin.
  assert (forall event,
            inputListener this event
            = Listener event (self this) InputHandler
                (bool_decide (event = "blur" \/ event = "focus"))) as Hcap.
  { intros event. unfold inputListener. f_equal. apply bool_decide_ext.
    unfold unBubbledEvents. rewrite !elem_of_cons, elem_of_nil. tauto. }
  split.
  - intros l. rewrite Heq, !elem_of_app.
    split.
    + intros [H | [H | [H | H]]]; auto.
      * apply Hin in H as [(event & -> & Hev)%list_elem_of_fmap _].
        right. left. exists event. now rewrite <- Hcap.
      * destruct (captureSubmit o); [| inversion H].
        case_bool_decide; [inversion H |].
        apply list_elem_of_singleton in H. auto.
      * destruct (captureReset o); [| inversion H].
        case_bool_decide; [inversion H |].
        apply list_elem_of_singleton in H. auto 6.
    + intros [H | [(event & Hev & ->) | [[Hc ->] | [Hc ->]]]]; auto.
      * destruct (decide (Listener event (self this) InputHandler
                            (bool_decide (event = "blur" \/ event = "focus")) ∈ listeners f));
          [now left |].
        right. left. apply Hin. split; [| assumption].
        apply list_elem_of_fmap. exists event. now rewrite Hcap.
      * destruct (decide (Listener "submit" (self this) SubmitHandler false
                            ∈ listeners f ++ new)) as [Hb | Hb].
        -- apply elem_of_app in Hb as [Hb | Hb]; [now left | now right; left].
        -- right. right. left. rewrite Hc, (bool_decide_eq_false_2 _ Hb). left.
      * destruct (decide (Listener "reset" (self this) ResetHandler false ∈ listeners f))
          as [Hb | Hb]; [now left |].
        right. right. right. rewrite Hc, (bool_decide_eq_false_2 _ Hb). left.
  - intros Hf. rewrite Heq.
    assert (forall l, l ∈ new -> handler l = InputHandler) as Hkind.
    { intros l [Hl _]%Hin. apply list_elem_of_fmap in Hl as (ev & -> & _). reflexivity. }
    set (sub := Listener "submit" (self this) SubmitHandler false) in *.
    set (res := Listener "reset" (self this) ResetHandler false) in *.
    set (subpart := if captureSubmit o then _ else _).
    set (respart := if captureReset o then _ else _).
    assert (NoDup subpart /\ forall l, l ∈ subpart -> l = sub /\ sub ∉ listeners f ++ new)
      as [Hnd1 Hsub].
    { clear Heq. subst subpart. clear respart. destruct (captureSubmit o).
      - case_bool_decide as Hb.
        + split; [constructor | intros l Hl; inversion Hl].
        + split; [apply NoDup_singleton |].
          intros l Hl. now apply list_elem_of_singleton in Hl.
      - split; [constructor | intros l Hl; inversion Hl]. }
    assert (NoDup respart /\ forall l, l ∈ respart -> l = res /\ res ∉ listeners f)
      as [Hnd2 Hres].
    { clear Heq Hnd1 Hsub. subst respart. clear subpart. destruct (captureReset o).
      - case_bool_decide as Hb.
        + split; [constructor | intros l Hl; inversion Hl].
        + split; [apply NoDup_singleton |].
          intros l Hl. now apply list_elem_of_singleton in Hl.
      - split; [constructor | intros l Hl; inversion Hl]. }
    clearbody subpart respart.
    apply NoDup_app. split; [exact Hf |]. split.
    + intros l Hl [H | [H | H]%elem_of_app]%elem_of_app.
      * apply Hin in H. tauto.
      * apply Hsub in H as [-> H]. apply H, elem_of_app. now left.
      * apply Hres in H as [-> H]. contradiction.
    + apply NoDup_app. split; [exact Hnd |]. split.
      * intros l Hl [H | H]%elem_of_app.
        -- apply Hsub in H as [-> H]. apply H, elem_of_app. now right.
        -- apply Hres in H as [-> H]. apply Hkind in Hl. discriminate.
      * apply NoDup_app. split; [exact Hnd1 | split; [| exact Hnd2]].
        intros l [-> _]%Hsub [H _]%Hres. discriminate.
Qed.

(** X9.  On a form none of whose listeners belongs to the instance,
    [detachEvents] after [attachEvents] removes the input and submit
    listeners of the instance and leaves its reset listener registered
    (when [captureReset] is set): the last statement of [detachEvents]
    adds the reset handler where it should remove it. *)
Theorem detachEvents_keeps_reset (this : instance) (f : form) :
  (forall l, l ∈ listeners f -> boundTo l <> self this) ->
  listeners (detachEvents this (attachEvents this f))
  = listeners f
    ++ (if captureReset (instOptions this)
        then [Listener "reset" (self this) ResetHandler false] else []).
Proof.
  intros Hforeign.
  destruct (attachEvents_listeners this f) as (new & Heq & Hnd & Hin).
  set (o := instOptions this) in *.
  set (cands := inputListener this <$> revalidate o) in *.
  set (sub := Listener "submit" (self this) SubmitHandler false) in *.
  set (res := Listener "reset" (self this) ResetHandler false) in *.
  assert (forall l, l ∈ listeners f -> (l ∉ cands) /\ l <> sub /\ l <> res) as Hf.
  { intros l Hl. pose proof (Hforeign l Hl) as Hb. repeat split.
    - intros (ev & -> & _)%list_elem_of_fmap. now apply Hb.
    - intros ->. now apply Hb.
    - intros ->. now apply Hb. }
  assert (sub ∉ listeners f ++ new) as Hsub.
  { intros [H | H]%elem_of_app; [now apply Hf in H |].
    apply Hin in H as [(ev & Hev & _)%list_elem_of_fmap _]. discriminate. }
  assert (res ∉ listeners f) as Hres by (intros H; now apply Hf in H).
  rewrite (bool_decide_eq_false_2 _ Hsub), (bool_decide_eq_false_2 _ Hres) in Heq.
  unfold detachEvents. fold o.
  change (λ acc event, removeEventListener (Listener event (self this) InputHandler
                                              (bool_decide (event ∈ unBubbledEvents))) acc)
    with (λ acc event, removeEventListener (inputListener this event) acc).
  rewrite (fold_remove_map (inputListener this)). fold cands.
  change (Listener "submit" (self this) SubmitHandler false) with sub.
  change (Listener "reset" (self this) ResetHandler false) with res.
  set (f1 := fold_left _ cands (attachEvents this f)).
  assert (listeners f1
          = listeners f ++ (if captureSubmit o then [sub] else [])
                        ++ (if captureReset o then [res] else [])) as H1.
  { unfold f1. rewrite fold_removeEventListener, Heq, !filter_app.
    rewrite (LoopFacts.filter_all _ (listeners f)) by (intros l Hl; now apply Hf).
    rewrite (LoopFacts.filter_all_not _ new) by (intros l Hl%Hin; tauto).
    rewrite !LoopFacts.filter_all; [reflexivity | |].
    - intros l Hl (ev & -> & _)%list_elem_of_fmap.
      destruct (captureReset o); [| inversion Hl].
      apply list_elem_of_singleton in Hl. discriminate.
    - intros l Hl (ev & -> & _)%list_elem_of_fmap.
      destruct (captureSubmit o); [| inversion Hl].
      apply list_elem_of_singleton in Hl. discriminate. }
  assert (listeners (if captureSubmit o then removeEventListener sub f1 else f1)
          = listeners f ++ (if captureReset o then [res] else [])) as H2.
  { destruct (captureSubmit o).
    - unfold removeEventListener. cbn [listeners]. rewrite H1, !filter_app.
      rewrite (LoopFacts.filter_all _ (listeners f)) by (intros l Hl; now apply Hf).
      rewrite filter_cons, decide_False, filter_nil by (intros H; now apply H).
      rewrite LoopFacts.filter_all; [reflexivity |].
      intros l Hl. destruct (captureReset o); [| inversion Hl].
      apply list_elem_of_singleton in Hl. subst l. discriminate.
    - now rewrite H1. }
  destruct (captureReset o).
  - rewrite addEventListener_listeners, H2.
    rewrite bool_decide_eq_true_2; [reflexivity |].
    apply elem_of_app. right. left.
  - exact H2.
Qed.

Lemma detachEvents_keeps_reset_witness :
  let this := Inst 0 defaultOptions in
  let f := Form_ [textInput "a" []] None [] ∅ in
  listeners (detachEvents this (attachEvents this f))
  = [Listener "reset" 0 ResetHandler false].
Proof.
  intros this f.
  refine (detachEvents_keeps_reset this f _).
  intros l Hl. inversion Hl.
Defined.

End FormMore.

(** ** Validation passes *)

Module LoopMore.

Import Text Dom Message Form Loop LoopSpec Views Samples LoopFacts TimerFacts NetFacts PassFacts.

(** *** Lifting a property of passes to the scheduler *)

Section Passes.

Variable c : config.
Variable P : state -> Prop.
Hypothesis HP : keptByPasses c P.

Lemma kept_view s s' : contentView s' = contentView s -> P s -> P s'.
Proof. destruct HP as (H & _). apply H. Qed.

Lemma kept_report m : P (after m) -> P (report m).
Proof. apply kept_view. destruct m; reflexivity. Qed.

Lemma kept_validateField i s : P s -> P (after (validateField c i s)).
Proof. destruct HP as (_ & H). apply H. Qed.

Lemma kept_callDebounced d arg s : P s -> P (callDebounced d arg s).
Proof.
  apply kept_view. unfold callDebounced, setTimeout. cbn beta iota zeta.
  repeat split_match; reflexivity.
Qed.

Lemma kept_timerExpired d s : P s -> P (after (timerExpired c d s)).
Proof.
  intros Hs. unfold timerExpired.
  destruct (closures s !! d) as [cl |]; [| exact Hs].
  destruct (lastCall cl) as [[t0 arg] |].
  - case_bool_decide.
    + apply kept_validateField. revert Hs. now apply kept_view.
    + revert Hs. now apply kept_view.
  - revert Hs. now apply kept_view.
Qed.

Lemma kept_invoke cb arg s : P s -> P (after (invoke c cb arg s)).
Proof. destruct cb; simpl; [apply kept_validateField | apply kept_callDebounced]. Qed.

Lemma kept_fire s t : P s -> P (fire c s t).
Proof.
  intros Hs. unfold fire. case_bool_decide; [| exact Hs].
  apply kept_report. destruct (job t).
  - apply kept_invoke. revert Hs. now apply kept_view.
  - apply kept_timerExpired. revert Hs. now apply kept_view.
Qed.

Lemma kept_fires l : forall s, P s -> P (fold_left (fire c) l s).
Proof.
  induction l as [| t l IH]; intros s Hs; simpl; [exact Hs |].
  apply IH. now apply kept_fire.
Qed.

Lemma kept_tick s : P s -> P (tick c s).
Proof. intros Hs. unfold tick. apply kept_fires. revert Hs. now apply kept_view. Qed.

Lemma kept_wait ms s : P s -> P (Nat.iter ms (tick c) s).
Proof.
  intros Hs. induction ms as [| ms IH]; simpl; [exact Hs | now apply kept_tick].
Qed.

Lemma kept_handleInput ev s : P s -> P (after (handleInput c ev s)).
Proof.
  intros Hs.
  destruct (fields s !! target ev) as [el |] eqn:Hel;
    [| unfold handleInput; now rewrite Hel].
  destruct (noTriggerOnTab (opts c) && bool_decide (key ev = Some "Tab")) eqn:Htab;
    [unfold handleInput; now rewrite Hel, Htab |].
  unfold handleInput. rewrite Hel, Htab, enableOnChange_cases.
  destruct (throwsOnChange c ev s); [exact Hs |]. cbn [andThen].
  assert (P (pastSubmit c ev s)) as Hs0.
  { revert Hs. apply kept_view. now destruct (pastSubmit_cases c ev s) as [-> | ->]. }
  generalize dependent (pastSubmit c ev s). intros s0 Hs0.
  destruct (positive (bounceOf c el (etype ev))) as [bounce |];
    destruct (positive (delayOf c el (etype ev))) as [ms |]; simpl.
  - revert Hs0. apply kept_view. destruct (intervals _ !! _); reflexivity.
  - apply kept_callDebounced. revert Hs0. now apply kept_view.
  - revert Hs0. apply kept_view. destruct (intervals _ !! _); reflexivity.
  - now apply kept_validateField.
Qed.

Lemma kept_dispatch ev s : P s -> P (step c s (Dispatch ev)).
Proof.
  intros Hs. simpl. destruct (_ && _); [| exact Hs].
  now apply kept_report, kept_handleInput.
Qed.

Lemma kept_validate s : P s -> P (after (validate c s)).
Proof.
  unfold validate. apply forEach_after. intros a i Ha.
  destruct (fields a !! i); [| exact Ha].
  destruct (_ && _); [now apply kept_validateField | exact Ha].
Qed.

End Passes.

(** The validity of the controls is kept by passes. *)
Lemma views_kept c V : keptByPasses c (λ s, validityView <$> fields s = V).
Proof.
  split.
  - intros s s' Hv <-. unfold contentView in Hv. injection Hv. intros. congruence.
  - intros i s <-. apply validateField_views.
Qed.

(** *** Native violations *)

Lemma fold_doSetError c i ks :
  forall s el,
    fields s !! i = Some el ->
    let s' := fold_left (λ acc k, doSetError c i k acc) ks s in
    fields s' !! i = Some (fold_left (λ e k, setError c k e) ks el)
    /\ renders s' = renders s ++ (SetError i <$> ks)
    /\ promises s' = promises s
    /\ nextPromise s' = nextPromise s
    /\ network s' = network s.
Proof.
  induction ks as [| k ks IH]; intros s el Hel; cbn [fold_left].
  - rewrite app_nil_r. auto.
  - destruct (IH (doSetError c i k s) (setError c k el)) as (H1 & H2 & H3 & H4 & H5).
    { simpl. now rewrite list_lookup_alter_eq, Hel. }
    cbn zeta in *. rewrite H1, H2, H3, H4, H5. simpl. rewrite <- app_assoc. auto.
Qed.

Lemma fold_setError_view c ks :
  forall el, validityView (fold_left (λ e k, setError c k e) ks el) = validityView el.
Proof.
  induction ks as [| k ks IH]; intros el; simpl; [reflexivity |].
  now rewrite IH, setError_view.
Qed.

Lemma setError_classes c k el :
  inputValidClass (opts c) <> inputInvalidClass (opts c) ->
  inputInvalidClass (opts c) ∈ classList (setError c k el)
  /\ inputValidClass (opts c) ∉ classList (setError c k el).
Proof.
  intros Hne. unfold setError. cbn [classList setFeedback classRemove setClassList].
  split.
  - apply list_elem_of_filter. split; [congruence |].
    unfold classAdd, hasClass. case_bool_decide as Hin; [exact Hin |].
    cbn [classList setClassList]. apply elem_of_app. right. left.
  - intros [H _]%list_elem_of_filter. now apply H.
Qed.

(** X10.  When a control that [validateField] does not pass over fails
    its native constraints, every violation is rendered, in the order
    of the validity flags, and no rule is launched: no promise is made and
    no request is sent.  The feedback that stays is the message of the
    last violation; the control carries the invalid class and not the
    valid one (when the two differ), and its validity is as before.  The
    call returns. *)
Theorem validateField_reports_violations (c : config) (i : nat) (s : state)
    (el : element) (ks : list string) (k : string) :
  fields s !! i = Some el ->
  passedOver (opts c) el = false ->
  checkValidity el = false ->
  violated el = ks ++ [k] ->
  let s' := after (validateField c i s) in
  validateField c i s = Normal s'
  /\ renders s' = renders s ++ (SetError i <$> violated el)
  /\ promises s' = promises s
  /\ network s' = network s
  /\ exists el',
       fields s' !! i = Some el'
       /\ validityView el' = validityView el
       /\ feedback el' = getMessage (inheritedText c) (cat c) el k
       /\ (inputValidClass (opts c) <> inputInvalidClass (opts c) ->
           inputInvalidClass (opts c) ∈ classList el'
           /\ inputValidClass (opts c) ∉ classList el').
Proof.
  intros Hel Hp Hv Hks s'. subst s'.
  rewrite (validateField_pass c i s el Hel Hp), Hv.
  destruct (violated el) as [| k0 ks0] eqn:Hvi; [now destruct ks |].
  destruct (fold_doSetError c i (k0 :: ks0) (passStart i (S (default 0%nat (generation s !! i))) s)
              el Hel) as (H1 & H2 & H3 & H4 & H5).
  cbn zeta in *. cbn [after]. split; [reflexivity |].
  split; [exact H2 |]. split; [exact H3 |]. split; [exact H5 |].
  eexists. split; [exact H1 |]. rewrite Hks, fold_left_app. cbn [fold_left].
  set (e := fold_left (λ e k, setError c k e) ks el).
  assert (validityView e = validityView el) as He by apply fold_setError_view.
  split; [now rewrite setError_view |]. split; [| apply setError_classes].
  unfold setError. cbn [feedback setFeedback].
  rewrite <- (getMessage_view _ _ _ _ _ He). apply getMessage_view.
  transitivity (validityView (classAdd (inputInvalidClass (opts c)) e));
    [reflexivity | apply classAdd_view].
Qed.

Lemma validateField_reports_violations_witness :
  let s := initial [ageInput] in
  let s' := after (validateField sampleConfig 0 s) in
  renders s' = [SetError 0 "rangeOverflow"]
  /\ promises s' = ∅
  /\ feedback <$> fields s' !! 0%nat
     = Some "Please enter a value that is no more than undefined.".
Proof.
  intros s s'.
  destruct (validateField_reports_violations sampleConfig 0 s ageInput [] "rangeOverflow"
              eq_refl eq_refl eq_refl eq_refl)
    as (_ & H1 & H2 & _ & el' & H3 & _ & H4 & _).
  split; [exact H1 | split; [exact H2 |]].
  unfold s'. rewrite H3. simpl. rewrite H4. vm_compute. reflexivity.
Defined.

(** *** The rules of a pass *)

(** Whether a rule returns depends on the attributes and the value of the
    control, which a pass does not change. *)
Lemma returning_view c el el' r :
  validityView el = validityView el' -> returning c el r = returning c el' r.
Proof.
  unfold validityView. intros [= Ht Hi Hty Ha Hv Hc Hw Hvi Hn Hcv Hin Hli].
  unfold returning, remoteReturns, endpointTemplate, requestOptions, getAttribute.
  now rewrite Ha, Hv.
Qed.

Lemma rulesOn_view c el el' :
  validityView el = validityView el' -> rulesOn c el = rulesOn c el'.
Proof.
  unfold validityView. intros [= Ht Hi Hty Ha Hv Hc Hw Hvi Hn Hcv Hin Hli].
  unfold rulesOn, hasAttribute. now rewrite Ha.
Qed.

Lemma launched_ext c el el' rs :
  (forall r, returning c el r = returning c el' r) ->
  launched c el rs = launched c el' rs.
Proof.
  intros H. induction rs as [| r rs IH]; simpl; [reflexivity |].
  rewrite H, IH. reflexivity.
Qed.

Lemma forallb_returning c el el' rs :
  (forall r, returning c el r = returning c el' r) ->
  forallb (returning c el) rs = forallb (returning c el') rs.
Proof.
  intros H. induction rs as [| r rs IH]; simpl; [reflexivity |].
  now rewrite H, IH.
Qed.

Lemma launched_all c el rs :
  forallb (returning c el) rs = true -> launched c el rs = rs.
Proof.
  induction rs as [| r rs IH]; simpl; [reflexivity |].
  intros [-> H]%andb_true_iff. now rewrite IH.
Qed.

Lemma launch_present c i g s r el :
  fields s !! i = Some el ->
  hasAttribute el (ruleAttribute r.1) = true ->
  returning c el r = true ->
  threw (launch c i g s r) = false
  /\ promises (after (launch c i g s r))
     = <[nextPromise s := Promise i (ruleAttribute r.1) r.2 g false]> (promises s)
  /\ nextPromise (after (launch c i g s r)) = S (nextPromise s).
Proof.
  intros Hel Ha Hret. unfold launch. rewrite Hel, Ha.
  destruct r as [name []]; cbn [fst snd] in *.
  - repeat split; reflexivity.
  - unfold returning in Hret. cbn [fst snd] in Hret.
    destruct (remoteRule_net c i (ruleAttribute name) g s el Hel Hret) as (H1 & H2 & _).
    rewrite (remoteRule_threw c i _ g s el Hel), Hret. auto.
Qed.

Lemma launch_throws c i g s r el :
  fields s !! i = Some el ->
  hasAttribute el (ruleAttribute r.1) = true ->
  returning c el r = false ->
  threw (launch c i g s r) = true
  /\ promises (after (launch c i g s r)) = promises s
  /\ nextPromise (after (launch c i g s r)) = nextPromise s.
Proof.
  intros Hel Ha Hret. unfold launch. rewrite Hel, Ha.
  destruct r as [name []]; cbn [fst snd] in *; [discriminate |].
  unfold returning in Hret. cbn [fst snd] in Hret.
  destruct (remoteRule_abrupt c i (ruleAttribute name) g s el Hel Hret) as (H1 & H2 & _).
  rewrite (remoteRule_threw c i _ g s el Hel), Hret. auto.
Qed.

Lemma launch_absent c i g s r el :
  fields s !! i = Some el ->
  hasAttribute el (ruleAttribute r.1) = false ->
  launch c i g s r = Normal s.
Proof. intros Hel Ha. unfold launch. now rewrite Hel, Ha. Qed.

(** The loop over the rules: one promise for each rule the control
    carries, up to the first rule that throws, which ends the loop. *)
Lemma forEach_launch c i g rs :
  forall s el,
    fields s !! i = Some el ->
    let present := filter (λ r, hasAttribute el (ruleAttribute r.1) = true) rs in
    let made := launched c el present in
    let m := forEach (launch c i g) rs s in
    threw m = negb (forallb (returning c el) present)
    /\ nextPromise (after m) = (nextPromise s + length made)%nat
    /\ (forall n r, made !! n = Some r ->
          promises (after m) !! (nextPromise s + n)%nat
          = Some (Promise i (ruleAttribute r.1) r.2 g false))
    /\ (forall p, (p < nextPromise s)%nat -> promises (after m) !! p = promises s !! p).
Proof.
  induction rs as [| r rs IH]; intros s el Hel; cbn [forEach].
  - rewrite filter_nil. simpl. split; [reflexivity | split; [lia | split; [| auto]]].
    intros n r Hn. inversion Hn.
  - rewrite filter_cons.
    destruct (decide (hasAttribute el (ruleAttribute r.1) = true)) as [Ha | Ha].
    + cbn [launched forallb]. destruct (returning c el r) eqn:Hret.
      * destruct (launch_present c i g s r el Hel Ha Hret) as (Ht & Hp & Hn).
        pose proof (launch_fields c i g s r) as Hf.
        destruct (launch c i g s r) as [s1 | e s1]; [| discriminate]. cbn [after] in *.
        assert (fields s1 !! i = Some el) as Hel1 by now rewrite Hf.
        destruct (IH s1 el Hel1) as (H1 & H2 & H3 & H4). cbn zeta in *.
        rewrite Hn in *. cbn [andb length]. split; [exact H1 |].
        split; [lia |]. split.
        -- intros [| n] r' Hr'; simpl in Hr'.
           ++ injection Hr' as <-. rewrite Nat.add_0_r, H4 by lia.
              now rewrite Hp, lookup_insert_eq.
           ++ replace (nextPromise s + S n)%nat with (S (nextPromise s) + n)%nat by lia.
              now apply H3.
        -- intros p Hlt. rewrite H4 by lia. rewrite Hp. apply lookup_insert_ne. lia.
      * destruct (launch_throws c i g s r el Hel Ha Hret) as (Ht & Hp & Hn).
        destruct (launch c i g s r) as [s1 | e s1]; [discriminate |]. cbn [after] in *.
        cbn [andb negb length]. rewrite Hn, Hp. split; [reflexivity |].
        split; [lia |]. split; [| auto].
        intros n r' Hr'. inversion Hr'.
    + apply not_true_is_false in Ha.
      rewrite (launch_absent c i g s r el Hel Ha). now apply IH.
Qed.

(** X11.  When a control that [validateField] does not pass over has no
    native violation, the display is cleared first (unless a custom error
    is set, which leaves the display as it is), and then the rules of the
    registry whose attribute the control carries are launched in the order
    of the registry: one promise is made for each, pending and remembering
    the control and the attribute, up to the first rule that throws (the
    remote rule, when its attribute cannot be decoded or the platform
    refuses the request).  That rule ends the pass: no promise is made for
    it nor for the rules behind it, and [validateField] throws.  The
    promises made before the pass stay as they are.  (The control is taken
    not to carry the [reference] rule, whose change event can start
    another pass in between.) *)
Theorem validateField_launches_rules (c : config) (i : nat) (s : state) (el : element) :
  fields s !! i = Some el ->
  passedOver (opts c) el = false ->
  violated el = [] ->
  carriesReference c el = false ->
  let g := S (default 0%nat (generation s !! i)) in
  let m := validateField c i s in
  let s' := after m in
  let made := launched c el (rulesOn c el) in
  threw m = negb (forallb (returning c el) (rulesOn c el))
  /\ renders s' = renders s ++ (if checkValidity el then [ClearError i] else [])
  /\ nextPromise s' = (nextPromise s + length made)%nat
  /\ (forall n r, made !! n = Some r ->
        promises s' !! (nextPromise s + n)%nat
        = Some (Promise i (ruleAttribute r.1) r.2 g false))
  /\ (forall p, (p < nextPromise s)%nat -> promises s' !! p = promises s !! p).
Proof.
  intros Hel Hp Hvi _ g m s' made. subst m s' made.
  rewrite (validateField_pass c i s el Hel Hp). fold g. rewrite Hvi.
  assert ((if checkValidity el then [] else []) = @nil string) as ->
      by now destruct (checkValidity el).
  set (s0 := if checkValidity el then doClearError c i (passStart i g s) else passStart i g s).
  assert (exists el0, fields s0 !! i = Some el0 /\ validityView el0 = validityView el
                      /\ renders s0 = renders s ++ (if checkValidity el then [ClearError i] else [])
                      /\ nextPromise s0 = nextPromise s /\ promises s0 = promises s)
    as (el0 & Hel0 & Hview & Hr & Hn & Hpr).
  { subst s0. destruct (checkValidity el).
    - exists (clearError c el). simpl. rewrite list_lookup_alter_eq, Hel.
      repeat split; try reflexivity. apply clearError_view.
    - exists el. simpl. rewrite app_nil_r. auto. }
  destruct (forEach_launch c i g (rules c) s0 el0 Hel0) as (H0 & H1 & H2 & H3).
  cbn zeta in *. fold (rulesOn c el0) in H0, H1, H2.
  rewrite (rulesOn_view c el0 el Hview) in H0, H1, H2.
  rewrite (launched_ext c el0 el) in H1, H2 by (intros; now apply returning_view).
  assert (forallb (returning c el0) (rulesOn c el) = forallb (returning c el) (rulesOn c el))
    as Hall by (apply forallb_returning; intros; now apply returning_view).
  rewrite Hall, Hn, Hpr in *.
  split; [exact H0 |]. split; [| auto].
  rewrite (forEach_keeps renders) by (intros; apply launch_renders). exact Hr.
Qed.

Lemma validateField_launches_rules_witness :
  let s := initial samplePage in
  let s' := after (validateField sampleConfig 1 s) in
  rulesOn sampleConfig (textInput "b" [("data-eager-remote", "/check?v={value}")])
  = [("remote", RemoteRule)]
  /\ renders s' = [ClearError 1]
  /\ promises s' !! 0%nat = Some (Promise 1 "data-eager-remote" RemoteRule 1 false).
Proof.
  intros s s'.
  destruct (validateField_launches_rules sampleConfig 1 s
              (textInput "b" [("data-eager-remote", "/check?v={value}")])
              eq_refl eq_refl eq_refl eq_refl)
    as (_ & H1 & _ & H3 & _).
  split; [reflexivity | split; [exact H1 |]].
  exact (H3 0%nat ("remote", RemoteRule) eq_refl).
Defined.

(** A malformed escape in the attribute of the remote rule: the pass
    clears the display, then throws, and no promise is made. *)
Lemma validateField_malformed_endpoint :
  let el := textInput "b" [("data-eager-remote", "/check?v=100%")] in
  let m := validateField sampleConfig 0 (initial [el; submitButton]) in
  decodeURIComponent "/check?v=100%" = None
  /\ m = Abrupt "URIError" (after m)
  /\ renders (after m) = [ClearError 0]
  /\ promises (after m) = ∅
  /\ network (after m) = [].
Proof. intros el m. do 4 (split; [vm_compute; reflexivity |]). vm_compute. reflexivity. Qed.

(** *** [validate] *)

Lemma reported_view el el' : validityView el = validityView el' -> reported el = reported el'.
Proof.
  unfold validityView. intros [= Ht Hi Hty Ha Hv Hc Hw Hvi Hn Hcv Hin Hli].
  unfold reported, checkValidity, valid. now rewrite Hw, Hvi, Hcv.
Qed.

Lemma passedOver_passThrows c el el' :
  validityView el = validityView el' -> passThrows c el = passThrows c el'.
Proof.
  intros Hv. unfold passThrows.
  rewrite (passedOver_view _ _ _ Hv), (reported_view _ _ Hv), (rulesOn_view c _ _ Hv).
  now rewrite (forallb_returning c el el') by (intros; now apply returning_view).
Qed.

Lemma visited_view el el' : validityView el = validityView el' -> visited el = visited el'.
Proof. intros Hv. unfold visited. now rewrite (view_listed _ _ Hv), (view_tagName _ _ Hv). Qed.

(** [validateField] throws exactly on the controls for which it comes to
    launch a rule that throws. *)
Lemma validateField_threw c i s el :
  fields s !! i = Some el -> threw (validateField c i s) = passThrows c el.
Proof.
  intros Hel. unfold passThrows.
  destruct (passedOver (opts c) el) eqn:Hp.
  { rewrite validateField_skip; [reflexivity |]. intros el' Hel'. congruence. }
  rewrite (validateField_pass c i s el Hel Hp). cbn [negb andb].
  set (g := S (default 0%nat (generation s !! i))). fold (reported el).
  destruct (reported el) as [| k ks] eqn:Hrep.
  - rewrite bool_decide_eq_true_2 by reflexivity. cbn [andb].
    set (s0 := if checkValidity el then doClearError c i (passStart i g s)
               else passStart i g s).
    assert (exists el0, fields s0 !! i = Some el0 /\ validityView el0 = validityView el)
      as (el0 & Hel0 & Hv).
    { subst s0. destruct (checkValidity el).
      - exists (clearError c el). simpl. rewrite list_lookup_alter_eq, Hel.
        split; [reflexivity | apply clearError_view].
      - exists el. auto. }
    destruct (forEach_launch c i g (rules c) s0 el0 Hel0) as (H0 & _).
    cbn zeta in H0. fold (rulesOn c el0) in H0.
    rewrite H0, (rulesOn_view c _ el Hv).
    now rewrite (forallb_returning c el0 el) by (intros; now apply returning_view).
  - now rewrite bool_decide_eq_false_2 by discriminate.
Qed.

Lemma validate_walk c els0 n :
  forall k s,
    validityView <$> fields s = validityView <$> els0 ->
    (k + n = length els0)%nat ->
    let m :=
      forEach
        (λ acc i,
           match fields acc !! i with
           | Some el =>
               if listed el && bool_decide (tagName el ≠ "FIELDSET")
               then validateField c i acc else Normal acc
           | None => Normal acc
           end) (seq k n) s in
    threw m = validateThrows c (drop k els0)
    /\ calls (after m) = calls s ++ ((λ i, (clock s, i)) <$> walk c k (drop k els0))
    /\ clock (after m) = clock s.
Proof.
  induction n as [| n IH]; intros k s Hview Hlen; cbn [seq forEach].
  - rewrite drop_ge by lia. simpl. now rewrite app_nil_r.
  - assert (exists el0, els0 !! k = Some el0) as [el0 Hel0]
        by (apply lookup_lt_is_Some; lia).
    assert (exists el, fields s !! k = Some el /\ validityView el = validityView el0)
      as (el & Hel & Hv).
    { assert ((validityView <$> fields s) !! k = Some (validityView el0)) as H
          by (rewrite Hview, list_lookup_fmap, Hel0; reflexivity).
      rewrite list_lookup_fmap in H. destruct (fields s !! k) as [el |]; [| discriminate].
      exists el. split; [reflexivity |].
      cbn [fmap option_fmap option_map] in H. now apply (inj Some) in H. }
    rewrite (drop_S _ _ _ Hel0). cbn [walk validateThrows existsb].
    rewrite Hel. fold (visited el). rewrite (visited_view _ _ Hv).
    destruct (visited el0); cbn [andb orb].
    + pose proof (validateField_threw c k s el Hel) as Ht.
      rewrite (passedOver_passThrows c _ _ Hv) in Ht.
      pose proof (validateField_sched c k s) as Hsch. unfold schedView in Hsch.
      injection Hsch as Hck _ _ _ _ _ Hcalls.
      pose proof (validateField_views c k s) as Hviews.
      destruct (validateField c k s) as [s1 | e s1]; cbn [threw after] in *.
      * rewrite <- Ht. cbn [orb].
        destruct (IH (S k) s1) as (H1 & H2 & H3); [congruence | lia |].
        cbn zeta in *. rewrite H1, H2, H3, Hck, Hcalls, <- app_assoc. auto.
      * rewrite <- Ht. cbn [orb]. rewrite Hcalls, Hck. auto.
    + apply IH; [exact Hview | lia].
Qed.

Lemma walk_all c els :
  forall k,
    validateThrows c els = false ->
    walk c k els
    = fst <$> filter (λ x, visited x.2 = true) (zip (seq k (length els)) els).
Proof.
  induction els as [| el els IH]; intros k Hnone; [reflexivity |].
  cbn [walk validateThrows existsb length seq zip zip_with] in *.
  apply orb_false_iff in Hnone as [Hel Hrest]. rewrite filter_cons. cbn [snd].
  destruct (visited el); cbn [andb] in Hel.
  - rewrite Hel, decide_True by reflexivity. cbn [fmap list_fmap fst]. f_equal.
    now apply IH.
  - rewrite decide_False by discriminate. now apply IH.
Qed.

(** [validate], by the controls of the form. *)
Lemma validate_outcome c s :
  threw (validate c s) = validateThrows c (fields s)
  /\ calls (after (validate c s))
     = calls s ++ ((λ i, (clock s, i)) <$> walk c 0 (fields s))
  /\ clock (after (validate c s)) = clock s.
Proof.
  unfold validate.
  destruct (validate_walk c (fields s) (length (fields s)) 0 s eq_refl eq_refl)
    as (H1 & H2 & H3).
  cbn zeta in *. rewrite drop_0 in H1, H2. auto.
Qed.

(** Whether [validate] throws is decided by the validity of the controls. *)
Lemma validateThrows_view c els els' :
  validityView <$> els = validityView <$> els' ->
  validateThrows c els = validateThrows c els'.
Proof.
  revert els'. induction els as [| el els IH]; intros [| el' els'] Hv;
    try discriminate; [reflexivity |].
  rewrite !fmap_cons in Hv. apply (inj2 cons) in Hv as [Hel Hrest].
  cbn [validateThrows existsb].
  rewrite (visited_view _ _ Hel), (passedOver_passThrows c _ _ Hel). f_equal.
  now apply IH.
Qed.

(** X12.  [validate] walks over [form.elements] in document order and
    calls [validateField], at the time of the call, for every member that
    is not a fieldset; buttons and suppressed controls are among them (it
    is [validateField] that passes them over), controls that are inside
    the form but belong to another form are not.  The walk ends where
    [validateField] throws: the controls behind that one are not visited,
    and [validate] throws.  On a form none of whose controls carries the
    [reference] rule these are the only calls. *)
Theorem validate_visits_every_control (c : config) (s : state) :
  Forall (λ el, carriesReference c el = false) (fields s) ->
  let m := validate c s in
  threw m = validateThrows c (fields s)
  /\ calls (after m) = calls s ++ ((λ i, (clock s, i)) <$> walk c 0 (fields s))
  /\ (validateThrows c (fields s) = false ->
      walk c 0 (fields s)
      = fst <$> filter (λ x, visited x.2 = true)
                  (zip (seq 0 (length (fields s))) (fields s))).
Proof.
  intros _ m. subst m. destruct (validate_outcome c s) as (H1 & H2 & _).
  split; [exact H1 | split; [exact H2 |]]. apply walk_all.
Qed.

Lemma validate_visits_every_control_witness :
  let fieldset := Element "FIELDSET" "" "fieldset" ∅ [] true false [] "" "" [] "" true true in
  let foreign := Element "INPUT" "x" "text" (list_to_map [("name", "x"); ("form", "other")])
                   [] true true [] "" "" [] "" true false in
  let s := initial [fieldset; textInput "a" []; foreign; textInput "b" []] in
  calls (after (validate sampleConfig s)) = [(0%nat, 1%nat); (0%nat, 3%nat)].
Proof.
  intros fieldset foreign s.
  refine (proj1 (proj2 (validate_visits_every_control sampleConfig s _))).
  repeat constructor.
Defined.

(** *** Controls that are passed over *)

Lemma untouched_same i el0 s s' :
  fields s' = fields s -> renders s' = renders s -> promises s' = promises s ->
  untouched i el0 s -> untouched i el0 s'.
Proof. intros Hf Hr Hp [H1 H2 H3]. split; now rewrite ?Hf, ?Hr, ?Hp. Qed.

(** A render call or a settlement for another field. *)
Lemma untouched_alter i el0 j (f : element -> element) r s :
  j <> i -> renderedField r = j ->
  untouched i el0 s ->
  untouched i el0 (set_renders (renders s ++ [r]) (set_fields (alter f j (fields s)) s)).
Proof.
  intros Hne Hr [H1 H2 H3]. split; simpl.
  - now rewrite list_lookup_alter_ne.
  - intros r' [Hin | ->%list_elem_of_singleton]%elem_of_app; [auto | congruence].
  - exact H3.
Qed.

Lemma untouched_newPromise i el0 j a r g s :
  j <> i -> untouched i el0 s -> untouched i el0 (newPromise j a r g s).1.
Proof.
  intros Hne [H1 H2 H3]. split; simpl; auto.
  intros p pr. destruct (decide (p = nextPromise s)) as [-> | Hp].
  - rewrite lookup_insert_eq. intros [= <-]. exact Hne.
  - rewrite lookup_insert_ne by congruence. apply H3.
Qed.

Lemma untouched_launch c i el0 j g s r :
  j <> i -> untouched i el0 s -> untouched i el0 (after (launch c j g s r)).
Proof.
  intros Hne Hs. destruct (fields s !! j) as [el |] eqn:Hel;
    [| unfold launch; now rewrite Hel].
  destruct (hasAttribute el (ruleAttribute r.1)) eqn:Ha;
    [| now rewrite (launch_absent c j g s r el Hel Ha)].
  destruct Hs as [H1 H2 H3]. split.
  - now rewrite launch_fields.
  - now rewrite launch_renders.
  - destruct (returning c el r) eqn:Hret.
    + destruct (launch_present c j g s r el Hel Ha Hret) as (_ & Hp & _).
      intros p pr. rewrite Hp. destruct (decide (p = nextPromise s)) as [-> | Hq].
      * rewrite lookup_insert_eq. intros [= <-]. exact Hne.
      * rewrite lookup_insert_ne by congruence. apply H3.
    + destruct (launch_throws c j g s r el Hel Ha Hret) as (_ & Hp & _).
      now rewrite Hp.
Qed.

Lemma untouched_validateField c i el0 j s :
  passedOver (opts c) el0 = true ->
  untouched i el0 s -> untouched i el0 (after (validateField c j s)).
Proof.
  intros Hp0 Hs. destruct (decide (j = i)) as [-> | Hne].
  - rewrite validateField_skip; [revert Hs; now apply untouched_same |].
    intros el Hel. destruct Hs as [H1 _ _]. rewrite Hel in H1. simpl in H1.
    assert (validityView el = validityView el0) as Hv by congruence.
    now rewrite (passedOver_view _ _ _ Hv).
  - destruct (fields s !! j) as [el |] eqn:Hel.
    2:{ rewrite validateField_skip; [revert Hs; now apply untouched_same |].
        intros el. congruence. }
    destruct (passedOver (opts c) el) eqn:Hp.
    { rewrite validateField_skip; [revert Hs; now apply untouched_same |].
      intros el' Hel'. congruence. }
    rewrite (validateField_pass c j s el Hel Hp).
    set (g := S (default 0%nat (generation s !! j))).
    assert (untouched i el0 (passStart j g s)) as Hs0
        by (revert Hs; now apply untouched_same).
    destruct (if checkValidity el then [] else violated el) as [| k ks].
    + apply forEach_after; [intros; now apply untouched_launch |].
      destruct (checkValidity el); [| exact Hs0].
      now apply (untouched_alter i el0 j (clearError c) (ClearError j)).
    + cbn [after]. generalize (k :: ks). intros l. revert Hs0.
      generalize (passStart j g s). induction l as [| k' l IH]; intros s1 Hs1; simpl;
        [exact Hs1 |].
      apply IH. now apply (untouched_alter i el0 j (setError c k') (SetError j k')).
Qed.

Lemma untouched_kept c i el0 :
  passedOver (opts c) el0 = true -> keptByPasses c (untouched i el0).
Proof.
  intros Hp. split.
  - intros s s' Hv. unfold contentView in Hv.
    apply untouched_same; injection Hv; intros; congruence.
  - intros j s. now apply untouched_validateField.
Qed.

Lemma untouched_settle c i el0 p o s :
  untouched i el0 s -> untouched i el0 (settle c p o s).
Proof.
  intros Hs. unfold settle.
  destruct (promises s !! p) as [pr |] eqn:Hpr; [| exact Hs].
  destruct (settled pr); [exact Hs |].
  pose proof (no_promise i el0 s Hs p pr Hpr) as Hne.
  assert (untouched i el0
            (set_applied (applied s ++ [(p, o)])
               (set_promises
                  (<[p := Promise (onField pr) (forAttribute pr) (ofRule pr) (pass pr) true]>
                     (promises s)) s))) as Hs1.
  { destruct Hs as [H1 H2 H3]. split; simpl; auto.
    intros q qr. destruct (decide (q = p)) as [-> | Hq].
    - rewrite lookup_insert_eq. intros [= <-]. exact Hne.
    - rewrite lookup_insert_ne by congruence. apply H3. }
  destruct o as [| err]; unfold onFulfilled, onRejected, doClearError, doSetError.
  - apply (untouched_alter i el0 (onField pr) (clearError c) (ClearError (onField pr)));
      [exact Hne | reflexivity |].
    destruct Hs1 as [H1 H2 H3]. split; simpl; auto.
    now rewrite list_lookup_alter_ne.
  - apply (untouched_alter i el0 (onField pr) (setError c "customError")
             (SetError (onField pr) "customError")); [exact Hne | reflexivity |].
    destruct Hs1 as [H1 H2 H3]. split; simpl; auto.
    now rewrite list_lookup_alter_ne.
Qed.

Lemma onLoad_settles c h st s :
  onLoad c h st s = s
  \/ exists p o s1,
       fields s1 = fields s /\ renders s1 = renders s /\ promises s1 = promises s
       /\ onLoad c h st s = settle c p o s1.
Proof.
  unfold onLoad. destruct (handles s !! h) as [[rs [[[p rv] m] |]] |]; auto.
  right. exists p.
  destruct (if rv then negb (st =? 200) else (st =? 200)).
  - exists Resolved. eexists. split; [| split; [| split; [| reflexivity]]];
      destruct (promises s !! p); reflexivity.
  - exists (Rejected m). eexists. split; [| split; [| split; [| reflexivity]]];
      destruct (promises s !! p); reflexivity.
Qed.

Lemma untouched_step c i el0 s a :
  passedOver (opts c) el0 = true ->
  untouched i el0 s -> untouched i el0 (step c s a).
Proof.
  intros Hp Hs. pose proof (untouched_kept c i el0 Hp) as Hk.
  destruct a as [ev | ms | p o | h rs | h st | h |]; simpl.
  - now apply (kept_dispatch c _ Hk).
  - now apply (kept_wait c _ Hk).
  - destruct (promises s !! p) as [pr |]; [| exact Hs].
    destruct (ofRule pr); [| exact Hs]. now apply untouched_settle.
  - case_bool_decide; [| exact Hs]. revert Hs. now apply untouched_same.
  - case_bool_decide; [| exact Hs].
    set (s1 := setReadyState h 4 _).
    assert (untouched i el0 s1) as Hs1 by (revert Hs; now apply untouched_same).
    destruct (onLoad_settles c h st s1) as [-> | (p & o & s2 & Hf & Hr & Hpr & ->)];
      [exact Hs1 |].
    apply untouched_settle. revert Hs1. now apply untouched_same.
  - case_bool_decide; [| exact Hs]. revert Hs. now apply untouched_same.
  - now apply (kept_report c _ Hk), (kept_validate c _ Hk).
Qed.

(** X13.  A control that [validateField] passes over (a button, a
    control marked [novalidate], a control without a name unless
    [validateWithoutName] is set, an element without constraint
    validation) is left alone whatever happens on the page: events on it
    or on other controls, [validate], timers, settlements and responses.
    No render call is ever made for it, no rule is ever launched for it,
    and its validity, custom validity included, stays what it was. *)
Theorem passed_over_control_untouched (c : config) (els : list element) (s : state)
    (i : nat) (el0 : element) :
  els !! i = Some el0 ->
  passedOver (opts c) el0 = true ->
  reachable c els s ->
  untouched i el0 s.
Proof.
  intros Hel Hp [tr ->].
  assert (untouched i el0 (initial els)) as H0.
  { split; simpl.
    - now rewrite Hel.
    - intros r Hr. inversion Hr.
    - intros p pr Hpr. rewrite lookup_empty in Hpr. discriminate. }
  revert H0. unfold run. generalize (initial els).
  induction tr as [| a tr IH]; intros s0 Hs0; simpl; [exact Hs0 |].
  apply IH. now apply untouched_step.
Qed.

Lemma passed_over_control_untouched_witness :
  let held := requiredEmpty "a" [("novalidate", ""); ("data-eager-available", "1")] in
  let s := run sampleConfig (initial [held; textInput "b" []])
             [change 0; ValidateAll; Wait 200; change 1] in
  untouched 0 held s.
Proof.
  intros held s.
  apply (passed_over_control_untouched sampleConfig [held; textInput "b" []] s 0 held).
  - reflexivity.
  - reflexivity.
  - eexists. reflexivity.
Defined.

(** *** From a trigger to the call *)


Section Trigger.

Variable c : config.

(** A handler that throws at the submit button: the exception is
    reported, and that is all. *)
Lemma dispatch_throws ev s el :
  fields s !! target ev = Some el ->
  handled c ev s ->
  throwsOnChange c ev s = true ->
  step c s (Dispatch ev) = set_uncaught (uncaught s ++ ["TypeError"]) s.
Proof.
  intros Hel Hh Hthrow. rewrite (step_dispatch c ev s Hh).
  now rewrite (handleInput_throws c ev s el Hel (proj2 (proj2 Hh)) Hthrow).
Qed.




End Trigger.



(** *** Settlements *)

(** X15.  When a rule rejects without a reason (or with an empty one) and
    the control carries neither the error attribute of the rule nor the
    global one, the custom validity of the control is set to the empty
    text: the error is rendered (the render call is made and the control
    gets the invalid class), but a control without native violation is
    then valid, its feedback is empty, and [getFirstError] does not
    select it. *)
Theorem rejection_without_text (c : config) (s : state) (p : nat) (pr : promise)
    (el : element) (err : option string) :
  promises s !! p = Some pr ->
  ofRule pr = CustomRule ->
  settled pr = false ->
  fields s !! onField pr = Some el ->
  getAttribute el (forAttribute pr +:+ "-error") = None ->
  getAttribute el ("data-" +:+ RULE_PREFIX +:+ "-error") = None ->
  default "" err = "" ->
  let s' := step c s (Settle p (Rejected err)) in
  renders s' = renders s ++ [SetError (onField pr) "customError"]
  /\ exists el',
       fields s' !! onField pr = Some el'
       /\ customValidity el' = ""
       /\ (inputValidClass (opts c) <> inputInvalidClass (opts c) ->
           inputInvalidClass (opts c) ∈ classList el')
       /\ (violated el = [] ->
           checkValidity el' = true /\ feedback el' = "" /\ selected el' = false).
Proof.
  intros Hp Hrule Hset Hel Ha Hg Herr. simpl. rewrite Hp, Hrule.
  unfold settle. rewrite Hp, Hset. simpl.
  split; [reflexivity |].
  rewrite !list_lookup_alter_eq, Hel. simpl.
  eexists. split; [reflexivity |].
  unfold rejectionMessage. rewrite Ha, Hg, Herr.
  set (el1 := setCustomValidity "" el).
  pose proof (setError_view c "customError" el1) as Hv.
  assert (customValidity (setError c "customError" el1) = "") as Hcv
      by (now rewrite (view_customValidity _ _ Hv)).
  split; [exact Hcv |]. split; [intros Hne; now apply setError_classes |].
  intros Hvi.
  assert (violated (setError c "customError" el1) = []) as Hvi'
      by (now rewrite (view_violated _ _ Hv)).
  assert (valid (setError c "customError" el1) = true) as Hvalid
      by (unfold valid; now rewrite Hvi', Hcv).
  split; [unfold checkValidity; rewrite Hvalid; apply orb_true_r |].
  split.
  - unfold setError. cbn [feedback setFeedback]. unfold getMessage.
    rewrite bool_decide_eq_true_2 by reflexivity.
    unfold validationMessage, checkValidity, valid.
    cbn [violated customValidity willValidate classRemove classAdd setClassList].
    assert (violated (classAdd (inputInvalidClass (opts c)) el1) = []) as ->.
    { unfold classAdd. destruct (hasClass _ _); subst el1; simpl; exact Hvi. }
    assert (customValidity (classAdd (inputInvalidClass (opts c)) el1) = "") as ->.
    { unfold classAdd. destruct (hasClass _ _); reflexivity. }
    simpl. now rewrite orb_true_r.
  - unfold selected, matchesInvalid. rewrite Hvalid. simpl.
    now rewrite !andb_false_r.
Qed.

Lemma rejection_without_text_witness :
  let s := run sampleConfig (initial samplePage) [change 0] in
  let s' := step sampleConfig s (Settle 0 (Rejected None)) in
  renders s' = renders s ++ [SetError 0 "customError"]
  /\ isValid defaultOptions (formOf s') = true.
Proof.
  intros s s'.
  assert (promises s !! 0%nat = Some (Promise 0 "data-eager-available" CustomRule 1 false))
    as Hp by (vm_compute; reflexivity).
  assert (fields s !! 0%nat
          = Some (clearError sampleConfig (textInput "a" [("data-eager-available", "1")])))
    as Hel by (vm_compute; reflexivity).
  destruct (rejection_without_text sampleConfig s 0 _ _ None Hp eq_refl eq_refl Hel
              ltac:(vm_compute; reflexivity) ltac:(vm_compute; reflexivity) eq_refl)
    as (H1 & _).
  split; [exact H1 | vm_compute; reflexivity].
Defined.

(** *** The answer to a remote request *)

(** X16.  When the remote rule returns for a control (its endpoint can
    be decoded and the platform accepts the request) and the response to
    the request it sent arrives, the promise of that request is settled,
    and by the status alone: resolved when the status is exactly 200,
    rejected with the [remoteInvalid] text of the catalog for any other
    status; the other way round when the control's reverse attribute is
    the text [true].  The busy mark that the rule set is set back, and
    the control is rendered accordingly. *)
Theorem remote_status_decides (c : config) (s : state) (i : nat) (el : element)
    (attribute : string) (g : nat) (status : Z) :
  fields s !! i = Some el ->
  remoteReturns c el attribute = true ->
  let h := handleName el in
  let reverse := bool_decide (getAttribute el (attribute +:+ "-reverse") = Some "true") in
  let o := if xorb (status =? 200) reverse then Resolved
           else Rejected (translate (cat c) "remoteInvalid") in
  let s1 := after (remoteRule c i attribute g s) in
  let s2 := step c s1 (Load h status) in
  remoteRule c i attribute g s = Normal s1
  /\ busy s1 !! i = Some "true"
  /\ applied s2 = applied s ++ [(nextPromise s, o)]
  /\ busy s2 !! i = Some "false"
  /\ fields s2 !! i = Some (afterSettlement c el attribute o)
  /\ renders s2 = renders s ++ [renderOf i o].
Proof.
  intros Hel Hret h reverse o s1 s2.
  destruct (remoteRule_handle c i attribute g s el Hel Hret) as (Hn & _).
  destruct (remote_response c s i el attribute g status Hel Hret)
    as (H1 & H2 & H3 & H4 & H5 & _).
  repeat split; assumption.
Qed.

Lemma remote_status_decides_witness :
  let s := initial samplePage in
  let s2 := step sampleConfig (after (remoteRule sampleConfig 1 "data-eager-remote" 1 s))
              (Load "__remote_request_b" 404) in
  applied s2 = [(0%nat, Rejected (Some "The field doesn't pass remote validation."))]
  /\ busy s2 !! 1%nat = Some "false".
Proof.
  intros s s2.
  destruct (remote_status_decides sampleConfig s 1
              (textInput "b" [("data-eager-remote", "/check?v={value}")])
              "data-eager-remote" 1 404 eq_refl eq_refl)
    as (_ & _ & H1 & H2 & _).
  split; [exact H1 | exact H2].
Defined.

(** *** The submit button *)

Section Submit.

Variable c : config.

Lemma report_submit m : submitDisabled (report m) = submitDisabled (after m).
Proof. now apply report_view. Qed.

Lemma launch_submit j g s r : submitDisabled (after (launch c j g s r)) = submitDisabled s.
Proof.
  unfold launch, remoteRule, newPromise. cbn beta iota zeta.
  repeat split_match; reflexivity.
Qed.

Lemma validateField_submit i s :
  submitDisabled (after (validateField c i s)) = submitDisabled s.
Proof.
  destruct (fields s !! i) as [el |] eqn:Hel.
  2:{ rewrite validateField_skip; [reflexivity |]. intros el. congruence. }
  destruct (passedOver (opts c) el) eqn:Hp.
  { rewrite validateField_skip; [reflexivity |]. intros el' Hel'. congruence. }
  rewrite (validateField_pass c i s el Hel Hp).
  destruct (if checkValidity el then [] else violated el).
  - rewrite (forEach_keeps submitDisabled) by (intros; apply launch_submit).
    now destruct (checkValidity el).
  - cbn [after]. now rewrite (fold_left_keeps submitDisabled) by reflexivity.
Qed.

Lemma invoke_submit cb arg s :
  submitDisabled (after (invoke c cb arg s)) = submitDisabled s.
Proof.
  destruct cb; simpl; [apply validateField_submit |].
  unfold callDebounced, setTimeout. cbn beta iota zeta. repeat split_match; reflexivity.
Qed.

Lemma fire_submit s t : submitDisabled (fire c s t) = submitDisabled s.
Proof.
  unfold fire. case_bool_decide; [| reflexivity]. rewrite report_submit.
  destruct (job t); [now rewrite invoke_submit |].
  unfold timerExpired, setTimeout. cbn beta iota zeta.
  repeat split_match; cbn [after]; rewrite ?validateField_submit; reflexivity.
Qed.

Lemma wait_submit n s : submitDisabled (Nat.iter n (tick c) s) = submitDisabled s.
Proof.
  induction n as [| n IH]; simpl; [reflexivity |].
  unfold tick at 1. rewrite (fold_left_keeps submitDisabled) by (intros; apply fire_submit).
  exact IH.
Qed.

Lemma settle_submit p o s : submitDisabled (settle c p o s) = submitDisabled s.
Proof. unfold settle. repeat split_match; reflexivity. Qed.

Lemma validate_submit s : submitDisabled (after (validate c s)) = submitDisabled s.
Proof.
  unfold validate. apply (forEach_keeps submitDisabled).
  intros s0 i. repeat split_match; cbn [after]; rewrite ?validateField_submit; reflexivity.
Qed.

Lemma handleInput_submit ev s el :
  fields s !! target ev = Some el ->
  noTriggerOnTab (opts c) && bool_decide (key ev = Some "Tab") = false ->
  submitDisabled (after (handleInput c ev s))
  = if bool_decide (etype ev = "change") && Form.disableSubmit (opts c)
       && isValid (opts c) (formOf s) && submitBtn s
    then false else submitDisabled s.
Proof.
  intros Hel Htab.
  destruct (throwsOnChange c ev s) eqn:Hthrow.
  { rewrite (handleInput_throws c ev s el Hel Htab Hthrow). cbn [after].
    unfold throwsOnChange in Hthrow. apply andb_true_iff in Hthrow as [-> Hb].
    apply negb_true_iff in Hb. now rewrite Hb. }
  unfold handleInput. rewrite Hel, Htab, enableOnChange_cases, Hthrow. cbn [andThen].
  assert (submitDisabled (pastSubmit c ev s)
          = if bool_decide (etype ev = "change") && Form.disableSubmit (opts c)
               && isValid (opts c) (formOf s) && submitBtn s
            then false else submitDisabled s) as <-.
  { unfold pastSubmit. unfold throwsOnChange in Hthrow.
    destruct (bool_decide (etype ev = "change") && Form.disableSubmit (opts c)
              && isValid (opts c) (formOf s)); [| reflexivity].
    cbn [andb] in *. apply negb_false_iff in Hthrow. now rewrite Hthrow. }
  generalize (pastSubmit c ev s). intros s0.
  destruct (positive (bounceOf c el (etype ev))) as [bounce |];
    destruct (positive (delayOf c el (etype ev))) as [ms |]; simpl.
  - destruct (intervals _ !! _); reflexivity.
  - unfold callDebounced. simpl. rewrite lookup_insert_eq. reflexivity.
  - destruct (intervals _ !! _); reflexivity.
  - apply validateField_submit.
Qed.

(** Whether there is a submit button does not change under a pass. *)
Lemma launch_submitBtn j g s r : submitBtn (after (launch c j g s r)) = submitBtn s.
Proof.
  unfold launch, remoteRule, newPromise. cbn beta iota zeta.
  repeat split_match; reflexivity.
Qed.

Lemma validateField_submitBtn i s : submitBtn (after (validateField c i s)) = submitBtn s.
Proof.
  destruct (fields s !! i) as [el |] eqn:Hel.
  2:{ rewrite validateField_skip; [reflexivity |]. intros el. congruence. }
  destruct (passedOver (opts c) el) eqn:Hp.
  { rewrite validateField_skip; [reflexivity |]. intros el' Hel'. congruence. }
  rewrite (validateField_pass c i s el Hel Hp).
  destruct (if checkValidity el then [] else violated el).
  - rewrite (forEach_keeps submitBtn) by (intros; apply launch_submitBtn).
    now destruct (checkValidity el).
  - cbn [after]. now rewrite (fold_left_keeps submitBtn) by reflexivity.
Qed.

Lemma validate_submitBtn s : submitBtn (after (validate c s)) = submitBtn s.
Proof.
  unfold validate. apply (forEach_keeps submitBtn).
  intros s0 i. repeat split_match; cbn [after]; rewrite ?validateField_submitBtn; reflexivity.
Qed.

Lemma fire_submitBtn s t : submitBtn (fire c s t) = submitBtn s.
Proof.
  unfold fire. case_bool_decide; [| reflexivity].
  rewrite (report_view submitBtn) by reflexivity.
  destruct (job t) as [[| d] ev | d]; cbn [invoke after].
  - now rewrite validateField_submitBtn.
  - unfold callDebounced, setTimeout. cbn beta iota zeta. repeat split_match; reflexivity.
  - unfold timerExpired, setTimeout. cbn beta iota zeta.
    repeat split_match; cbn [after]; rewrite ?validateField_submitBtn; reflexivity.
Qed.

Lemma wait_submitBtn n s : submitBtn (Nat.iter n (tick c) s) = submitBtn s.
Proof.
  induction n as [| n IH]; simpl; [reflexivity |].
  unfold tick at 1. rewrite (fold_left_keeps submitBtn) by (intros; apply fire_submitBtn).
  exact IH.
Qed.

(** An event that is not handled changes nothing. *)
Lemma dispatch_unhandled ev s : ~ handled c ev s -> step c s (Dispatch ev) = s.
Proof.
  intros Hn. simpl. case_bool_decide as Hty; [| reflexivity].
  destruct (reaches ev s) eqn:Hin; [| reflexivity]. simpl.
  unfold handleInput. unfold reaches in Hin.
  destruct (fields s !! target ev) as [el |] eqn:Hel; [| reflexivity].
  destruct (noTriggerOnTab (opts c) && bool_decide (key ev = Some "Tab")) eqn:Htab;
    [reflexivity |].
  destruct Hn. split; [exact Hty | split; [| exact Htab]].
  unfold reaches. now rewrite Hel.
Qed.

End Submit.

(** X17.  Nothing in the loop disables the submit button: neither an
    event, nor [validate], nor a timer, a settlement or a response.  On a
    form none of whose controls carries the [reference] rule, one thing
    only enables it: a change event that [handleInput] handles, under
    [disableSubmit], at a moment when [getFirstError] finds no control
    inside the form; the button is then enabled at once, before the
    target is validated and whatever debounce or delay applies to the
    validation.  When the instance has no submit button, that same event
    makes the handler throw a [TypeError] instead, and the handler has
    done nothing else.  An event that [handleInput] does not handle (a
    type outside [revalidate], a target outside the form, a Tab key under
    [noTriggerOnTab]) changes nothing. *)
Theorem change_enables_submit (c : config) (s : state) :
  Forall (λ el, carriesReference c el = false) (fields s) ->
  (forall a, submitDisabled s = false -> submitDisabled (step c s a) = false)
  /\ (forall ev,
        handled c ev s ->
        let enables :=
          bool_decide (etype ev = "change") && Form.disableSubmit (opts c)
          && isValid (opts c) (formOf s) in
        let s' := step c s (Dispatch ev) in
        submitDisabled s' = (if enables && submitBtn s then false else submitDisabled s)
        /\ (enables && negb (submitBtn s) = true ->
            s' = set_uncaught (uncaught s ++ ["TypeError"]) s))
  /\ (forall ev, ~ handled c ev s -> step c s (Dispatch ev) = s)
  /\ (forall a, (forall ev, a <> Dispatch ev) ->
        submitDisabled (step c s a) = submitDisabled s).
Proof.
  intros _.
  assert (forall a, (forall ev, a <> Dispatch ev) ->
            submitDisabled (step c s a) = submitDisabled s) as Hother.
  { intros a Ha. destruct a as [ev | ms | p o | h rs | h st | h |]; simpl.
    - now destruct (Ha ev).
    - apply wait_submit.
    - repeat split_match; rewrite ?settle_submit; reflexivity.
    - case_bool_decide; reflexivity.
    - case_bool_decide; [| reflexivity]. unfold onLoad.
      repeat split_match; rewrite ?settle_submit; reflexivity.
    - case_bool_decide; reflexivity.
    - rewrite report_submit. apply validate_submit. }
  assert (forall ev, handled c ev s ->
            submitDisabled (step c s (Dispatch ev))
            = if bool_decide (etype ev = "change") && Form.disableSubmit (opts c)
                 && isValid (opts c) (formOf s) && submitBtn s
              then false else submitDisabled s) as Hev.
  { intros ev Hh. rewrite (step_dispatch c ev s Hh), report_submit.
    pose proof Hh as (_ & Hin & Htab). unfold reaches in Hin.
    destruct (fields s !! target ev) as [el |] eqn:Hel; [| discriminate].
    now apply (handleInput_submit c ev s el). }
  split; [| split; [| split; [intros ev; apply dispatch_unhandled | exact Hother]]].
  - intros a Hs. destruct a as [ev | | | | | |];
      try (rewrite Hother by discriminate; exact Hs).
    destruct (fields s !! target ev) as [el |] eqn:Hel.
    2:{ rewrite dispatch_unhandled; [exact Hs |].
        intros (_ & Hin & _). unfold reaches in Hin. now rewrite Hel in Hin. }
    simpl. case_bool_decide as Hty; [| exact Hs].
    destruct (reaches ev s) eqn:Hin; [| exact Hs]. simpl.
    destruct (noTriggerOnTab (opts c) && bool_decide (key ev = Some "Tab")) eqn:Htab.
    { unfold handleInput. now rewrite Hel, Htab. }
    rewrite report_submit, (handleInput_submit c ev s el Hel Htab), Hs.
    match goal with |- (if ?b then _ else _) = _ => now destruct b end.
  - intros ev Hh enables s'. split; [apply (Hev ev Hh) |].
    intros Hthrow. subst s'.
    pose proof Hh as (_ & Hin & Htab). unfold reaches in Hin.
    destruct (fields s !! target ev) as [el |] eqn:Hel; [| discriminate].
    now apply (dispatch_throws c ev s el).
Qed.

Lemma change_enables_submit_witness :
  let s := set_submitDisabled true (initial samplePage) in
  submitDisabled (step sampleConfig s (change 0)) = false
  /\ submitDisabled (step sampleConfig s (input 0)) = true.
Proof.
  intros s.
  destruct (change_enables_submit sampleConfig s ltac:(repeat constructor))
    as (_ & Hev & _).
  assert (forall ty, ty ∈ ["blur"; "change"; "input"] ->
            handled sampleConfig (Event 0 ty None) s) as Hh
      by (intros ty Hty; split; [exact Hty | split; reflexivity]).
  split.
  - refine (proj1 (Hev (Event 0 "change" None) (Hh "change" _))). right. left.
  - refine (proj1 (Hev (Event 0 "input" None) (Hh "input" _))). right. right. left.
Defined.

(** The same change event on a page with no submit button: the handler
    throws, and the control is not validated. *)
Example change_without_submit_button :
  let s := initial typingPage in
  let s' := step sampleConfig s (change 0) in
  uncaught s' = ["TypeError"] /\ calls s' = [] /\ submitBtn s = false.
Proof. vm_compute. repeat split; reflexivity. Qed.

End LoopMore.

(** ** Submission and reset *)

Module LifecycleMore.

Import Text Dom Message Form Loop Lifecycle LoopSpec Views Samples LoopFacts PassFacts FormMore LoopMore.

(** [validate] and the timers leave the validity of every control as it
    is, so [getFirstError] answers after them as before. *)
Lemma validate_views c s :
  validityView <$> fields (after (validate c s)) = validityView <$> fields s.
Proof. now apply (kept_validate c _ (views_kept c (validityView <$> fields s))). Qed.

Lemma wait_views c ms s :
  validityView <$> fields (Nat.iter ms (tick c) s) = validityView <$> fields s.
Proof. now apply (kept_wait c _ (views_kept c (validityView <$> fields s))). Qed.

Lemma validate_getFirstError c s :
  getFirstError (opts c) (formOf (after (validate c s))) = getFirstError (opts c) (formOf s).
Proof. unfold formOf. apply getFirstError_view, validate_views. Qed.

(** [handleSubmit], by whether [validate] throws and by what
    [getFirstError] answers before it. *)
Lemma handleSubmit_cases c d p :
  let e := after (validate c (engine p)) in
  let p2 :=
    set_formClassList
      (if bool_decide (formValidatedClass d ∈ formClassList p) then formClassList p
       else formClassList p ++ [formValidatedClass d])
      (set_engine e p) in
  if validateThrows c (fields (engine p))
  then threw (handleSubmit c d p) = true /\ after (handleSubmit c d p) = set_engine e p
  else
    handleSubmit c d p
    = match getFirstError (opts c) (formOf (engine p)) with
      | Some i =>
          let p3 := perform [PreventDefault; StopPropagation] p2 in
          if Form.disableSubmit (opts c)
          then (if submitBtn p
                then Normal (complete (hightlightErrors d i
                                         (set_engine (set_submitDisabled true (engine p3)) p3)))
                else Abrupt "TypeError" p3)
          else Normal (complete (hightlightErrors d i p3))
      | None => Normal (complete p2)
      end.
Proof.
  intros e p2. subst p2 e.
  destruct (validate_outcome c (engine p)) as (Hthrew & _).
  pose proof (validate_getFirstError c (engine p)) as Hfirst.
  pose proof (validate_submitBtn c (engine p)) as Hbtn.
  rewrite <- Hthrew. unfold handleSubmit, onEngine.
  destruct (validate c (engine p)) as [e | err e]; cbn [threw after andThen] in *;
    [| split; reflexivity].
  cbn [engine set_engine set_formClassList formClassList]. rewrite Hfirst.
  destruct (getFirstError (opts c) (formOf (engine p))) as [i |]; [| reflexivity].
  cbn zeta. destruct (Form.disableSubmit (opts c)); [| reflexivity].
  unfold disableSubmit, onEngine, Loop.disableSubmit, submitBtn.
  cbn [engine perform set_formClassList set_engine]. rewrite Hbtn.
  destruct (Loop.submitBtn (engine p)); reflexivity.
Qed.

(** X18.  [handleSubmit] runs [validate] first.  When [validate] throws
    (a remote rule throws on a control that the walk comes to), the
    handler throws with it: the submission is not prevented, whatever
    the validity of the form, and the form does not get the validated
    class.  When [validate] returns, the handler prevents the submission
    exactly when [getFirstError], asked before the handler runs, returns
    a control: the validation that the handler starts changes the display
    and launches rules, but what the rules find arrives later and plays
    no part; and the form carries the validated class. *)
Theorem handleSubmit_prevents_invalid (c : config) (d : display) (p : page) :
  let m := handleSubmit c d p in
  let thrown := validateThrows c (fields (engine p)) in
  (PreventDefault ∈ effectsSince p m
   <-> thrown = false /\ isValid (opts c) (formOf (engine p)) = false)
  /\ (exists rest,
        calls (engine (after m)) = calls (after (validate c (engine p))) ++ rest)
  /\ (thrown = true ->
      threw m = true /\ effectsSince p m = [] /\ formClassList (after m) = formClassList p)
  /\ (thrown = false -> formValidatedClass d ∈ formClassList (after m)).
Proof.
  intros m thrown. subst m thrown.
  pose proof (handleSubmit_cases c d p) as Hm. cbn zeta in Hm.
  unfold isValid, effectsSince.
  destruct (validateThrows c (fields (engine p))).
  { destruct Hm as (Hthrew & ->). cbn [effects set_engine engine formClassList].
    rewrite drop_all. split; [split; [intros H; inversion H | intros (H & _); discriminate] |].
    split; [exists []; now rewrite app_nil_r |]. split; [auto | discriminate]. }
  rewrite Hm. clear Hm.
  set (cl := if bool_decide (formValidatedClass d ∈ formClassList p) then formClassList p
             else formClassList p ++ [formValidatedClass d]).
  assert (formValidatedClass d ∈ cl) as Hcl.
  { subst cl. case_bool_decide as H; [exact H |]. apply elem_of_app. right. left. }
  destruct (getFirstError (opts c) (formOf (engine p))) as [i |].
  - assert (forall q, effects q = effects p ++ [PreventDefault; StopPropagation] ->
              PreventDefault ∈ drop (length (effects p)) (effects (complete (hightlightErrors d i q))))
      as Hq.
    { intros q Hq. unfold complete, hightlightErrors.
      destruct (isFocusing q), (autoScroll d), (focusFirstError d); simpl; rewrite Hq;
        rewrite <- ?app_assoc, drop_app_length; simpl; left. }
    destruct (Form.disableSubmit (opts c)); [destruct (submitBtn p) |].
    + split; [split; [auto | intros _; now apply Hq] |].
      split; [| split; [discriminate |]; intros _; unfold complete, hightlightErrors;
                destruct (isFocusing _), (autoScroll d), (focusFirstError d); exact Hcl].
      exists []. rewrite app_nil_r. unfold complete, hightlightErrors.
      destruct (isFocusing _), (autoScroll d), (focusFirstError d); reflexivity.
    + split; [split; [auto | intros _] |].
      * simpl. rewrite drop_app_length. left.
      * split; [exists []; now rewrite app_nil_r | split; [discriminate | intros _; exact Hcl]].
    + split; [split; [auto | intros _; now apply Hq] |].
      split; [| split; [discriminate |]; intros _; unfold complete, hightlightErrors;
                destruct (isFocusing _), (autoScroll d), (focusFirstError d); exact Hcl].
      exists []. rewrite app_nil_r. unfold complete, hightlightErrors.
      destruct (isFocusing _), (autoScroll d), (focusFirstError d); reflexivity.
  - split; [| split; [exists []; now rewrite app_nil_r
                     | split; [discriminate | intros _; exact Hcl]]].
    simpl. rewrite drop_app_length. split; [| intros (_ & H); discriminate].
    intros H%list_elem_of_singleton. discriminate.
Qed.

(** A submission of a form whose first control carries an endpoint that
    cannot be decoded: the handler throws, the submission of the invalid
    form goes through, and the form is not marked as validated. *)
Example handleSubmit_malformed_endpoint :
  let f := Form_ [textInput "b" [("data-eager-remote", "/check?v=100%")];
                  requiredEmpty "a" []; submitButton] None [] ∅ in
  let m := handleSubmit sampleConfig defaultDisplay (pageOf f) in
  isValid defaultOptions f = false
  /\ threw m = true
  /\ effects (after m) = []
  /\ formClassList (after m) = []
  /\ calls (engine (after m)) = [(0%nat, 0%nat)].
Proof. vm_compute. repeat split; reflexivity. Qed.

(** X19.  [handleSubmit] throws in two cases only: [validate] throws, and
    then nothing else is done (the submission is not prevented); or
    [validate] returns, the form is invalid, [disableSubmit] is set, and
    the instance found no submit button when it was constructed, and then
    it has prevented the submission and done nothing else.  When it
    throws, nothing is scrolled to or focused and the event [eager:done]
    is not dispatched.  In every other case it returns, the event
    [eager:done] is the last thing it does, and when it prevented the
    submission under [disableSubmit] the submit button is disabled. *)
Theorem handleSubmit_completion (c : config) (d : display) (p : page) :
  let m := handleSubmit c d p in
  let thrown := validateThrows c (fields (engine p)) in
  let invalid := negb (isValid (opts c) (formOf (engine p))) in
  (threw m = true <->
     thrown = true
     \/ (invalid = true /\ Form.disableSubmit (opts c) = true /\ submitBtn p = false))
  /\ (threw m = true ->
      effectsSince p m = if thrown then [] else [PreventDefault; StopPropagation])
  /\ (threw m = false ->
      (exists before, effectsSince p m = before ++ [Done] /\ Done ∉ before)
      /\ (invalid = true -> Form.disableSubmit (opts c) = true ->
          submitDisabled (engine (after m)) = true)).
Proof.
  intros m thrown invalid. subst m thrown invalid.
  pose proof (handleSubmit_cases c d p) as Hm. cbn zeta in Hm.
  unfold isValid, effectsSince.
  destruct (validateThrows c (fields (engine p))).
  { destruct Hm as (Hthrew & ->). rewrite Hthrew. cbn [effects set_engine].
    rewrite drop_all. split; [split; auto |]. split; [auto | discriminate]. }
  rewrite Hm. clear Hm.
  assert (forall i q pre,
            effects q = effects p ++ pre -> Done ∉ pre ->
            exists before,
              drop (length (effects p)) (effects (complete (hightlightErrors d i q)))
              = before ++ [Done] /\ Done ∉ before) as Hq.
  { intros i q pre Hq Hpre. unfold complete, hightlightErrors.
    destruct (isFocusing q), (autoScroll d), (focusFirstError d); simpl; rewrite Hq;
      rewrite <- ?app_assoc, drop_app_length.
    all: first
      [ exists pre; split; [reflexivity | exact Hpre]
      | exists (pre ++ [ScrollTo i; Focus i]); rewrite <- !app_assoc; split; [reflexivity |]
      | exists (pre ++ [ScrollTo i]); rewrite <- !app_assoc; split; [reflexivity |]
      | exists (pre ++ [Focus i]); rewrite <- !app_assoc; split; [reflexivity |] ].
    all: intros H; apply elem_of_app in H as [H | H]; [contradiction |];
      repeat (apply elem_of_cons in H as [H | H]; [discriminate |]); inversion H. }
  assert (Done ∉ [PreventDefault; StopPropagation]) as Hpre.
  { intros H. apply elem_of_cons in H as [H | H]; [discriminate |].
    apply list_elem_of_singleton in H. discriminate. }
  destruct (getFirstError (opts c) (formOf (engine p))) as [i |].
  - destruct (Form.disableSubmit (opts c)); [destruct (submitBtn p) |]; cbn [threw after negb].
    + split; [split; [discriminate | intros [H | (_ & _ & H)]; discriminate] |].
      split; [discriminate |]. intros _. split.
      * apply (Hq i _ [PreventDefault; StopPropagation]); [reflexivity | exact Hpre].
      * intros _ _. unfold complete, hightlightErrors.
        destruct (isFocusing _), (autoScroll d), (focusFirstError d); reflexivity.
    + split; [split; auto |]. split; [| discriminate].
      intros _. simpl. now rewrite drop_app_length.
    + split; [split; [discriminate | intros [H | (_ & H & _)]; discriminate] |].
      split; [discriminate |]. intros _. split; [| discriminate].
      apply (Hq i _ [PreventDefault; StopPropagation]); [reflexivity | exact Hpre].
  - cbn [threw after negb].
    split; [split; [discriminate | intros [H | (H & _)]; discriminate] |].
    split; [discriminate |]. intros _. split; [| discriminate].
    exists []. simpl. rewrite drop_app_length. split; [reflexivity |].
    intros H. inversion H.
Qed.

(** *** [restoreState] *)

Lemma clearValidation_view c el : validityView (clearValidation c el) = validityView el.
Proof. reflexivity. Qed.

Lemma clearValidation_cleared c el : displayCleared c (clearValidation c el).
Proof.
  unfold displayCleared, clearValidation.
  cbn [classList feedback setFeedback classRemove setClassList].
  split; [| split; [| reflexivity]].
  - intros [_ [H _]%list_elem_of_filter]%list_elem_of_filter. now apply H.
  - intros [H _]%list_elem_of_filter. now apply H.
Qed.

Lemma restored_view c el : validityView (restored c el) = validityView el.
Proof. unfold restored. now destruct (listed el). Qed.

Lemma restored_views c (els : list element) : validityView <$> (restored c <$> els) = validityView <$> els.
Proof.
  rewrite <- list_fmap_compose. apply list_fmap_ext. intros i el _. apply restored_view.
Qed.

Lemma restored_ids c (els : list element) : id <$> (restored c <$> els) = id <$> els.
Proof.
  rewrite <- list_fmap_compose. apply list_fmap_ext. intros i el _.
  unfold restored. simpl. now destruct (listed el).
Qed.

(** X20.  On an instance that has a submit button (or does not disable
    it), [restoreState] returns and takes the display back: no member of
    [form.elements] carries the valid or the invalid class or a feedback
    text, the form loses the validated class, and the submit button is
    enabled again under [disableSubmit].  It takes nothing else back: a
    control inside the form that belongs to another form is left as it
    is; the validity of every control, custom validity included, is as
    before, so [isValid] answers as before, and the timers, promises and
    requests that were pending are still pending. *)
Theorem restoreState_takes_display_back (c : config) (d : display) (p : page) :
  (Form.disableSubmit (opts c) = true -> submitBtn p = true) ->
  exists p',
    restoreState c d p = Normal p'
    /\ Forall (λ el, listed el = true -> displayCleared c el) (fields (engine p'))
    /\ (forall i el, fields (engine p) !! i = Some el -> listed el = false ->
                     fields (engine p') !! i = Some el)
    /\ validityView <$> fields (engine p') = validityView <$> fields (engine p)
    /\ isValid (opts c) (formOf (engine p')) = isValid (opts c) (formOf (engine p))
    /\ (Form.disableSubmit (opts c) = true -> submitDisabled (engine p') = false)
    /\ (formValidatedClass d ∉ formClassList p')
    /\ schedView (engine p') = schedView (engine p)
    /\ netView (engine p') = netView (engine p).
Proof.
  intros Hbtn. unfold restoreState.
  set (p1 := set_formClassList _ p).
  assert (exists e1,
            (if Form.disableSubmit (opts c) then enableSubmit p1 else Normal p1)
            = Normal (set_engine e1 p1)
            /\ fields e1 = fields (engine p)
            /\ schedView e1 = schedView (engine p)
            /\ netView e1 = netView (engine p)
            /\ (Form.disableSubmit (opts c) = true -> submitDisabled e1 = false))
    as (e1 & -> & Hf & Hs & Hn & Hd).
  { destruct (Form.disableSubmit (opts c)).
    - unfold enableSubmit, onEngine, Loop.enableSubmit. subst p1.
      cbn [engine set_formClassList]. specialize (Hbtn eq_refl). unfold submitBtn in Hbtn.
      rewrite Hbtn. eexists. split; [reflexivity |]. auto.
    - exists (engine p). split; [now destruct p |]. repeat split; auto. discriminate. }
  cbn [andThen]. eexists. split; [reflexivity |].
  cbn [engine set_engine fields set_fields formClassList set_formClassList]. rewrite Hf.
  fold (restored c).
  split; [| split; [| split; [apply restored_views
                             | split; [| split; [exact Hd | split; [| split]]]]]].
  - apply Forall_fmap, Forall_forall. intros el _. unfold restored. simpl.
    destruct (listed el) eqn:Hl; [intros _; apply clearValidation_cleared |].
    rewrite Hl. discriminate.
  - intros i el Hel Hl. rewrite list_lookup_fmap, Hel. simpl. unfold restored.
    now rewrite Hl.
  - unfold isValid, formOf. cbn [fields set_fields].
    now rewrite (getFirstError_view (opts c) _ _ None None [] [] ∅ ∅ (restored_views c _)).
  - subst p1. cbn [formClassList set_formClassList].
    intros [H _]%list_elem_of_filter. now apply H.
  - exact Hs.
  - unfold netView, fieldIds in *.
    cbn [fields set_fields promises nextPromise handles network applied].
    rewrite restored_ids. injection Hn as _ -> -> -> -> ->. do 5 f_equal.
Qed.

Lemma restoreState_takes_display_back_witness :
  let e := step sampleConfig (run sampleConfig (initial samplePage) [change 0])
             (Settle 0 (Rejected (Some "taken"))) in
  let p := Page e None [] ∅ ["was-validated"] false [] [] in
  isValid defaultOptions (formOf e) = false
  /\ exists p',
       restoreState sampleConfig defaultDisplay p = Normal p'
       /\ Forall (λ el, listed el = true -> displayCleared sampleConfig el)
            (fields (engine p'))
       /\ isValid defaultOptions (formOf (engine p')) = false.
Proof.
  intros e p.
  assert (isValid defaultOptions (formOf e) = false) as Hinv by (vm_compute; reflexivity).
  assert (submitBtn p = true) as Hbtn by (vm_compute; reflexivity).
  split; [exact Hinv |].
  destruct (restoreState_takes_display_back sampleConfig defaultDisplay p (λ _, Hbtn))
    as (p' & H1 & H2 & _ & _ & H4 & _).
  exists p'. split; [exact H1 | split; [exact H2 |]].
  etransitivity; [exact H4 | exact Hinv].
Defined.

(** *** [hightlightErrors] *)

Lemma callDebounced_clock d arg s : clock (callDebounced d arg s) = clock s.
Proof.
  unfold callDebounced, setTimeout. cbn beta iota zeta. repeat split_match; reflexivity.
Qed.

Lemma validateField_clock c i s : clock (after (validateField c i s)) = clock s.
Proof.
  pose proof (validateField_sched c i s) as H. unfold schedView in H.
  now injection H as -> _ _ _ _ _ _.
Qed.

Lemma fire_clock c s t : clock (fire c s t) = clock s.
Proof.
  unfold fire. case_bool_decide; [| reflexivity].
  rewrite (report_view clock) by reflexivity.
  destruct (job t) as [[| d] ev | d]; cbn [invoke after].
  - now rewrite validateField_clock.
  - now rewrite callDebounced_clock.
  - unfold timerExpired, setTimeout. cbn beta iota zeta.
    repeat split_match; cbn [after]; rewrite ?validateField_clock; reflexivity.
Qed.

Lemma wait_clock c n s : clock (Nat.iter n (tick c) s) = (clock s + n)%nat.
Proof.
  induction n as [| n IH]; simpl; [lia |].
  unfold tick at 1. rewrite (fold_left_keeps clock) by (intros; apply fire_clock).
  simpl. rewrite IH. lia.
Qed.

(** [handleSubmit] on an invalid form, when [validate] returns, on an
    instance that can disable its submit button. *)
Lemma handleSubmit_invalid c d p i :
  validateThrows c (fields (engine p)) = false ->
  (Form.disableSubmit (opts c) = true -> submitBtn p = true) ->
  getFirstError (opts c) (formOf (engine p)) = Some i ->
  exists q,
    handleSubmit c d p = Normal (complete (hightlightErrors d i q))
    /\ effects q = effects p ++ [PreventDefault; StopPropagation]
    /\ isFocusing q = isFocusing p
    /\ focusTimers q = focusTimers p
    /\ submitBtn q = submitBtn p
    /\ fields (engine q) = fields (after (validate c (engine p)))
    /\ clock (engine q) = clock (engine p).
Proof.
  intros Hthrow Hbtn Hi. pose proof (handleSubmit_cases c d p) as Hm. cbn zeta in Hm.
  rewrite Hthrow, Hi in Hm. rewrite Hm. clear Hm.
  destruct (validate_outcome c (engine p)) as (_ & _ & Hck).
  pose proof (validate_submitBtn c (engine p)) as Hsb.
  destruct (Form.disableSubmit (opts c)).
  - rewrite (Hbtn eq_refl). eexists. split; [reflexivity |].
    unfold submitBtn. simpl. rewrite Hck, Hsb. auto 10.
  - eexists. split; [reflexivity |]. unfold submitBtn. simpl. rewrite Hck, Hsb. auto 10.
Qed.

(** X21.  After [handleSubmit] has scrolled to the first invalid control
    (with [autoScroll]), the instance is focusing for 500 ms: a second
    submission of the still invalid form within that time is prevented
    and the event [eager:done] is dispatched, but nothing is scrolled to
    and nothing is focused, [focusFirstError] or not.  From 500 ms on a
    submission scrolls and focuses again.  This is for a form on which
    [validate] returns; when it throws, the handler does none of this. *)
Theorem hightlightErrors_once_per_window (c : config) (d : display) (p : page)
    (i n : nat) :
  isFocusing p = false ->
  focusTimers p = [] ->
  autoScroll d = true ->
  validateThrows c (fields (engine p)) = false ->
  (Form.disableSubmit (opts c) = true -> submitBtn p = true) ->
  getFirstError (opts c) (formOf (engine p)) = Some i ->
  let first := handleSubmit c d p in
  let later := elapse c n (after first) in
  let second := handleSubmit c d later in
  let highlight := [ScrollTo i] ++ (if focusFirstError d then [Focus i] else []) in
  effectsSince p first = [PreventDefault; StopPropagation] ++ highlight ++ [Done]
  /\ effectsSince later second
     = [PreventDefault; StopPropagation]
         ++ (if (n <? 500)%nat then [] else highlight) ++ [Done].
Proof.
  intros Hfoc Htim Hscroll Hthrow Hbtn Hi. cbn zeta.
  set (highlight := [ScrollTo i] ++ (if focusFirstError d then [Focus i] else [])).
  destruct (handleSubmit_invalid c d p i Hthrow Hbtn Hi)
    as (q & Hm & He & Hf & Ht & Hb & Hfields & Hclock).
  rewrite Hm. cbn [after].
  (* the first submission *)
  set (p1 := complete (hightlightErrors d i q)).
  assert (effects p1 = effects p ++ [PreventDefault; StopPropagation] ++ highlight ++ [Done]
          /\ isFocusing p1 = true
          /\ focusTimers p1 = [(clock (engine p) + 500)%nat]
          /\ engine p1 = engine q) as (He1 & Hf1 & Ht1 & Hen1).
  { subst p1. unfold complete, hightlightErrors. rewrite Hf, Hfoc, Hscroll. subst highlight.
    destruct (focusFirstError d); simpl; rewrite He, Ht, Htim, Hclock, <- ?app_assoc; auto. }
  split.
  { unfold effectsSince. cbn [after]. now rewrite He1, drop_app_length. }
  (* time passes *)
  set (later := elapse c n p1).
  assert (clock (Nat.iter n (tick c) (engine p1)) = (clock (engine p) + n)%nat) as Hck
      by (now rewrite wait_clock, Hen1, Hclock).
  assert (validityView <$> fields (engine later) = validityView <$> fields (engine p))
    as Hviews.
  { subst later. unfold elapse. cbn [engine].
    now rewrite wait_views, Hen1, Hfields, validate_views. }
  assert (isFocusing later = (n <? 500)%nat /\ submitBtn later = submitBtn p)
    as (Hf2 & Hb2).
  { subst later. unfold elapse, submitBtn in *. cbn [isFocusing engine focusTimers].
    rewrite Ht1, Hf1, Hck, wait_submitBtn, Hen1, Hb.
    rewrite !filter_cons, !filter_nil.
    destruct (Nat.ltb_spec n 500).
    - rewrite decide_False by lia. auto.
    - rewrite decide_True by lia. auto. }
  assert (getFirstError (opts c) (formOf (engine later)) = Some i) as Hi2.
  { rewrite <- Hi. unfold formOf. now apply getFirstError_view. }
  assert (validateThrows c (fields (engine later)) = false) as Hthrow2.
  { rewrite <- Hthrow. now apply validateThrows_view. }
  (* the second submission *)
  assert (Form.disableSubmit (opts c) = true -> submitBtn later = true) as Hbtn2
      by (intros H; rewrite Hb2; auto).
  destruct (handleSubmit_invalid c d later i Hthrow2 Hbtn2 Hi2)
    as (q2 & Hm2 & He2 & Hfq2 & Htq2 & _ & _ & _).
  rewrite Hm2. unfold effectsSince. cbn [after].
  unfold complete, hightlightErrors. rewrite Hfq2, Hf2, Hscroll. subst highlight.
  destruct (n <? 500)%nat, (focusFirstError d); simpl; rewrite He2, <- ?app_assoc;
    now rewrite drop_app_length.
Qed.

Lemma hightlightErrors_once_per_window_witness :
  let p := pageOf (Form_ [requiredEmpty "a" []; submitButton] None [] ∅) in
  let later := elapse sampleConfig 120 (after (handleSubmit sampleConfig defaultDisplay p)) in
  effectsSince later (handleSubmit sampleConfig defaultDisplay later)
  = [PreventDefault; StopPropagation; Done].
Proof.
  intros p later.
  apply (hightlightErrors_once_per_window sampleConfig defaultDisplay p 0 120).
  - reflexivity.
  - reflexivity.
  - reflexivity.
  - vm_compute. reflexivity.
  - intros _. vm_compute. reflexivity.
  - vm_compute. reflexivity.
Defined.

(** *** [destroy] *)

Lemma detachEvents_listeners this f f' :
  listeners f = listeners f' ->
  listeners (detachEvents this f) = listeners (detachEvents this f').
Proof.
  intros Hl. unfold detachEvents.
  set (g := λ event, Listener event (self this) InputHandler
                       (bool_decide (event ∈ unBubbledEvents))).
  change (λ acc event, removeEventListener (Listener event (self this) InputHandler
                                              (bool_decide (event ∈ unBubbledEvents))) acc)
    with (λ acc event, removeEventListener (g event) acc).
  rewrite !(fold_remove_map g).
  set (f1 := fold_left _ _ f). set (f1' := fold_left _ _ f').
  assert (listeners f1 = listeners f1') as H1
      by (subst f1 f1'; now rewrite !fold_removeEventListener, Hl).
  assert (listeners (if captureSubmit (instOptions this)
                     then removeEventListener
                            (Listener "submit" (self this) SubmitHandler false) f1
                     else f1)
          = listeners (if captureSubmit (instOptions this)
                       then removeEventListener
                              (Listener "submit" (self this) SubmitHandler false) f1'
                       else f1')) as H2.
  { destruct (captureSubmit (instOptions this)); [| exact H1].
    unfold removeEventListener. cbn [listeners]. now rewrite H1. }
  destruct (captureReset (instOptions this)); [| exact H2].
  now rewrite !addEventListener_listeners, H2.
Qed.

(** What [restoreState] leaves alone, whether it returns or throws. *)
Lemma restoreState_frame c d p :
  let m := restoreState c d p in
  (threw m = true <-> Form.disableSubmit (opts c) = true /\ submitBtn p = false)
  /\ holder (after m) = holder p
  /\ registered (after m) = registered p
  /\ schedView (engine (after m)) = schedView (engine p)
  /\ netView (engine (after m)) = netView (engine p).
Proof.
  cbn zeta. unfold restoreState, enableSubmit, onEngine, Loop.enableSubmit, submitBtn.
  cbn [engine set_formClassList]. fold (restored c).
  destruct (Form.disableSubmit (opts c)); [destruct (Loop.submitBtn (engine p)) |];
    cbn [andThen threw after holder registered engine set_engine set_formClassList].
  - split; [split; [discriminate | intros (_ & H); discriminate] |].
    repeat split. unfold netView, fieldIds. simpl. now rewrite restored_ids.
  - split; [split; auto |]. repeat split.
  - split; [split; [discriminate | intros (H & _); discriminate] |].
    repeat split. unfold netView, fieldIds. simpl. now rewrite restored_ids.
Qed.

(** X22.  [destroy] throws in one case only: it is asked to restore
    (the default), [disableSubmit] is set, and the instance has no submit
    button.  Then nothing is detached and the form still holds the
    instance.  In every other case the form holds no instance any more
    and its listeners are those that [detachEvents] leaves.  In no case
    is a pending timer, promise or request cancelled. *)
Theorem destroy_completion (c : config) (d : display) (this : instance) (restore : bool)
    (p : page) :
  let m := destroy c d this restore p in
  (threw m = true <->
     restore = true /\ Form.disableSubmit (opts c) = true /\ submitBtn p = false)
  /\ (threw m = true -> holder (after m) = holder p /\ registered (after m) = registered p)
  /\ (threw m = false ->
      holder (after m) = None
      /\ registered (after m) = listeners (detachEvents this (domOf p)))
  /\ schedView (engine (after m)) = schedView (engine p)
  /\ netView (engine (after m)) = netView (engine p).
Proof.
  intros m. subst m. unfold destroy.
  destruct restore.
  - destruct (restoreState_frame c d p) as (Hthrew & Hh & Hr & Hs & Hn). cbn zeta in *.
    destruct (restoreState c d p) as [p' | e p'];
      cbn [andThen threw after holder registered engine] in *.
    + split; [split; [discriminate |] |].
      { intros (_ & H). apply Hthrew in H. discriminate. }
      split; [discriminate |]. split; [| auto].
      intros _. split; [reflexivity |]. apply detachEvents_listeners.
      unfold domOf. cbn [listeners]. exact Hr.
    + split; [split; [intros _; split; [reflexivity | now apply Hthrew] | reflexivity] |].
      split; [auto |]. split; [discriminate | auto].
  - cbn [andThen threw after holder registered engine].
    split; [split; [discriminate | intros (H & _); discriminate] |].
    split; [discriminate |]. split; [| auto]. intros _. split; reflexivity.
Qed.

End LifecycleMore.

(** ** The registries *)

Module RegistryMore.

Import Text Dom Message Form Loop Registry Views Samples MessageMore.

(** *** Rules *)

Lemma ruleAttribute_inj name name' :
  ruleAttribute name = ruleAttribute name' -> name = name'.
Proof.
  unfold ruleAttribute, RULE_PREFIX. rewrite !app_cons_s, !app_nil_s.
  now intros [= ->].
Qed.

Lemma register_origin calls :
  forall rules rules',
    register calls rules = Return rules' ->
    forall name f, rules' !! name = Some f ->
      ((name ∉ reservedWords) /\ (name, AFunction f) ∈ calls) \/ rules !! name = Some f.
Proof.
  induction calls as [| [n cb] calls IH]; intros rules rules' Hreg name f Hf; simpl in Hreg.
  - injection Hreg as <-. now right.
  - unfold rule in Hreg. case_bool_decide as Hres; [discriminate |].
    destruct cb as [g |]; [| discriminate].
    destruct (IH _ _ Hreg name f Hf) as [[H1 H2] | H].
    + left. split; [exact H1 | now right].
    + destruct (decide (name = n)) as [-> | Hne].
      * rewrite lookup_insert_eq in H. injection H as ->. left. split; [exact Hres | left].
      * rewrite lookup_insert_ne in H by congruence. now right.
Qed.

(** The attribute of a rule is looked up without regard to case: it is
    the one of the name in lower case. *)
Lemma ruleAttribute_lower name :
  toLowerCase (ruleAttribute name) = ruleAttribute (toLowerCase name).
Proof. reflexivity. Qed.

(** X23.  Whatever registrations a page makes through [EagerForm.rule],
    starting from a registry without rules, every rule of the resulting
    registry was registered under its name as a function, and its name,
    as it is spelled, is none of the reserved words [error], [debounce]
    and [delay].  A control launches the rule when it carries the
    attribute of the name in lower case, since attribute names are looked
    up without regard to case; that attribute is one of the three
    attributes [data-eager-error], [data-eager-debounce] and
    [data-eager-delay] that [handleInput] and the rejection handler read
    exactly when the name in lower case is a reserved word.  The guard
    does not exclude that: a name such as [Error] is accepted, and every
    control that carries [data-eager-error] launches its rule. *)
Theorem registered_rules_avoid_reserved (calls : list (string * callbackArg))
    (rules : gmap string Loop.rule) :
  register calls ∅ = Return rules ->
  forall name f, rules !! name = Some f ->
    (name, AFunction f) ∈ calls
    /\ (name ∉ reservedWords)
    /\ (forall el,
          hasAttribute el (ruleAttribute name)
          = bool_decide (is_Some (attributes el !! ruleAttribute (toLowerCase name))))
    /\ (ruleAttribute (toLowerCase name)
          ∈ ["data-eager-error"; "data-eager-debounce"; "data-eager-delay"]
        <-> toLowerCase name ∈ reservedWords).
Proof.
  intros Hreg name f Hf.
  destruct (register_origin calls ∅ rules Hreg name f Hf) as [[Hres Hin] | H];
    [| rewrite lookup_empty in H; discriminate].
  split; [exact Hin |]. split; [exact Hres |]. split.
  - intros el. unfold hasAttribute. now rewrite ruleAttribute_lower.
  - unfold reservedWords.
    change "data-eager-error" with (ruleAttribute "error").
    change "data-eager-debounce" with (ruleAttribute "debounce").
    change "data-eager-delay" with (ruleAttribute "delay").
    rewrite !elem_of_cons. split.
    + intros [H | [H | [H | H]]]; [| | | inversion H];
        apply ruleAttribute_inj in H; auto.
    + intros [-> | [-> | [-> | H]]]; [| | | inversion H]; auto.
Qed.

Lemma registered_rules_avoid_reserved_witness :
  register [("Error", AFunction CustomRule)] ∅ = Return {[ "Error" := CustomRule ]}
  /\ ("Error" ∉ reservedWords)
  /\ forall el, hasAttribute el (ruleAttribute "Error") = hasAttribute el "data-eager-error".
Proof.
  assert (register [("Error", AFunction CustomRule)] ∅ = Return {[ "Error" := CustomRule ]})
    as H by reflexivity.
  destruct (registered_rules_avoid_reserved _ _ H "Error" CustomRule eq_refl)
    as (_ & H1 & H2 & _).
  split; [exact H | split; [exact H1 | exact H2]].
Defined.

(** A rule registered under the name [Error] is launched by the attribute
    that holds the error text of every rule. *)
Example rule_named_Error_is_launched :
  let c := Config defaultOptions enLocale [("Error", CustomRule)] noInherited plainPlatform in
  let s := run c (initial [textInput "a" [("data-eager-error", "Not available")];
                           submitButton]) [change 0] in
  promises s !! 0%nat = Some (Promise 0 "data-eager-Error" CustomRule 1 false).
Proof. vm_compute. reflexivity. Qed.

(** *** Messages *)

Lemma translate_assign key message cat k :
  key <> "numbers" ->
  translate (assign key message cat) k
  = if bool_decide (k = key) then (if isEmpty message then None else Some message)
    else translate cat k.
Proof.
  intros Hkey. unfold assign. rewrite bool_decide_eq_false_2 by exact Hkey.
  unfold translate. cbn [templates]. case_bool_decide as Hk.
  - subst k. now rewrite lookup_insert_eq.
  - now rewrite lookup_insert_ne by congruence.
Qed.

(** X24.  [addMessage] writes to the object that is bound to the locale
    of the instance.  Afterwards every locale name bound to that object,
    the locale of other instances included, translates the key to the
    message, or to nothing when the message is empty, and translates
    every other key as before; a locale name bound to another object
    translates every key as before. *)
Theorem addMessage_writes_shared_object (o : options) (key message : string)
    (r r' : locales) :
  addMessage o key message r = Return r' ->
  key <> "numbers" ->
  forall name,
    (bound r !! name = bound r !! locale o ->
     exists cat cat',
       messagesOf r name = Some cat /\ messagesOf r' name = Some cat'
       /\ translate cat' key = (if isEmpty message then None else Some message)
       /\ forall k, k <> key -> translate cat' k = translate cat k)
    /\ (bound r !! name <> bound r !! locale o -> messagesOf r' name = messagesOf r name).
Proof.
  intros Hadd Hkey name. unfold addMessage in Hadd.
  destruct (bound r !! locale o) as [ref |] eqn:Href; [| discriminate].
  destruct (objects r !! ref) as [cat |] eqn:Hcat; [| discriminate].
  injection Hadd as <-. unfold messagesOf. cbn [bound objects].
  split.
  - intros ->. rewrite Hcat, lookup_insert_eq. exists cat, (assign key message cat).
    split; [reflexivity | split; [reflexivity |]].
    split.
    + rewrite translate_assign by exact Hkey. now rewrite bool_decide_eq_true_2.
    + intros k Hk. rewrite translate_assign by exact Hkey.
      now rewrite bool_decide_eq_false_2.
  - intros Hne. destruct (bound r !! name) as [ref' |]; [| reflexivity].
    apply lookup_insert_ne. congruence.
Qed.

Lemma addMessage_writes_shared_object_witness :
  let r := addLocale "en-GB" 0 loaded in
  let british :=
    Options "en-GB" true ["blur"; "change"; "input"] true ∅ {[ "blur" := 100 ]}
      false true true true "is-valid" "is-invalid" in
  exists r' cat,
    addMessage british "valueMissing" "Required" r = Return r'
    /\ messagesOf r' "en" = Some cat
    /\ translate cat "valueMissing" = Some "Required".
Proof.
  intros r british.
  assert (addMessage british "valueMissing" "Required" r
          = Return (Locales (bound r)
                      (<[0%nat := assign "valueMissing" "Required" enLocale]> (objects r))
                      (nextObject r))) as Hadd by reflexivity.
  destruct (proj1 (addMessage_writes_shared_object british "valueMissing" "Required" r _
                     Hadd ltac:(discriminate) "en") eq_refl)
    as (cat & cat' & _ & H2 & H3 & _).
  eexists _, cat'. split; [exact Hadd | split; [exact H2 | exact H3]].
Defined.

Lemma translate_spread cat messages k :
  k <> "numbers" ->
  translate (spread cat messages) k
  = match messages !! k with
    | Some m => if isEmpty m then None else Some m
    | None => translate cat k
    end.
Proof.
  intros Hk. unfold translate, spread. cbn [templates].
  rewrite lookup_union, lookup_delete_ne by congruence.
  destruct (messages !! k) as [m |]; destruct (templates cat !! k); reflexivity.
Qed.

(** X25.  [setMessages] binds the locale of the instance to a new
    object: the locale then translates a key of the given messages to the
    given message (to nothing when it is empty) and every other key as
    before, and the locale is created when it was not loaded.  Every
    other locale name translates as before, also a name that shared the
    old object with the locale. *)
Theorem setMessages_binds_new_object (o : options) (messages : gmap string string)
    (r : locales) :
  wellFormed r ->
  let r' := setMessages o messages r in
  (exists cat',
     messagesOf r' (locale o) = Some cat'
     /\ forall k, k <> "numbers" ->
          translate cat' k
          = match messages !! k with
            | Some m => if isEmpty m then None else Some m
            | None => match messagesOf r (locale o) with
                      | Some cat => translate cat k
                      | None => None
                      end
            end)
  /\ (forall name, name <> locale o -> messagesOf r' name = messagesOf r name)
  /\ wellFormed r'.
Proof.
  intros [Hb Ho] r'. subst r'. unfold setMessages, newObject. cbn zeta.
  set (old := default (Catalog ∅ []) (messagesOf r (locale o))).
  split; [| split].
  - exists (spread old messages). unfold messagesOf at 1. cbn [bound objects].
    rewrite !lookup_insert_eq. split; [reflexivity |].
    intros k Hk. rewrite translate_spread by exact Hk.
    destruct (messages !! k); [reflexivity |]. subst old.
    destruct (messagesOf r (locale o)); [reflexivity |].
    unfold translate. simpl. now rewrite lookup_empty.
  - intros name Hne. unfold messagesOf. cbn [bound objects].
    rewrite lookup_insert_ne by congruence.
    destruct (bound r !! name) as [ref |] eqn:Href; [| reflexivity].
    apply lookup_insert_ne. apply Hb in Href. lia.
  - split; cbn [bound objects nextObject].
    + intros name ref. destruct (decide (name = locale o)) as [-> | Hne].
      * rewrite lookup_insert_eq. intros [= <-]. lia.
      * rewrite lookup_insert_ne by congruence. intros H%Hb. lia.
    + intros ref cat. destruct (decide (ref = nextObject r)) as [-> | Hne].
      * intros _. lia.
      * rewrite lookup_insert_ne by congruence. intros H%Ho. lia.
Qed.

Lemma loaded_wellFormed : wellFormed (addLocale "en-GB" 0 loaded).
Proof.
  split; simpl.
  - intros name ref.
    destruct (decide (name = "en-GB")) as [-> | H1];
      [rewrite lookup_insert_eq; intros [= <-]; lia |].
    rewrite lookup_insert_ne by congruence.
    destruct (decide (name = "en")) as [-> | H2];
      [rewrite lookup_insert_eq; intros [= <-]; lia |].
    rewrite lookup_insert_ne, lookup_empty by congruence. discriminate.
  - intros ref cat. destruct (decide (ref = 0%nat)) as [-> | H]; [lia |].
    rewrite lookup_insert_ne, lookup_empty by congruence. discriminate.
Qed.

Lemma setMessages_binds_new_object_witness :
  let r := addLocale "en-GB" 0 loaded in
  let british :=
    Options "en-GB" true ["blur"; "change"; "input"] true ∅ {[ "blur" := 100 ]}
      false true true true "is-valid" "is-invalid" in
  let r' := setMessages british {[ "valueMissing" := "Required" ]} r in
  wellFormed r /\ messagesOf r' "en" = Some enLocale.
Proof.
  intros r british r'.
  split; [exact loaded_wellFormed |].
  exact (proj1 (proj2 (setMessages_binds_new_object british {[ "valueMissing" := "Required" ]}
                         r loaded_wellFormed)) "en" ltac:(discriminate)).
Defined.

End RegistryMore.

(** ** Construction *)

Module ConstructionMore.

Import Text Dom Message Form Samples.

(** X26.  On a form that holds no instance, with a locale that is
    loaded, the constructor returns the new object and starts it: the
    form holds the object, carries [novalidate="true"] and has the
    listeners that [attachEvents] registers; its controls are not
    touched.  Constructing again on that form, with any options whose
    locale is loaded, returns the same object and changes nothing. *)
Theorem constructor_starts_once (messages : gmap string catalog) (fresh : nat) (f : form)
    (opts : options) :
  EagerForm f = None ->
  is_Some (messages !! locale opts) ->
  exists f',
    constructor messages fresh f opts = Return (Inst fresh opts, f')
    /\ EagerForm f' = Some (Inst fresh opts)
    /\ controls f' = controls f
    /\ formAttributes f' = <["novalidate" := "true"]> (formAttributes f)
    /\ listeners f' = listeners (attachEvents (Inst fresh opts) f)
    /\ forall fresh' opts',
         is_Some (messages !! locale opts') ->
         constructor messages fresh' f' opts' = Return (Inst fresh opts, f').
Proof.
  intros Hnone [m Hm]. unfold constructor. rewrite Hm, Hnone.
  eexists. split; [reflexivity |]. cbn [EagerForm controls formAttributes listeners start].
  assert (forall this g, controls (attachEvents this g) = controls g
                         /\ formAttributes (attachEvents this g) = formAttributes g) as Hkeep.
  { intros this g. unfold attachEvents.
    assert (forall l h, controls (addEventListener l h) = controls h
                        /\ formAttributes (addEventListener l h) = formAttributes h) as Hadd.
    { intros l h. unfold addEventListener. now case_bool_decide. }
    assert (forall evs h,
              controls (fold_left
                          (λ acc event,
                             addEventListener
                               (Listener event (self this) InputHandler
                                  (bool_decide (event ∈ unBubbledEvents))) acc) evs h)
              = controls h
              /\ formAttributes (fold_left
                          (λ acc event,
                             addEventListener
                               (Listener event (self this) InputHandler
                                  (bool_decide (event ∈ unBubbledEvents))) acc) evs h)
                 = formAttributes h) as Hfold.
    { induction evs as [| ev evs IH]; intros h; simpl; [auto |].
      destruct (IH (addEventListener
                      (Listener ev (self this) InputHandler
                         (bool_decide (ev ∈ unBubbledEvents))) h)) as [-> ->].
      apply Hadd. }
    destruct (captureSubmit (instOptions this)), (captureReset (instOptions this));
      repeat match goal with
        | |- context [controls (addEventListener ?l ?h)] =>
            rewrite (proj1 (Hadd l h)), (proj2 (Hadd l h))
        end; apply Hfold. }
  destruct (Hkeep (Inst fresh opts) f) as [Hc Ha].
  split; [reflexivity |]. split; [exact Hc |]. split; [now rewrite Ha |].
  split; [reflexivity |].
  intros fresh' opts' [m' ->]. reflexivity.
Qed.

Lemma constructor_starts_once_witness :
  exists f',
    constructor defaultMessages 0 (Form_ [textInput "a" []] None [] ∅) defaultOptions
    = Return (Inst 0 defaultOptions, f')
    /\ formAttributes f' !! "novalidate" = Some "true"
    /\ constructor defaultMessages 1 f' defaultOptions = Return (Inst 0 defaultOptions, f').
Proof.
  destruct (constructor_starts_once defaultMessages 0 (Form_ [textInput "a" []] None [] ∅)
              defaultOptions eq_refl ltac:(vm_compute; eauto))
    as (f' & H1 & _ & _ & H4 & _ & H6).
  exists f'. split; [exact H1 |]. split.
  - rewrite H4. apply lookup_insert_eq.
  - apply H6. vm_compute. eauto.
Defined.

End ConstructionMore.

(** ** The renderer *)

Module RenderMore.

Import Text Dom Message Form Loop Views Samples PassFacts LoopMore.

Lemma setClassList_same el : setClassList (classList el) el = el.
Proof. now destruct el. Qed.

Lemma classRemove_absent k el : k ∉ classList el -> classRemove k el = el.
Proof.
  intros Hk. unfold classRemove.
  rewrite LoopFacts.filter_all; [apply setClassList_same |].
  intros x Hx ->. contradiction.
Qed.

Lemma classAdd_present k el : k ∈ classList el -> classAdd k el = el.
Proof. intros Hk. unfold classAdd, hasClass. now rewrite bool_decide_eq_true_2. Qed.

Lemma setFeedback_same el : setFeedback (feedback el) el = el.
Proof. now destruct el. Qed.

(** X27.  With distinct valid and invalid classes, [setError] leaves the
    control with the invalid class, without the valid class and with the
    message of the violation as its feedback; [clearError] afterwards
    leaves it without the invalid class, with an empty feedback, and with
    the valid class exactly under [showSuccessState].  Neither changes
    the validity of the control, and rendering the same thing twice is
    rendering it once. *)
Theorem clearError_after_setError (c : config) (k : string) (el : element) :
  inputValidClass (opts c) <> inputInvalidClass (opts c) ->
  let shown := setError c k el in
  let cleared := clearError c shown in
  (inputInvalidClass (opts c) ∈ classList shown
   /\ (inputValidClass (opts c) ∉ classList shown)
   /\ feedback shown = getMessage (inheritedText c) (cat c) el k)
  /\ ((inputInvalidClass (opts c) ∉ classList cleared)
      /\ feedback cleared = ""
      /\ (inputValidClass (opts c) ∈ classList cleared <-> showSuccessState (opts c) = true))
  /\ validityView cleared = validityView el
  /\ setError c k shown = shown
  /\ clearError c cleared = cleared.
Proof.
  intros Hne shown cleared.
  destruct (setError_classes c k el Hne) as [Hinv Hval]. fold shown in Hinv, Hval.
  assert (feedback shown = getMessage (inheritedText c) (cat c) el k) as Hfb.
  { subst shown. unfold setError. cbn [feedback setFeedback]. apply getMessage_view.
    transitivity (validityView (classAdd (inputInvalidClass (opts c)) el));
      [reflexivity | apply classAdd_view]. }
  assert (validityView shown = validityView el) as Hv by apply setError_view.
  split; [auto |].
  assert (classList cleared
          = filter (λ x, x ≠ inputInvalidClass (opts c)) (classList shown)
            ++ (if showSuccessState (opts c) then [inputValidClass (opts c)] else [])
          /\ feedback cleared = "") as [Hcl Hfc].
  { subst cleared. unfold clearError.
    destruct (showSuccessState (opts c)); [| now rewrite app_nil_r].
    unfold classAdd, hasClass. rewrite bool_decide_eq_false_2; [split; reflexivity |].
    cbn [classList setFeedback classRemove setClassList].
    intros [_ H]%list_elem_of_filter. contradiction. }
  assert (inputInvalidClass (opts c) ∉ classList cleared) as Hnoinv.
  { rewrite Hcl. intros [[H _]%list_elem_of_filter | H]%elem_of_app; [now apply H |].
    destruct (showSuccessState (opts c)); [| inversion H].
    apply list_elem_of_singleton in H. congruence. }
  split; [split; [exact Hnoinv | split; [exact Hfc |]] |].
  { rewrite Hcl, elem_of_app. split.
    - intros [[_ H]%list_elem_of_filter | H]; [contradiction |].
      destruct (showSuccessState (opts c)); [reflexivity | inversion H].
    - intros ->. right. left. }
  split; [subst cleared; now rewrite clearError_view |].
  split.
  - unfold setError at 1. rewrite (classAdd_present _ shown Hinv).
    rewrite (classRemove_absent _ shown Hval).
    rewrite (getMessage_view _ _ shown el k Hv), <- Hfb. apply setFeedback_same.
  - assert (setFeedback "" cleared = cleared) as Hs
      by (rewrite <- Hfc; apply setFeedback_same).
    unfold clearError at 1. rewrite (classRemove_absent _ cleared Hnoinv), Hs.
    destruct (showSuccessState (opts c)) eqn:Hshow; [| reflexivity].
    apply classAdd_present. rewrite Hcl. apply elem_of_app. right. left.
Qed.

Lemma clearError_after_setError_witness :
  let shown := setError sampleConfig "valueMissing" (requiredEmpty "a" []) in
  classList shown = ["is-invalid"]
  /\ feedback shown = "Please fill out this field."
  /\ setError sampleConfig "valueMissing" shown = shown.
Proof.
  intros shown.
  destruct (clearError_after_setError sampleConfig "valueMissing" (requiredEmpty "a" [])
              ltac:(discriminate))
    as ((_ & _ & H) & _ & _ & H' & _).
  split; [reflexivity |]. split; [| exact H'].
  etransitivity; [exact H | vm_compute; reflexivity].
Defined.

End RenderMore.
